(** * Token refresh coordination and scheduled dispatch of [app.js]

    A shallow embedding of the parts of [src/app.js] that carry the
    behaviour of the application:

    - the global Instagram/Facebook token store
      ([getGlobalInstagramFacebookToken], [setGlobalInstagramFacebookToken]),
    - the per-brand refresh coordinator ([refreshBrandToken]) with its
      process-wide lock map [refreshLocks],
    - the delivery operation ([sendPostToN8N]) and the dispatch loop,
    - the routes that create and approve posts and that create and delete
      brands, with [parseLangs].

    JavaScript runs one task at a time and a task gives up control only at
    an [await].  An [async] function is therefore embedded as a machine whose
    states are its [await] points: one step runs the synchronous code between
    two consecutive [await]s as a single atomic action.  The outcome of the
    awaited operation (storage success or failure, the HTTP response, the
    clock) is supplied by the environment with each step. *)

From Stdlib Require Import ZArith Lia.
From stdpp Require Import gmap strings list fin_maps pretty.

Open Scope Z_scope.

(** ** JavaScript values *)

Module Js.

(** The scalar JSON values that occur as fields of a credentials object. *)
Inductive value :=
| VUndefined
| VNull
| VBool (b : bool)
| VNum (n : Z)
| VStr (s : string).

(** ToBoolean: what [if (v)], [!v] and [v || w] test. *)
Definition truthy (v : value) : bool :=
  match v with
  | VUndefined | VNull => false
  | VBool b => b
  | VNum n => negb (n =? 0)
  | VStr s => negb (String.eqb s "")
  end.

(** [a || b] *)
Definition or (a b : value) : value := if truthy a then a else b.

(** A plain object with string keys; [{ ...o }] is [o] itself, since maps
    are values here. *)
Abbreviation obj := (gmap string value).

(** [o.k]: a missing property reads as [undefined]. *)
Definition get (o : obj) (k : string) : value := default VUndefined (o !! k).

(** [o.k = v] *)
Definition set (o : obj) (k : string) (v : value) : obj := <[k := v]> o.

(** A string-or-null result such as the one of the token getter. *)
Definition truthy_str (t : option string) : bool :=
  match t with
  | Some s => negb (String.eqb s "")
  | None => false
  end.

(** A number-or-absent field of a response. *)
Definition truthy_num (n : option Z) : bool :=
  match n with
  | Some z => negb (z =? 0)
  | None => false
  end.

End Js.

(** ** [new Date(ms).toISOString()] *)

Module Date.

(** Fixed-width decimal rendering of the [w] low digits of [n]. *)
Fixpoint dec (w : nat) (n : Z) : string :=
  match w with
  | O => ""
  | S w' => dec w' (n / 10) +:+ String (Ascii.ascii_of_nat (48 + Z.to_nat (n mod 10))) ""
  end.

(** Largest magnitude of a time value, in milliseconds. *)
Definition max_time : Z := 8640000000000000.

Definition ms_per_day : Z := 86400000.

(** Year, month and day of the proleptic Gregorian calendar for a day
    number counted from 1970-01-01. *)
Definition civil (day : Z) : Z * Z * Z :=
  let z := day + 719468 in
  let era := z / 146097 in
  let doe := z - era * 146097 in
  let yoe := (doe - doe / 1460 + doe / 36524 - doe / 146096) / 365 in
  let doy := doe - (365 * yoe + yoe / 4 - yoe / 100) in
  let mp := (5 * doy + 2) / 153 in
  let d := doy - (153 * mp + 2) / 5 + 1 in
  let m := if mp <? 10 then mp + 3 else mp - 9 in
  let y := yoe + era * 400 + (if m <=? 2 then 1 else 0) in
  (y, m, d).

Definition year_string (y : Z) : string :=
  if (0 <=? y) && (y <=? 9999) then dec 4 y
  else (if y <? 0 then "-" else "+") +:+ dec 6 (Z.abs y).

(** [toISOString] of the date with time value [ms]; [None] stands for the
    [RangeError] thrown on an invalid date. *)
Definition toISOString (ms : Z) : option string :=
  if Z.abs ms <=? max_time then
    let day := ms / ms_per_day in
    let r := ms mod ms_per_day in
    let '(y, m, d) := civil day in
    Some (year_string y +:+ "-" +:+ dec 2 m +:+ "-" +:+ dec 2 d +:+ "T"
          +:+ dec 2 (r / 3600000) +:+ ":" +:+ dec 2 (r / 60000 mod 60) +:+ ":"
          +:+ dec 2 (r / 1000 mod 60) +:+ "." +:+ dec 3 (r mod 1000) +:+ "Z")
  else None.

End Date.

(** ** Outcomes supplied by the environment *)

(** Outcome of an awaited storage or webhook operation: it completes, or it
    rejects with an error carrying a message. *)
Inductive io :=
| Succeeds
| Fails (message : string).

(** Body of the token endpoint's JSON response: an optional [access_token]
    and an optional [expires_in], in seconds. *)
Record exchange_data := ExchangeData {
  access_token : option string;
  expires_in : option Z;
}.

(** Outcome of [axios.get] on the token endpoint: a response with its
    [data], or a rejection (network failure, timeout, error status). *)
Inductive http_result :=
| Response (data : exchange_data)
| NetworkError (message : string).

(** What the environment decides when a suspended task is resumed: the value
    of [Date.now()] and the outcome of the operation the task was awaiting.
    A task reads only the field that matches its pending [await]. *)
Record tick := Tick {
  now : Z;
  storage : io;
  http : http_result;
}.

(** ** Global token store *)

Module Store.

(** Table [instagramFacebook_tokens]: [id SERIAL PRIMARY KEY],
    [token TEXT NOT NULL]. *)
Record row := Row { row_id : Z; row_token : string }.

(** The rows together with the next value of the [SERIAL] sequence. *)
Record table := Table { rows : list row; next_id : Z }.

(** The table as the migration creates it. *)
Definition fresh : table := Table [] 1.

(** [findFirst()] *)
Definition findFirst (t : table) : option row := head (rows t).

(** [upsert({ where: { id }, update: { token }, create: { token } })]:
    the row with this primary key gets the token; when there is none a row
    is inserted whose id comes from the sequence. *)
Definition upsert (id : Z) (token : string) (t : table) : table :=
  if existsb (λ r, row_id r =? id) (rows t)
  then Table (map (λ r, if row_id r =? id then Row (row_id r) token else r) (rows t))
             (next_id t)
  else Table (rows t ++ [Row (next_id t) token]) (next_id t + 1).

(** [getGlobalInstagramFacebookToken]: the token of the first row, [null]
    when there is no row, and [null] as well when the query rejects. *)
Definition getGlobalInstagramFacebookToken (o : io) (t : table) : option string :=
  match o with
  | Succeeds => row_token <$> findFirst t
  | Fails _ => None
  end.

(** [setGlobalInstagramFacebookToken]: upsert of the row with id 1; a
    storage error is logged and rethrown ([Some message]). *)
Definition setGlobalInstagramFacebookToken (o : io) (token : string) (t : table)
  : table * option string :=
  match o with
  | Succeeds => (upsert 1 token t, None)
  | Fails message => (t, Some message)
  end.

(** A sequence of [setGlobalInstagramFacebookToken] calls, each with the
    outcome of its storage operation. *)
Definition set_all (calls : list (io * string)) (t : table) : table :=
  foldl (λ t c, (setGlobalInstagramFacebookToken c.1 c.2 t).1) t calls.

(** The token of the last call of the sequence whose write went through. *)
Definition last_written (calls : list (io * string)) : option string :=
  foldl (λ acc c, match c.1 with Succeeds => Some c.2 | Fails _ => acc end) None calls.

(** The store holds no row yet, or the single row with id 1. *)
Definition singleton (t : table) : Prop :=
  t = fresh ∨ ∃ token n, t = Table [Row 1 token] n.

End Store.

(** ** The refresh coordinator *)

Module Refresh.

Record brand := Brand {
  brand_id : Z;
  instagramCredentials : option Js.obj;
  facebookCredentials : option Js.obj;
}.

(** [brand[credsKey]] *)
Definition brand_field (b : brand) (credsKey : string) : option Js.obj :=
  if String.eqb credsKey "facebookCredentials" then facebookCredentials b
  else if String.eqb credsKey "instagramCredentials" then instagramCredentials b
  else None.

(** Query parameters of one call to the token endpoint (the grant type is
    the constant [fb_exchange_token]). *)
Record exchange_call := ExchangeCall {
  client_id : Js.value;
  client_secret : Js.value;
  fb_exchange_token : string;
}.

(** The state shared by all tasks of the process. *)
Record world := World {
  refreshLocks : gmap string nat;   (* lock key -> the promise stored under it *)
  resolved : gset nat;              (* promises whose [resolveLock] was called *)
  promises : nat;                   (* number of promises created so far *)
  tokens : Store.table;
  exchanges : list exchange_call;   (* calls issued to the token endpoint, oldest first *)
}.

(** The [await] points of [refreshBrandToken], with the local variables
    that are live at each, and its completion. *)
Inductive state :=
| AwaitLock (creds : Js.obj) (p : nat)
    (* line 57: await refreshLocks[lockKey] *)
| AwaitTokenAfter (creds : Js.obj)
    (* line 58: await getGlobalInstagramFacebookToken() *)
| AwaitToken (lockKey : string) (p : nat) (creds : Js.obj) (appId appSecret : Js.value)
    (* line 67: await getGlobalInstagramFacebookToken() *)
| AwaitExchange (lockKey : string) (p : nat) (creds : Js.obj)
    (* line 74: await axios.get(url, ...) *)
| AwaitPersist (lockKey : string) (p : nat) (creds : Js.obj)
               (token : string) (expires : option Z)
    (* line 87: await setGlobalInstagramFacebookToken(data.access_token) *)
| AwaitTokenCatch (lockKey : string) (p : nat) (creds : Js.obj)
    (* line 100: await getGlobalInstagramFacebookToken() *)
| Returned (result : option Js.obj).
    (* the promise of the call is fulfilled with [null] or with [creds] *)

Definition credsKey (provider : string) : string :=
  if String.eqb provider "facebook" then "facebookCredentials" else "instagramCredentials".

(** [`${brand.id}_${provider}`] *)
Definition lockKey (b : brand) (provider : string) : string :=
  pretty (brand_id b) +:+ "_" +:+ provider.

Definition appId_of (creds : Js.obj) : Js.value :=
  Js.or (Js.get creds "app_id")
    (Js.or (Js.get creds "appId")
       (Js.or (Js.get creds "client_id") (Js.get creds "clientId"))).

Definition appSecret_of (creds : Js.obj) : Js.value :=
  Js.or (Js.get creds "app_secret")
    (Js.or (Js.get creds "appSecret")
       (Js.or (Js.get creds "client_secret") (Js.get creds "clientSecret"))).

(** [if (token) creds.access_token = token] *)
Definition stamp (creds : Js.obj) (token : option string) : Js.obj :=
  match token with
  | Some t => if Js.truthy_str token then Js.set creds "access_token" (Js.VStr t) else creds
  | None => creds
  end.

(** The [finally] block: [resolveLock(); delete refreshLocks[lockKey]]. *)
Definition release (key : string) (p : nat) (w : world) : world :=
  World (delete key (refreshLocks w)) ({[p]} ∪ resolved w) (promises w)
        (tokens w) (exchanges w).

(** Lines 42-67: the synchronous part of a call, up to its first [await].
    An omitted [provider] takes the default ['instagram']. *)
Definition call (w : world) (b : brand) (provider : option string) : world * state :=
  let provider := default "instagram" provider in
  match brand_field b (credsKey provider) with
  | None => (w, Returned None)
  | Some credsRaw =>
      let creds := credsRaw in
      let appId := appId_of creds in
      let appSecret := appSecret_of creds in
      if negb (Js.truthy appId) || negb (Js.truthy appSecret) then
        (w, Returned (Some creds))
      else
        let key := lockKey b provider in
        match refreshLocks w !! key with
        | Some p => (w, AwaitLock creds p)
        | None =>
            let p := promises w in
            (World (<[key := p]> (refreshLocks w)) (resolved w) (S p)
                   (tokens w) (exchanges w),
             AwaitToken key p creds appId appSecret)
        end
  end.

(** One resumption of a suspended call: the code from the pending [await]
    to the next one, or to the end of the function through [finally]. *)
Definition resume (tk : tick) (w : world) (st : state) : world * state :=
  match st with
  | AwaitLock creds p =>
      if decide (p ∈ resolved w) then (w, AwaitTokenAfter creds) else (w, st)
  | AwaitTokenAfter creds =>
      let globalTokenAfter := Store.getGlobalInstagramFacebookToken (storage tk) (tokens w) in
      (w, Returned (Some (stamp creds globalTokenAfter)))
  | AwaitToken key p creds appId appSecret =>
      match Store.getGlobalInstagramFacebookToken (storage tk) (tokens w) with
      | Some globalToken =>
          if Js.truthy_str (Some globalToken) then
            (World (refreshLocks w) (resolved w) (promises w) (tokens w)
                   (exchanges w ++ [ExchangeCall appId appSecret globalToken]),
             AwaitExchange key p creds)
          else (release key p w, Returned (Some creds))
      | None => (release key p w, Returned (Some creds))
      end
  | AwaitExchange key p creds =>
      match http tk with
      | Response data =>
          match access_token data with
          | Some token =>
              if Js.truthy_str (Some token) then
                (w, AwaitPersist key p creds token (expires_in data))
              else (release key p w, Returned (Some creds))
          | None => (release key p w, Returned (Some creds))
          end
      | NetworkError _ => (w, AwaitTokenCatch key p creds)
      end
  | AwaitPersist key p creds token expires =>
      match Store.setGlobalInstagramFacebookToken (storage tk) token (tokens w) with
      | (_, Some _) => (w, AwaitTokenCatch key p creds)
      | (table, None) =>
          let w := World (refreshLocks w) (resolved w) (promises w) table (exchanges w) in
          let creds := Js.set creds "access_token" (Js.VStr token) in
          match expires with
          | Some seconds =>
              if Js.truthy_num expires then
                match Date.toISOString (now tk + seconds * 1000) with
                | Some iso =>
                    (release key p w,
                     Returned (Some (Js.set creds "expires_at" (Js.VStr iso))))
                | None => (w, AwaitTokenCatch key p creds)
                end
              else (release key p w, Returned (Some creds))
          | None => (release key p w, Returned (Some creds))
          end
      end
  | AwaitTokenCatch key p creds =>
      let curToken := Store.getGlobalInstagramFacebookToken (storage tk) (tokens w) in
      (release key p w, Returned (Some (stamp creds curToken)))
  | Returned _ => (w, st)
  end.

(** A call resumed once for each tick, in order. *)
Fixpoint run (tks : list tick) (w : world) (st : state) : world * state :=
  match tks with
  | [] => (w, st)
  | tk :: tks => let '(w, st) := resume tk w st in run tks w st
  end.

(** [refreshBrandToken(brand, provider)] with no other task interleaved. *)
Definition refreshBrandToken (tks : list tick) (w : world) (b : brand)
    (provider : option string) : world * state :=
  let '(w, st) := call w b provider in run tks w st.

(** *** Several calls in flight *)

(** The process: the shared state and every call made so far, in the order
    of the calls. *)
Record system := System { shared : world; tasks : list state }.

(** What happens next: some code calls [refreshBrandToken], or the event
    loop resumes a suspended call. *)
Inductive label :=
| Call (b : brand) (provider : option string)
| Resume (i : nat) (tk : tick).

Definition step (s : system) (l : label) : system :=
  match l with
  | Call b provider =>
      let '(w, st) := call (shared s) b provider in System w (tasks s ++ [st])
  | Resume i tk =>
      match tasks s !! i with
      | Some st =>
          let '(w, st') := resume tk (shared s) st in System w (<[i := st']> (tasks s))
      | None => s
      end
  end.

Definition exec (ls : list label) (s : system) : system := foldl step s ls.

Definition is_call (l : label) : bool :=
  match l with Call _ _ => true | Resume _ _ => false end.

Definition returned (st : state) : bool :=
  match st with Returned _ => true | _ => false end.

(** The marker a suspended call holds: the lock key it registered and the
    promise it stored under it. *)
Definition holder (st : state) : option (string * nat) :=
  match st with
  | AwaitToken k p _ _ _ | AwaitExchange k p _ | AwaitPersist k p _ _ _
  | AwaitTokenCatch k p _ => Some (k, p)
  | AwaitLock _ _ | AwaitTokenAfter _ | Returned _ => None
  end.

(** The number of [await]s a call has before it at most. *)
Definition remaining (st : state) : nat :=
  match st with
  | AwaitToken _ _ _ _ _ => 4
  | AwaitExchange _ _ _ => 3
  | AwaitPersist _ _ _ _ _ => 2
  | AwaitTokenCatch _ _ _ => 1
  | AwaitLock _ _ => 2
  | AwaitTokenAfter _ => 1
  | Returned _ => 0
  end%nat.

(** *** Vocabulary of the statements *)

Definition appId_aliases : list string :=
  ["app_id"; "appId"; "client_id"; "clientId"].

Definition appSecret_aliases : list string :=
  ["app_secret"; "appSecret"; "client_secret"; "clientSecret"].

(** None of the aliases names a usable (truthy) value. *)
Definition unresolved (creds : Js.obj) (aliases : list string) : Prop :=
  ∀ k, k ∈ aliases → Js.truthy (Js.get creds k) = false.

(** Both the app id and the app secret are resolved. *)
Definition complete (creds : Js.obj) : Prop :=
  Js.truthy (appId_of creds) = true ∧ Js.truthy (appSecret_of creds) = true.

(** The provider a call works with. *)
Definition provider_of (provider : option string) : string :=
  default "instagram" provider.

(** The credentials a call reads from the brand. *)
Definition stored (b : brand) (provider : option string) : option Js.obj :=
  brand_field b (credsKey (provider_of provider)).

(** The call is the refresh in flight for [key]. *)
Definition holds (key : string) (st : state) : Prop :=
  ∃ p, holder st = Some (key, p).

(** No refresh is in flight, and the promises resolved so far are promises
    that were created. *)
Definition quiet (w : world) : Prop :=
  refreshLocks w = ∅ ∧ ∀ p, p ∈ resolved w → (p < promises w)%nat.

(** The lock map and the calls in flight agree: an entry of the map belongs
    to a call that holds it, a call that holds a marker has its entry in the
    map, and no two calls hold the marker of one key. *)
Definition marked (s : system) : Prop :=
  (∀ key p, refreshLocks (shared s) !! key = Some p →
     ∃ i st, tasks s !! i = Some st ∧ holder st = Some (key, p))
  ∧ (∀ i st key p, tasks s !! i = Some st → holder st = Some (key, p) →
       refreshLocks (shared s) !! key = Some p)
  ∧ (∀ i j st st' key p p',
       tasks s !! i = Some st → tasks s !! j = Some st' →
       holder st = Some (key, p) → holder st' = Some (key, p') → i = j).

(** Every call of the schedule is [refreshBrandToken(b, provider)]. *)
Definition calls_only (b : brand) (provider : option string) (l : label) : Prop :=
  match l with
  | Call b' provider' => b' = b ∧ provider' = provider
  | Resume _ _ => True
  end.

(** The tick of every resumption satisfies [P]. *)
Definition answers (P : tick → Prop) (l : label) : Prop :=
  match l with
  | Call _ _ => True
  | Resume _ tk => P tk
  end.

(** Storage works, and the token endpoint gives token [T] when it answers. *)
Definition agreeing (T : string) (tk : tick) : Prop :=
  storage tk = Succeeds
  ∧ match http tk with
    | Response data => access_token data = Some T
    | NetworkError _ => True
    end.

(** Storage works, and the token endpoint answers with token [T]. *)
Definition answering (T : string) (tk : tick) : Prop :=
  storage tk = Succeeds ∧ ∃ data, http tk = Response data ∧ access_token data = Some T.

(** The global token as a working read returns it. *)
Definition current_token (w : world) : option string :=
  Store.getGlobalInstagramFacebookToken Succeeds (tokens w).

(** The [access_token] of credentials stamped with the current global token. *)
Definition expected (creds : Js.obj) (w : world) : Js.value :=
  Js.get (stamp creds (current_token w)) "access_token".

(** The [await]s all calls together have before them at most. *)
Definition pending (s : system) : nat := sum_list (remaining <$> tasks s).

(** Some call has returned. *)
Definition has_returned (s : system) : Prop :=
  ∃ i result, tasks s !! i = Some (Returned result).

(** The call has requested the token exchange. *)
Definition asked (st : state) : bool :=
  match st with
  | AwaitToken _ _ _ _ _ | AwaitLock _ _ | AwaitTokenAfter _ => false
  | _ => true
  end.

(** A call that waits for the promise [p0], or has waited for it. *)
Definition follower (creds : Js.obj) (p0 : nat) (st : state) : Prop :=
  st = AwaitLock creds p0 ∨ st = AwaitTokenAfter creds ∨ ∃ r, st = Returned (Some r).

(** Calls for one key made while the first of them is in flight: the first
    call holds the marker with the promise [promises w0]; while it is
    suspended all others wait for that promise; the token endpoint was called
    at most once since [w0]. *)
Definition coordinated (key : string) (creds : Js.obj) (w0 : world) (s : system) : Prop :=
  (length (exchanges (shared s)) ≤ S (length (exchanges w0)))%nat
  ∧ match tasks s with
    | [] => shared s = w0
    | leader :: ws =>
        (holder leader = Some (key, promises w0)
         ∧ refreshLocks (shared s) !! key = Some (promises w0)
         ∧ (promises w0 ∉ resolved (shared s))
         ∧ Forall (λ st, st = AwaitLock creds (promises w0)) ws
         ∧ (asked leader = false →
            length (exchanges (shared s)) = length (exchanges w0)))
        ∨ ((∃ r, leader = Returned (Some r))
           ∧ promises w0 ∈ resolved (shared s)
           ∧ Forall (follower creds (promises w0)) ws)
    end.

(** What a call knows of the credentials and of the store at its [await]. *)
Definition agrees (creds : Js.obj) (w : world) (st : state) : Prop :=
  match st with
  | AwaitLock c _ | AwaitTokenAfter c | AwaitToken _ _ c _ _ => c = creds
  | AwaitExchange _ _ c => c = creds ∧ Js.truthy_str (current_token w) = true
  | AwaitPersist _ _ c token _ => c = creds ∧ token ≠ ""
  | AwaitTokenCatch _ _ _ => Js.truthy_str (current_token w) = true
  | Returned (Some r) => Js.get r "access_token" = expected creds w
  | Returned None => True
  end.

(** The store has at most its one row, and every call [agrees]. *)
Definition agreed (creds : Js.obj) (s : system) : Prop :=
  Store.singleton (tokens (shared s)) ∧ Forall (agrees creds (shared s)) (tasks s).

(** Where the token [T] of the endpoint is while the first call runs. *)
Definition fed (T : string) (w0 : world) (s : system) : Prop :=
  match tasks s with
  | [] => True
  | leader :: _ =>
      match leader with
      | AwaitToken _ _ _ _ _ => current_token (shared s) = current_token w0
      | AwaitPersist _ _ _ token _ => token = T
      | AwaitTokenCatch _ _ _ | Returned _ => current_token (shared s) = Some T
      | _ => True
      end
  end.

(** The call has not returned [null]. *)
Definition not_null (st : state) : Prop := st ≠ Returned None.

(** The shared state after a call that took the marker in [w] and released
    it again, leaving [table] in the store and [calls] in the log of the
    token endpoint. *)
Definition after_refresh (w : world) (table : Store.table) (calls : list exchange_call)
  : world :=
  World (refreshLocks w) ({[promises w]} ∪ resolved w) (S (promises w)) table calls.

End Refresh.


(** ** Delivery and the dispatch loop *)

Module Delivery.

Import Refresh.

(** The columns of [Post] that delivery and dispatch decide on.  The text
    columns (title, body, caption, ...) are only copied into the form. *)
Record post := Post {
  post_id : Z;
  post_brandId : Z;
  status : string;
  scheduleAt : option Z;      (* milliseconds since the epoch, or NULL *)
  lastError : option string;
}.

(** One multipart POST to the publishing webhook: the post it carries, the
    two credential blobs and the [instagramFacebook_token] field. *)
Record hook_call := HookCall {
  hook_post : Z;
  hook_instagram : Js.obj;
  hook_facebook : Js.obj;
  hook_token : option string;
}.

Record app := App {
  posts : list post;
  brands : list brand;
  world : Refresh.world;
  webhook_calls : list hook_call;
}.

(** How [sendPostToN8N] ends: it returns, it throws, or it is still
    suspended when the environment has no more ticks for it. *)
Inductive outcome :=
| Done
| Threw (message : string)
| Pending.

(** The outcomes of the operations one delivery awaits. *)
Record delivery_env := DeliveryEnv {
  post_read : io;                (* line 686: prisma.post.findUnique *)
  brand_read : io;               (* line 694: prisma.brand.findUnique *)
  instagram_ticks : list tick;   (* resumptions of the instagram refresh *)
  facebook_ticks : list tick;    (* resumptions of the facebook refresh *)
  token_read : io;               (* line 739 *)
  webhook : io;                  (* line 746: axios.post *)
  update_sent : io;              (* line 752 *)
  update_failed : io;            (* line 756 *)
}.

(** [prisma.post.findUnique({ where: { id } })] *)
Definition find_post (id : Z) (ps : list post) : option post :=
  List.find (λ p, post_id p =? id) ps.

(** [prisma.brand.findUnique({ where: { id } })] *)
Definition find_brand (id : Z) (bs : list brand) : option brand :=
  List.find (λ b, brand_id b =? id) bs.

(** [prisma.post.update({ where: { id }, data })] *)
Definition update_post (id : Z) (data : post → post) (ps : list post) : list post :=
  map (λ p, if post_id p =? id then data p else p) ps.

Definition mark_sent (p : post) : post :=
  Post (post_id p) (post_brandId p) "sent" (scheduleAt p) (lastError p).

Definition mark_failed (message : string) (p : post) : post :=
  Post (post_id p) (post_brandId p) "failed" (scheduleAt p) (Some message).

(** Lines 721-737, for one provider:
    [if (brand.xCredentials) { const r = await refreshBrandToken(brand, x);
    if (r) xCredentials = r; }].  [None] when the refresh is still
    suspended after the last tick. *)
Definition refresh_into (tks : list tick) (w : Refresh.world) (b : brand)
    (provider : string) (configured : option Js.obj) (current : Js.obj)
  : Refresh.world * option Js.obj :=
  match configured with
  | None => (w, Some current)
  | Some _ =>
      match refreshBrandToken tks w b (Some provider) with
      | (w, Returned (Some refreshed)) => (w, Some refreshed)
      | (w, Returned None) => (w, Some current)
      | (w, _) => (w, None)
      end
  end.

(** The [catch] of lines 754-758: record the failure, rethrow. *)
Definition fail_post (e : delivery_env) (a : app) (w : Refresh.world)
    (calls : list hook_call) (postId : Z) (message : string) : app * outcome :=
  match update_failed e with
  | Succeeds =>
      (App (update_post postId (mark_failed message) (posts a)) (brands a) w calls,
       Threw message)
  | Fails message' => (App (posts a) (brands a) w calls, Threw message')
  end.

(** What an awaited [findUnique] gives: the rejection of the read, or the
    row found, if any. *)
Definition findUnique {A} (o : io) (found : option A) : string + option A :=
  match o with
  | Succeeds => inr found
  | Fails message => inl message
  end.

(** [sendPostToN8N(postId)].  The two reads of lines 686 and 694 are
    outside every [try]: when one is rejected the call throws at once, before
    the webhook and with the post as it was. *)
Definition sendPostToN8N (e : delivery_env) (a : app) (postId : Z) : app * outcome :=
  match findUnique (post_read e) (find_post postId (posts a)) with
  | inl message => (a, Threw message)
  | inr None => (a, Threw "Post not found")
  | inr (Some post) =>
      if negb (String.eqb (status post) "approved")
         && negb (String.eqb (status post) "scheduled")
      then (a, Done)
      else
        match findUnique (brand_read e) (find_brand (post_brandId post) (brands a)) with
        | inl message => (a, Threw message)
        | inr None => (a, Threw "Cannot read properties of null (reading 'id')")
        | inr (Some brand) =>
            let igCredentials := default ∅ (instagramCredentials brand) in
            let fbCredentials := default ∅ (facebookCredentials brand) in
            match refresh_into (instagram_ticks e) (world a) brand "instagram"
                    (instagramCredentials brand) igCredentials with
            | (w, None) => (App (posts a) (brands a) w (webhook_calls a), Pending)
            | (w, Some igCredentials) =>
                match refresh_into (facebook_ticks e) w brand "facebook"
                        (facebookCredentials brand) fbCredentials with
                | (w, None) => (App (posts a) (brands a) w (webhook_calls a), Pending)
                | (w, Some fbCredentials) =>
                    let globalTokenAfterRefresh :=
                      Store.getGlobalInstagramFacebookToken (token_read e) (tokens w) in
                    let token :=
                      if Js.truthy_str globalTokenAfterRefresh
                      then globalTokenAfterRefresh else None in
                    let calls :=
                      webhook_calls a ++ [HookCall postId igCredentials fbCredentials token] in
                    match webhook e with
                    | Succeeds =>
                        match update_sent e with
                        | Succeeds =>
                            (App (update_post postId mark_sent (posts a)) (brands a) w calls,
                             Done)
                        | Fails message => fail_post e a w calls postId message
                        end
                    | Fails message => fail_post e a w calls postId message
                    end
                end
            end
        end
  end.

(** The dispatch query:
    [findMany({ where: { status: 'scheduled', scheduleAt: { lte: new Date() } } })]. *)
Definition due (now : Z) (p : post) : bool :=
  String.eqb (status p) "scheduled"
  && match scheduleAt p with
     | Some t => t <=? now
     | None => false
     end.

Definition findMany_due (now : Z) (ps : list post) : list post :=
  List.filter (due now) ps.

(** The [for] loop of a tick: the selected posts are delivered one after the
    other, an exception of one delivery is logged and the loop goes on.  The
    log pairs each post id with how its delivery ended. *)
Fixpoint deliver_all (envs : Z → delivery_env) (a : app) (ps : list post)
  : app * list (Z * outcome) :=
  match ps with
  | [] => (a, [])
  | p :: ps =>
      match sendPostToN8N (envs (post_id p)) a (post_id p) with
      | (a, Pending) => (a, [(post_id p, Pending)])
      | (a, o) => let '(a, log) := deliver_all envs a ps in (a, (post_id p, o) :: log)
      end
  end.

(** One tick of the [setInterval] callback at time [now]. *)
Definition dispatch_tick (query : io) (envs : Z → delivery_env) (now : Z) (a : app)
  : app * list (Z * outcome) :=
  match query with
  | Succeeds => deliver_all envs a (findMany_due now (posts a))
  | Fails _ => (a, [])
  end.

End Delivery.

(** ** Strings of the request body

    A [string] is read as the sequence of its code units, each below 256.
    Of the white space that [String.prototype.trim] strips, the code units
    in that range are 9 to 13, 32 and 160. *)

Module Text.

Definition is_space (c : Ascii.ascii) : bool :=
  let n := Ascii.nat_of_ascii c in
  ((9 <=? n)%nat && (n <=? 13)%nat) || (n =? 32)%nat || (n =? 160)%nat.

Definition comma : Ascii.ascii := Ascii.ascii_of_nat 44.

Fixpoint trimStart (s : string) : string :=
  match s with
  | EmptyString => EmptyString
  | String c s' => if is_space c then trimStart s' else s
  end.

Fixpoint trimEnd (s : string) : string :=
  match s with
  | EmptyString => EmptyString
  | String c s' =>
      match trimEnd s' with
      | EmptyString => if is_space c then EmptyString else String c EmptyString
      | t => String c t
      end
  end.

(** [s.trim()] *)
Definition trim (s : string) : string := trimEnd (trimStart s).

(** [s.split(sep)] for a separator of one code unit: the pieces between the
    separators, empty pieces included; never the empty list. *)
Fixpoint split (sep : Ascii.ascii) (s : string) : list string :=
  match s with
  | EmptyString => [EmptyString]
  | String c s' =>
      if Ascii.eqb c sep then EmptyString :: split sep s'
      else match split sep s' with
           | t :: ts => String c t :: ts
           | [] => [String c EmptyString]
           end
  end.

(** [ts.join(sep)] *)
Fixpoint join (sep : Ascii.ascii) (ts : list string) : string :=
  match ts with
  | [] => EmptyString
  | [t] => t
  | t :: ts => t +:+ String sep (join sep ts)
  end.

(** Lines 188-191: [parseLangs], on a body field that is absent
    ([None]) or a string. *)
Definition parseLangs (value : option string) : list string :=
  match value with
  | None => []
  | Some s =>
      if String.eqb s "" then []
      else List.filter (λ t, negb (String.eqb t "")) (map trim (split comma s))
  end.

(** The code unit occurs in the string. *)
Fixpoint occurs (c : Ascii.ascii) (s : string) : bool :=
  match s with
  | EmptyString => false
  | String d s' => Ascii.eqb d c || occurs c s'
  end.

(** First and last code unit, when there is one. *)
Definition first (s : string) : option Ascii.ascii :=
  match s with
  | EmptyString => None
  | String c _ => Some c
  end.

Fixpoint last (s : string) : option Ascii.ascii :=
  match s with
  | EmptyString => None
  | String c EmptyString => Some c
  | String _ s' => last s'
  end.

End Text.

(** ** The routes that create, approve and delete

    A handler is run from its first statement to its reply without another
    task in between; the outcome of each operation it awaits is an argument.
    Of a request the model keeps what decides the columns of [post] and
    [brand] above; the flash message of a reply is left out. *)

Module Routes.

Import Refresh Delivery.

Inductive reply :=
| Redirect (location : string)
| Json_success (postId : Z)
| Json_failure.

(** A numeric route parameter as [parseInt] or [Number] gives it; [None] is
    [NaN]. *)
Definition show (n : option Z) : string :=
  match n with
  | Some z => pretty z
  | None => "NaN"
  end.

Definition with_posts (ps : list post) (a : app) : app :=
  App ps (brands a) (world a) (webhook_calls a).

Definition with_tokens (t : Store.table) (w : Refresh.world) : Refresh.world :=
  World (refreshLocks w) (resolved w) (promises w) t (exchanges w).

(** [new Date(s)] of a body field that is absent or a string.  [date_of]
    stands for the parser of date strings, whose answer is a time value or
    [None] for an invalid date.  The result is [null] ([None]), an invalid
    date ([Some None]) or a date. *)
Definition date_field (date_of : string → option Z) (s : option string)
  : option (option Z) :=
  match s with
  | Some text => if Js.truthy_str s then Some (date_of text) else None
  | None => None
  end.

(** [prisma.post.create({ data })].  The row takes [id], the next value of
    the sequence of [Post.id].  The insert is rejected when the operation
    fails, when the key is taken ([Post_pkey]) and when [brandId] names no
    brand ([Post_brandId_fkey]). *)
Definition create_post (o : io) (row : post) (a : app) : option app :=
  match o with
  | Fails _ => None
  | Succeeds =>
      if existsb (λ p, post_id p =? post_id row) (posts a) then None
      else
        match find_brand (post_brandId row) (brands a) with
        | None => None
        | Some _ => Some (with_posts (posts a ++ [row]) a)
        end
  end.

(** Lines 427-463: [POST /brands/:id/posts/new].  A date object is truthy
    even when invalid, so the status is [scheduled] as soon as the field is
    not empty; the client rejects a row with [NaN] or an invalid date. *)
Definition posts_new (date_of : string → option Z) (create : io) (id : Z)
    (referrer : option string) (brandId : option Z) (schedule_at : option string)
    (a : app) : app * reply :=
  let scheduleAtDate := date_field date_of schedule_at in
  let status := match scheduleAtDate with Some _ => "scheduled" | None => "draft" end in
  let failure := Redirect (if Js.truthy_str referrer then default "" referrer else "/") in
  match brandId, scheduleAtDate with
  | None, _ | _, Some None => (a, failure)
  | Some b, _ =>
      match create_post create (Post id b status (mjoin scheduleAtDate) None) a with
      | Some a => (a, Redirect ("/brands/" +:+ pretty b))
      | None => (a, failure)
      end
  end.

(** Lines 555-636: [POST /brands/:id/posts/generate], up to its reply.
    [multipart] tells whether [req.files] is defined; reading it throws
    when it is not.  The task started at line 591 writes the text columns,
    [imagePath] and [isGenerating] only, none of which is a column of
    [post]. *)
Definition posts_generate (date_of : string → option Z) (create : io) (id : Z)
    (now : Z) (multipart : bool) (brandId : option Z)
    (schedule_at tiktok_schedule_at : option string) (a : app) : app * reply :=
  if multipart then
    let scheduleAt :=
      if Js.truthy_str schedule_at then date_field date_of schedule_at
      else date_field date_of tiktok_schedule_at in
    let status :=
      match scheduleAt with
      | Some (Some t) => if now <? t then "scheduled" else "draft"
      | _ => "draft"
      end in
    match brandId, scheduleAt with
    | None, _ | _, Some None => (a, Json_failure)
    | Some b, _ =>
        match create_post create (Post id b status (mjoin scheduleAt) None) a with
        | Some a => (a, Json_success id)
        | None => (a, Json_failure)
        end
    end
  else (a, Json_failure).

(** Line 647: the status an approval gives. *)
Definition approve_status (now : Z) (p : post) : string :=
  match scheduleAt p with
  | Some t => if now <? t then "scheduled" else "approved"
  | None => "approved"
  end.

Definition set_status (s : string) (p : post) : post :=
  Post (post_id p) (post_brandId p) s (scheduleAt p) (lastError p).

(** Lines 638-675: [POST /posts/:id/approve].  The reply is sent before the
    delivery is started; the third component tells how that delivery ended,
    [None] when none was started. *)
Definition approve (lookup update : io) (e : delivery_env) (now : Z)
    (postId : option Z) (a : app) : app * reply * option outcome :=
  match lookup, postId with
  | Succeeds, Some postId =>
      match find_post postId (posts a) with
      | None => (a, Redirect "/", None)
      | Some post =>
          let newStatus := approve_status now post in
          match update with
          | Fails _ => (a, Redirect "/", None)
          | Succeeds =>
              let a := with_posts (update_post postId (set_status newStatus) (posts a)) a in
              let reply := Redirect ("/brands/" +:+ pretty (post_brandId post)) in
              if String.eqb newStatus "approved" then
                let '(a, o) := sendPostToN8N e a postId in (a, reply, Some o)
              else (a, reply, None)
          end
      end
  | _, _ => (a, Redirect "/", None)
  end.

(** [prisma.brand.delete({ where: { id } })]: rejected when the operation
    fails, when there is no such brand, and when a post still refers to it
    ([Post_brandId_fkey], [ON DELETE RESTRICT]). *)
Definition delete_brand_row (o : io) (id : Z) (a : app) : option app :=
  match o with
  | Fails _ => None
  | Succeeds =>
      match find_brand id (brands a) with
      | None => None
      | Some _ =>
          if existsb (λ p, post_brandId p =? id) (posts a) then None
          else Some (App (posts a) (List.filter (λ b, negb (brand_id b =? id)) (brands a))
                         (world a) (webhook_calls a))
      end
  end.

(** Lines 332-367: [POST /brands/:id/delete].  [documents] is the outcome of
    the part on the brand's documents (lines 336-349), which touches no
    column of the model; then the posts of the brand go, then the brand. *)
Definition brands_delete (documents delete_posts delete_brand : io)
    (brandId : option Z) (a : app) : app * reply :=
  let failure := Redirect ("/brands/" +:+ show brandId) in
  match brandId, documents, delete_posts with
  | Some id, Succeeds, Succeeds =>
      let a := with_posts (List.filter (λ p, negb (post_brandId p =? id)) (posts a)) a in
      match delete_brand_row delete_brand id a with
      | Some a => (a, Redirect "/")
      | None => (a, failure)
      end
  | _, _, _ => (a, failure)
  end.

(** A credentials field of the brand form after [parseJsonSafe]. *)
Inductive credentials_field :=
| Absent                  (* no text, white space only, or the text [null] *)
| Malformed               (* [JSON.parse] throws *)
| Parsed (o : Js.obj).    (* a JSON object with scalar fields *)

Record brand_form := BrandForm {
  instagram_credentials : credentials_field;
  facebook_credentials : credentials_field;
  instagramFacebook_global_token : option string;
  wordpress_credentials : bool;   (* [false]: [JSON.parse] throws at line 237 *)
  linkedin_credentials : bool;    (* [false]: [JSON.parse] throws at line 240 *)
}.

(** The outcomes of the operations the handler awaits. *)
Record brand_env := BrandEnv {
  instagram_write : io;   (* line 198 *)
  facebook_write : io;    (* line 212 *)
  field_write : io;       (* line 223 *)
  brand_create : io;      (* line 253 *)
}.

(** Lines 196-204 and 210-218: an [access_token] that is truthy is written
    to the global store and removed from the credentials.  A failed write is
    logged and forgotten; the client rejects a token that is not a string,
    which is a failed write as well. *)
Definition take_token (o : io) (creds : Js.obj) (t : Store.table) : Js.obj * Store.table :=
  if Js.truthy (Js.get creds "access_token") then
    (delete "access_token" creds,
     match Js.get creds "access_token" with
     | Js.VStr token => (Store.setGlobalInstagramFacebookToken o token t).1
     | _ => t
     end)
  else (creds, t).

(** Lines 221-228: the separate token field. *)
Definition take_field (o : io) (field : option string) (t : Store.table) : Store.table :=
  match field with
  | Some text =>
      if Js.truthy_str field && negb (String.eqb (Text.trim text) "")
      then (Store.setGlobalInstagramFacebookToken o (Text.trim text) t).1
      else t
  | None => t
  end.

(** What [parseJsonSafe] and the token step leave of a credentials field:
    [None] when parsing threw; otherwise the value for the column and the
    token table. *)
Definition credentials_step (o : io) (field : credentials_field) (t : Store.table)
  : option (option Js.obj * Store.table) :=
  match field with
  | Absent => Some (None, t)
  | Malformed => None
  | Parsed creds => let '(creds, t) := take_token o creds t in Some (Some creds, t)
  end.

(** Lines 174-262: [POST /brands/new].  [id] is the next value of the
    sequence of [Brand.id]; the insert is rejected when the operation fails
    or the key is taken. *)
Definition brands_new (e : brand_env) (id : Z) (f : brand_form) (a : app) : app * reply :=
  let failure := Redirect "/brands/new" in
  let keep t := App (posts a) (brands a) (with_tokens t (world a)) (webhook_calls a) in
  let t := tokens (world a) in
  match credentials_step (instagram_write e) (instagram_credentials f) t with
  | None => (a, failure)
  | Some (instagramCreds, t) =>
      match credentials_step (facebook_write e) (facebook_credentials f) t with
      | None => (keep t, failure)
      | Some (facebookCreds, t) =>
          let t := take_field (field_write e) (instagramFacebook_global_token f) t in
          if wordpress_credentials f && linkedin_credentials f then
            match brand_create e with
            | Succeeds =>
                if existsb (λ b, brand_id b =? id) (brands a) then (keep t, failure)
                else (App (posts a) (brands a ++ [Brand id instagramCreds facebookCreds])
                          (with_tokens t (world a)) (webhook_calls a),
                      Redirect "/")
            | Fails _ => (keep t, failure)
            end
          else (keep t, failure)
      end
  end.

End Routes.


(** ** The scenario of the specification

    Brand B has Instagram credentials
    [{client_id: "1", client_secret: "s", access_token: "old"}], the store
    holds ["global-old"], no refresh is in flight. *)

Module Scenario.

Import Refresh.

Definition creds : Js.obj :=
  <["client_id" := Js.VStr "1"]>
    (<["client_secret" := Js.VStr "s"]> (<["access_token" := Js.VStr "old"]> ∅)).

Definition B : brand := Brand 7 (Some creds) None.

Definition w : world := World ∅ ∅ 0 (Store.Table [Store.Row 1 "global-old"] 2) [].

(** The clock reads 2023-11-14T22:13:20Z, storage works, and the token
    endpoint answers with [data]. *)
Definition answer (data : exchange_data) : tick :=
  Tick 1700000000000 Succeeds (Response data).

(** Storage works and the token endpoint answers without a token. *)
Definition tokenless : tick := answer (ExchangeData None None).

(** Storage works and the token endpoint is unreachable. *)
Definition unreachable : tick :=
  Tick 1700000000000 Succeeds (NetworkError "timeout of 10000ms exceeded").

(** Posts of brand B around the instant [now = 2000]: scheduled in the
    past, scheduled for this very instant, scheduled for later, a draft and
    an approved post. *)
Definition past : Delivery.post := Delivery.Post 1 7 "scheduled" (Some 1000) None.
Definition present : Delivery.post := Delivery.Post 2 7 "scheduled" (Some 2000) None.
Definition future : Delivery.post := Delivery.Post 3 7 "scheduled" (Some 2001) None.
Definition draft : Delivery.post := Delivery.Post 4 7 "draft" (Some 1000) None.
Definition approved : Delivery.post := Delivery.Post 5 7 "approved" None None.

Definition panel : Delivery.app :=
  Delivery.App [past; present; future; draft; approved] [B] w [].

(** Every awaited operation of a delivery succeeds, the webhook included. *)
Definition smooth : Delivery.delivery_env :=
  Delivery.DeliveryEnv Succeeds Succeeds
    (replicate 4 (answer (ExchangeData (Some "global-new") (Some 3600))))
    (replicate 4 (answer (ExchangeData (Some "global-new") (Some 3600))))
    Succeeds Succeeds Succeeds Succeeds.


(** Three calls for brand B made at the same instant, then resumed in an
    interleaved order; the token endpoint answers
    [{access_token: "global-new", expires_in: 3600}]. *)
Definition three_calls : list label :=
  [Call B None; Call B None; Call B None].

Definition interleaved : list label :=
  map (λ i, Resume i (answer (ExchangeData (Some "global-new") (Some 3600))))
      [1; 0; 2; 0; 0; 2; 1; 1; 2]%nat.

(** Two calls at the same instant, each resumed until it returns; the token
    endpoint answers the one exchange without a token. *)
Definition two_calls_tokenless : list label :=
  [Call B None; Call B None;
   Resume 0 tokenless; Resume 0 tokenless; Resume 1 tokenless; Resume 1 tokenless].

End Scenario.


(** ** Further notions for the statements *)

Module Notions.

Import Refresh Delivery.

(** [r] has the fields of [c], except possibly [access_token] and
    [expires_at]. *)
Definition same_fields (c r : Js.obj) : Prop :=
  ∀ k, k ≠ "access_token" → k ≠ "expires_at" → r !! k = c !! k.

(** The credentials a call works on, or has returned, have the fields of
    [c] outside [access_token] and [expires_at]. *)
Definition carries (c : Js.obj) (st : state) : Prop :=
  match st with
  | AwaitLock creds _ | AwaitTokenAfter creds | AwaitToken _ _ creds _ _
  | AwaitExchange _ _ creds | AwaitPersist _ _ creds _ _
  | AwaitTokenCatch _ _ creds | Returned (Some creds) => same_fields c creds
  | Returned None => True
  end.

(** The characters of a string. *)
Fixpoint chars (s : string) : list Ascii.ascii :=
  match s with
  | EmptyString => []
  | String c s => c :: chars s
  end.

(** The number of calls of the process that are past the point where the
    token exchange is requested. *)
Definition askers (ts : list state) : nat :=
  sum_list ((λ st, if asked st then 1%nat else 0%nat) <$> ts).

(** The character of the string ["_"]. *)
Definition underscore : Ascii.ascii := Ascii.ascii_of_nat 95.

(** The string has no underscore. *)
Definition plain (s : string) : Prop := underscore ∉ chars s.

(** Every post belongs to a brand that exists (the foreign key of
    [Post.brandId]). *)
Definition posts_have_brands (a : app) : Prop :=
  ∀ p, p ∈ posts a → is_Some (find_brand (post_brandId p) (brands a)).

(** The environment lets a delivery run to its end and the store records
    its outcome: the reads of the post and of the brand succeed, each
    refresh gets the resumptions it needs, and the status update that
    follows the webhook is accepted. *)
Definition settles (e : delivery_env) : Prop :=
  post_read e = Succeeds
  ∧ brand_read e = Succeeds
  ∧ (4 ≤ length (instagram_ticks e))%nat
  ∧ (4 ≤ length (facebook_ticks e))%nat
  ∧ ((webhook e = Succeeds ∧ update_sent e = Succeeds) ∨ update_failed e = Succeeds).

(** The constraints of the schema on the posts: the primary key of [Post]
    and its foreign key to [Brand]. *)
Definition well_formed (a : app) : Prop :=
  NoDup (map post_id (posts a)) ∧ posts_have_brands a.

(** The string token a parsed credentials field carries, if any. *)
Definition embedded_token (field : Routes.credentials_field) : option string :=
  match field with
  | Routes.Parsed o =>
      match Js.get o "access_token" with
      | Js.VStr s => if String.eqb s "" then None else Some s
      | _ => None
      end
  | _ => None
  end.

(** The token the separate field of the brand form carries, if any. *)
Definition field_token (field : option string) : option string :=
  match field with
  | Some text => if String.eqb (Text.trim text) "" then None else Some (Text.trim text)
  | None => None
  end.

End Notions.


(** ** Further cases *)

Module Cases.

Import Refresh Delivery.

(** No refresh in flight and no row in the token table. *)
Definition w_empty : Refresh.world := World ∅ ∅ 0 Store.fresh [].

(** Storage is down (the token endpoint would answer). *)
Definition storage_down : tick :=
  Tick 1700000000000 (Fails "Can't reach database server")
       (Response (ExchangeData (Some "global-new") (Some 3600))).

(** The endpoint grants a token that expires after the last valid date. *)
Definition far_future : exchange_data :=
  ExchangeData (Some "global-new") (Some 8640000000000).

(** A token table whose row with id 1 was removed by hand: the only row
    has id 2. *)
Definition orphaned : Store.table := Store.Table [Store.Row 2 "stale"] 3.

(** The webhook accepts the post, the store rejects the update to [sent]
    and accepts the one to [failed]. *)
Definition sent_not_recorded : delivery_env :=
  DeliveryEnv Succeeds Succeeds
              (replicate 4 Scenario.unreachable) (replicate 4 Scenario.unreachable)
              Succeeds Succeeds (Fails "Connection pool timeout") Succeeds.

(** Brand B's refresh is in flight (its marker is promise 0), and the state
    after that refresh has returned with the token ["global-new"]. *)
Definition held : Refresh.world := (call Scenario.w Scenario.B None).1.

Definition released : Refresh.world :=
  (refreshBrandToken
     (replicate 3 (Scenario.answer (ExchangeData (Some "global-new") (Some 3600))))
     Scenario.w Scenario.B None).1.

(** Everything would succeed, but the read of the post is rejected; and
    the same with the read of the brand. *)
Definition post_unreadable : delivery_env :=
  DeliveryEnv (Fails "Can't reach database server") Succeeds
              (replicate 4 Scenario.unreachable) (replicate 4 Scenario.unreachable)
              Succeeds Succeeds Succeeds Succeeds.

Definition brand_unreadable : delivery_env :=
  DeliveryEnv Succeeds (Fails "Can't reach database server")
              (replicate 4 Scenario.unreachable) (replicate 4 Scenario.unreachable)
              Succeeds Succeeds Succeeds Succeeds.

(** A post of brand B that was delivered and carries a schedule after the
    instant [now = 2000], and a post delivered without a schedule. *)
Definition delivered_later : post := Post 6 7 "sent" (Some 5000) None.
Definition delivered : post := Post 8 7 "sent" None None.

Definition archive : app :=
  App [Scenario.past; delivered_later; delivered] [Scenario.B] Scenario.w [].

(** The brand form with Instagram credentials that embed a token, and
    the same form with Facebook credentials that do not parse. *)
Definition form_with_token : Routes.brand_form :=
  Routes.BrandForm (Routes.Parsed Scenario.creds) Routes.Absent None true true.

Definition form_with_broken_facebook : Routes.brand_form :=
  Routes.BrandForm (Routes.Parsed Scenario.creds) Routes.Malformed None true true.

(** Every operation the brand form awaits succeeds. *)
Definition all_written : Routes.brand_env :=
  Routes.BrandEnv Succeeds Succeeds Succeeds Succeeds.

End Cases.


(** * Properties *)

Import Refresh Delivery Notions.

(** ** The token store *)

Lemma upsert_singleton token t :
  Store.singleton t → ∃ n, Store.upsert 1 token t = Store.Table [Store.Row 1 token] n.
Proof.
  intros [-> | (token0 & n & ->)]; [exists 2 | exists n]; reflexivity.
Qed.

Lemma singleton_upsert token t :
  Store.singleton t → Store.singleton (Store.upsert 1 token t).
Proof.
  intros H. destruct (upsert_singleton token t H) as [n ->].
  right. by exists token, n.
Qed.

Lemma set_all_snoc calls c t :
  Store.set_all (calls ++ [c]) t
  = (Store.setGlobalInstagramFacebookToken c.1 c.2 (Store.set_all calls t)).1.
Proof. unfold Store.set_all. by rewrite foldl_snoc. Qed.

Lemma last_written_snoc calls c :
  Store.last_written (calls ++ [c])
  = match c.1 with
    | Succeeds => Some c.2
    | Fails _ => Store.last_written calls
    end.
Proof. unfold Store.last_written. by rewrite foldl_snoc. Qed.

(** After any sequence of calls on the fresh table: no row while no write
    went through, and then the row with id 1 holding the last token. *)
Lemma set_all_fresh calls :
  match Store.last_written calls with
  | None => Store.set_all calls Store.fresh = Store.fresh
  | Some token => ∃ n, Store.set_all calls Store.fresh = Store.Table [Store.Row 1 token] n
  end.
Proof.
  induction calls as [| [o token] calls IH] using rev_ind; [done |].
  rewrite last_written_snoc, set_all_snoc. simpl.
  destruct o as [| message]; simpl; [| exact IH].
  apply upsert_singleton.
  destruct (Store.last_written calls) as [token0 |].
  - destruct IH as [n ->]. right. by exists token0, n.
  - rewrite IH. by left.
Qed.

(** C2. On the table as the migration creates it, the first write of
    [setGlobalInstagramFacebookToken] that goes through creates the row with
    id 1, a write on that row replaces its token in place, and after every
    sequence of calls the table has no row (no write went through yet) or
    exactly the one row with id 1, holding the last token written. *)
Theorem global_token_store_single_row :
  (∀ token,
     Store.setGlobalInstagramFacebookToken Succeeds token Store.fresh
     = (Store.Table [Store.Row 1 token] 2, None))
  ∧ (∀ token token' n,
       Store.setGlobalInstagramFacebookToken Succeeds token'
         (Store.Table [Store.Row 1 token] n)
       = (Store.Table [Store.Row 1 token'] n, None))
  ∧ (∀ calls,
       Store.rows (Store.set_all calls Store.fresh)
       = match Store.last_written calls with
         | None => []
         | Some token => [Store.Row 1 token]
         end).
Proof.
  split; [done |]. split; [done |].
  intros calls. pose proof (set_all_fresh calls) as H.
  destruct (Store.last_written calls); [destruct H as [n ->] | rewrite H]; done.
Qed.

(** ** One call of [refreshBrandToken] *)

Lemma truthy_or a b : Js.truthy (Js.or a b) = Js.truthy a || Js.truthy b.
Proof. unfold Js.or. by destruct (Js.truthy a) eqn:E; rewrite ?E. Qed.

Lemma unresolved_appId creds :
  unresolved creds appId_aliases ↔ Js.truthy (appId_of creds) = false.
Proof.
  unfold unresolved, appId_aliases, appId_of. rewrite !truthy_or, !orb_false_iff.
  split.
  - intros H. repeat split; apply H; set_solver.
  - intros (? & ? & ? & ?) k Hk.
    repeat (apply elem_of_cons in Hk as [-> | Hk]; [done |]). by apply elem_of_nil in Hk.
Qed.

Lemma unresolved_appSecret creds :
  unresolved creds appSecret_aliases ↔ Js.truthy (appSecret_of creds) = false.
Proof.
  unfold unresolved, appSecret_aliases, appSecret_of. rewrite !truthy_or, !orb_false_iff.
  split.
  - intros H. repeat split; apply H; set_solver.
  - intros (? & ? & ? & ?) k Hk.
    repeat (apply elem_of_cons in Hk as [-> | Hk]; [done |]). by apply elem_of_nil in Hk.
Qed.

Lemma call_null w b provider :
  stored b provider = None → call w b provider = (w, Returned None).
Proof. unfold stored, provider_of, call. by intros ->. Qed.

Lemma call_incomplete w b provider creds :
  stored b provider = Some creds →
  unresolved creds appId_aliases ∨ unresolved creds appSecret_aliases →
  call w b provider = (w, Returned (Some creds)).
Proof.
  unfold stored, provider_of, call. intros -> H.
  rewrite unresolved_appId, unresolved_appSecret in H.
  by destruct H as [-> | ->]; rewrite ?orb_true_r.
Qed.

Lemma call_wait w b provider creds p :
  stored b provider = Some creds →
  complete creds →
  refreshLocks w !! lockKey b (provider_of provider) = Some p →
  call w b provider = (w, AwaitLock creds p).
Proof.
  unfold stored, provider_of, call. intros -> [-> ->] Hlock. simpl.
  by rewrite Hlock.
Qed.

Lemma call_own w b provider creds :
  stored b provider = Some creds →
  complete creds →
  refreshLocks w !! lockKey b (provider_of provider) = None →
  call w b provider
  = (World (<[lockKey b (provider_of provider) := promises w]> (refreshLocks w))
           (resolved w) (S (promises w)) (tokens w) (exchanges w),
     AwaitToken (lockKey b (provider_of provider)) (promises w) creds
                (appId_of creds) (appSecret_of creds)).
Proof.
  unfold stored, provider_of, call. intros -> [-> ->] Hlock. simpl.
  by rewrite Hlock.
Qed.

Lemma resume_not_null tk w st : not_null st → not_null (resume tk w st).2.
Proof.
  unfold not_null. intros H.
  destruct st; simpl; try done; repeat case_match; simpl; congruence.
Qed.

Lemma run_not_null tks w st : not_null st → not_null (run tks w st).2.
Proof.
  revert w st. induction tks as [| tk tks IH]; intros w st H; [done |].
  simpl. pose proof (resume_not_null tk w st H) as H'.
  destruct (resume tk w st) as [w' st']. by apply IH.
Qed.

Lemma run_returned tks w result : run tks w (Returned result) = (w, Returned result).
Proof. induction tks; [done | by simpl]. Qed.

(** C6. [refreshBrandToken] returns [null] exactly when the brand stores no
    credentials under the key of the provider: it does so at once in that
    case, and a call that returns for a brand with credentials returns an
    object.  When the credentials exist but none of the app id aliases, or
    none of the app secret aliases, has a usable value, the call returns the
    credentials unchanged and leaves the whole shared state as it was: no
    call to the token endpoint, no write to the token store. *)
Theorem refresh_null_iff_no_credentials tks w b provider :
  (stored b provider = None →
     refreshBrandToken tks w b provider = (w, Returned None))
  ∧ (∀ w' result,
       refreshBrandToken tks w b provider = (w', Returned result) →
       result = None → stored b provider = None)
  ∧ (∀ creds,
       stored b provider = Some creds →
       unresolved creds appId_aliases ∨ unresolved creds appSecret_aliases →
       refreshBrandToken tks w b provider = (w, Returned (Some creds))).
Proof.
  unfold refreshBrandToken. repeat split.
  - intros H. rewrite (call_null _ _ _ H). apply run_returned.
  - intros w' result Hrun ->.
    destruct (stored b provider) as [creds |] eqn:Hs; [exfalso | done].
    assert (not_null (call w b provider).2) as Hnn.
    { unfold stored, provider_of in Hs. unfold call. rewrite Hs.
      unfold not_null. repeat case_match; simpl; congruence. }
    destruct (call w b provider) as [w1 st1].
    apply (run_not_null tks w1 st1) in Hnn. rewrite Hrun in Hnn. by apply Hnn.
  - intros creds Hs Hu. rewrite (call_incomplete _ _ _ _ Hs Hu). apply run_returned.
Qed.

Lemma lockKey_inj b p1 p2 : lockKey b p1 = lockKey b p2 → p1 = p2.
Proof.
  unfold lockKey. intros H.
  apply (String.app_inj (pretty (brand_id b))) in H.
  by apply (String.app_inj "_") in H.
Qed.

Lemma stored_not_facebook b provider :
  provider_of provider ≠ "facebook" → stored b provider = instagramCredentials b.
Proof.
  unfold stored, credsKey. intros H.
  apply String.eqb_neq in H. by rewrite H.
Qed.

(** C10. Every provider other than ['facebook'], the default ['instagram']
    of an omitted argument included, makes [refreshBrandToken] work on
    [brand.instagramCredentials]; the lock key is built from the provider
    string as given, so different providers give different keys; and two
    calls with different non-facebook providers, made one right after the
    other, both take the marker (neither waits for the other), each with the
    same Instagram credentials under its own key. *)
Theorem refresh_non_facebook_uses_instagram b :
  (∀ provider, provider_of provider ≠ "facebook" →
     stored b provider = instagramCredentials b)
  ∧ stored b None = instagramCredentials b
  ∧ (∀ provider, lockKey b provider = pretty (brand_id b) +:+ "_" +:+ provider)
  ∧ (∀ p1 p2, p1 ≠ p2 → lockKey b p1 ≠ lockKey b p2)
  ∧ (∀ w creds p1 p2,
       p1 ≠ "facebook" → p2 ≠ "facebook" → p1 ≠ p2 →
       instagramCredentials b = Some creds → complete creds →
       refreshLocks w !! lockKey b p1 = None →
       refreshLocks w !! lockKey b p2 = None →
       ∃ w1 w2,
         call w b (Some p1)
         = (w1, AwaitToken (lockKey b p1) (promises w) creds
                           (appId_of creds) (appSecret_of creds))
         ∧ call w1 b (Some p2)
           = (w2, AwaitToken (lockKey b p2) (S (promises w)) creds
                             (appId_of creds) (appSecret_of creds))).
Proof.
  split; [apply stored_not_facebook |].
  split; [by apply stored_not_facebook |].
  split; [done |].
  split; [intros p1 p2 Hne Heq; by apply Hne, (lockKey_inj b) |].
  intros w creds p1 p2 H1 H2 Hne Hig Hc Hl1 Hl2.
  assert (stored b (Some p1) = Some creds) as Hs1
    by (by rewrite stored_not_facebook).
  assert (stored b (Some p2) = Some creds) as Hs2
    by (by rewrite stored_not_facebook).
  eexists _, _. split.
  - by apply call_own.
  - rewrite (call_own _ b (Some p2) creds Hs2 Hc); [done |].
    simpl. rewrite lookup_insert_ne; [done |].
    intros Heq. by apply Hne, (lockKey_inj b).
Qed.

(** A call that takes the marker in [w] and runs up to the request to the
    token endpoint. *)
Lemma refresh_until_exchange w b provider creds g t1 tks :
  stored b provider = Some creds →
  complete creds →
  refreshLocks w !! lockKey b (provider_of provider) = None →
  Store.getGlobalInstagramFacebookToken (storage t1) (tokens w) = Some g →
  g ≠ "" →
  refreshBrandToken (t1 :: tks) w b provider
  = run tks
      (World (<[lockKey b (provider_of provider) := promises w]> (refreshLocks w))
             (resolved w) (S (promises w)) (tokens w)
             (exchanges w ++ [ExchangeCall (appId_of creds) (appSecret_of creds) g]))
      (AwaitExchange (lockKey b (provider_of provider)) (promises w) creds).
Proof.
  intros Hs Hc Hl Hg Hne. unfold refreshBrandToken.
  rewrite (call_own _ _ _ _ Hs Hc Hl). simpl. rewrite Hg. simpl.
  apply String.eqb_neq in Hne. by rewrite Hne.
Qed.

Lemma release_fresh key p locks res n table calls :
  locks !! key = None →
  release key p (World (<[key := p]> locks) res n table calls)
  = World locks ({[p]} ∪ res) n table calls.
Proof. intros H. unfold release. simpl. by rewrite delete_insert_id. Qed.

(** What the assignments of a call do to the object, step by step: the
    proofs below follow the code through [stamp], [Js.set] and the lookup. *)
Ltac assigned :=
  unfold stamp, Js.get, Js.set; cbn [Js.truthy_str negb];
  rewrite ?lookup_insert_ne by done; rewrite lookup_insert_eq; reflexivity.

Ltac untouched :=
  unfold stamp, Js.get, Js.set;
  repeat match goal with
         | |- context [match ?t with Some _ => _ | None => _ end] => destruct t
         | |- context [if ?c then _ else _] => destruct c
         end;
  rewrite ?lookup_insert_ne by done; reflexivity.

(** C3. When the request to the token endpoint fails, the call does not
    throw: it reads the global token again, puts it into the copy of the
    credentials as [access_token] when the read gives a (non-empty) token,
    and returns the copy; the marker is released and the store untouched.
    So [access_token] of the returned copy is the token read again when
    there is one, the copy is the stored credentials when there is none, and
    every other field of the copy is as stored. *)
Theorem refresh_exchange_failure_falls_back
    w b provider creds g t1 t2 t3 rest message :
  stored b provider = Some creds →
  complete creds →
  refreshLocks w !! lockKey b (provider_of provider) = None →
  Store.getGlobalInstagramFacebookToken (storage t1) (tokens w) = Some g →
  g ≠ "" →
  http t2 = NetworkError message →
  let curToken := Store.getGlobalInstagramFacebookToken (storage t3) (tokens w) in
  let result := stamp creds curToken in
  refreshBrandToken (t1 :: t2 :: t3 :: rest) w b provider
  = (after_refresh w (tokens w)
       (exchanges w ++ [ExchangeCall (appId_of creds) (appSecret_of creds) g]),
     Returned (Some result))
  ∧ (∀ t, curToken = Some t → t ≠ "" → Js.get result "access_token" = Js.VStr t)
  ∧ (Js.truthy_str curToken = false → result = creds)
  ∧ (∀ k, k ≠ "access_token" → result !! k = creds !! k).
Proof.
  intros Hs Hc Hl Hg Hne Hhttp curToken result. split; [| split; [| split]].
  - rewrite (refresh_until_exchange _ _ _ _ _ _ _ Hs Hc Hl Hg Hne).
    simpl. rewrite Hhttp. simpl. rewrite release_fresh by done.
    apply run_returned.
  - intros t Ht Htne. unfold result. rewrite Ht.
    apply String.eqb_neq in Htne. unfold stamp. cbn [Js.truthy_str]. rewrite Htne.
    assigned.
  - unfold result, stamp. destruct curToken as [t |]; [by intros -> | done].
  - intros k Hk. unfold result. untouched.
Qed.

Lemma refresh_exchange_failure_falls_back_witness :
  ∃ result,
    refreshBrandToken
      [Scenario.unreachable; Scenario.unreachable; Scenario.unreachable]
      Scenario.w Scenario.B None
    = (after_refresh Scenario.w (tokens Scenario.w)
         [ExchangeCall (Js.VStr "1") (Js.VStr "s") "global-old"],
       Returned (Some result))
    ∧ Js.get Scenario.creds "access_token" = Js.VStr "old"
    ∧ Js.get result "access_token" = Js.VStr "global-old"
    ∧ result !! "client_id" = Some (Js.VStr "1").
Proof.
  destruct (refresh_exchange_failure_falls_back Scenario.w Scenario.B None Scenario.creds
              "global-old" Scenario.unreachable Scenario.unreachable Scenario.unreachable
              [] "timeout of 10000ms exceeded"
              eq_refl (conj eq_refl eq_refl) eq_refl eq_refl ltac:(discriminate) eq_refl)
    as (Hrun & Hget & _ & Hkeep).
  eexists. split; [exact Hrun |]. split; [reflexivity |].
  split; [exact (Hget "global-old" eq_refl ltac:(discriminate)) |].
  rewrite (Hkeep "client_id" ltac:(discriminate)). reflexivity.
Defined.

Lemma get_after_upsert token t :
  Store.singleton t →
  Store.getGlobalInstagramFacebookToken Succeeds (Store.upsert 1 token t) = Some token.
Proof. intros H. by destruct (upsert_singleton token t H) as [n ->]. Qed.




Lemma refresh_null_iff_no_credentials_witness :
  refreshBrandToken [] Scenario.w Scenario.B (Some "facebook")
  = (Scenario.w, Returned None)
  ∧ refreshBrandToken [] Scenario.w (Brand 7 (Some {["app_id" := Js.VStr "1"]}) None) None
    = (Scenario.w, Returned (Some {["app_id" := Js.VStr "1"]})).
Proof.
  pose proof (refresh_null_iff_no_credentials [] Scenario.w Scenario.B (Some "facebook"))
    as (Hnull & _ & _).
  pose proof (refresh_null_iff_no_credentials [] Scenario.w
                (Brand 7 (Some {["app_id" := Js.VStr "1"]}) None) None)
    as (_ & _ & Hinc).
  split.
  - apply Hnull. reflexivity.
  - apply Hinc; [reflexivity |].
    right. apply unresolved_appSecret. reflexivity.
Defined.

Lemma refresh_non_facebook_uses_instagram_witness :
  stored Scenario.B (Some "tiktok") = Some Scenario.creds
  ∧ lockKey Scenario.B "tiktok" ≠ lockKey Scenario.B "instagram"
  ∧ ∃ w1 w2,
      call Scenario.w Scenario.B (Some "instagram")
      = (w1, AwaitToken "7_instagram" 0 Scenario.creds (Js.VStr "1") (Js.VStr "s"))
      ∧ call w1 Scenario.B (Some "tiktok")
        = (w2, AwaitToken "7_tiktok" 1 Scenario.creds (Js.VStr "1") (Js.VStr "s")).
Proof.
  pose proof (refresh_non_facebook_uses_instagram Scenario.B) as (H1 & _ & _ & H4 & H5).
  split; [apply H1; discriminate |].
  split; [apply H4; discriminate |].
  apply (H5 Scenario.w Scenario.creds "instagram" "tiktok");
    [discriminate | discriminate | discriminate | reflexivity | split; reflexivity
    | reflexivity | reflexivity].
Defined.

(** ** What one resumption does to the shared state *)

(** A call that holds no marker leaves the shared state alone. *)
Lemma resume_waiter tk w st :
  holder st = None →
  (resume tk w st).1 = w ∧ holder (resume tk w st).2 = None.
Proof.
  destruct st; simpl; try done; intros _.
  by case_decide.
Qed.

(** A call that holds the marker keeps it while it is suspended, and
    releases it when it returns. *)
Lemma resume_holder tk w st key p :
  holder st = Some (key, p) →
  let w' := (resume tk w st).1 in
  let st' := (resume tk w st).2 in
  promises w' = promises w
  ∧ ((holder st' = Some (key, p)
      ∧ (remaining st' < remaining st)%nat
      ∧ refreshLocks w' = refreshLocks w
      ∧ resolved w' = resolved w)
     ∨ ((∃ result, st' = Returned (Some result))
        ∧ refreshLocks w' = delete key (refreshLocks w)
        ∧ resolved w' = {[p]} ∪ resolved w)).
Proof.
  destruct st; simpl; try done; intros [= -> ->];
    repeat case_match; simplify_eq; simpl;
    (split; [done |]);
    first [ left; repeat split; (done || lia)
          | right; split; [by eexists | done] ].
Qed.

(** A call that holds the marker returns within [remaining] resumptions,
    whatever the environment answers, and then the marker is gone. *)
Lemma run_holder_returns tks w st key p :
  holder st = Some (key, p) →
  (remaining st ≤ length tks)%nat →
  ∃ w' result,
    run tks w st = (w', Returned (Some result))
    ∧ refreshLocks w' = delete key (refreshLocks w).
Proof.
  revert w st. induction tks as [| tk tks IH]; intros w st Hh Hlen.
  - destruct st; simpl in *; (done || lia).
  - simpl. pose proof (resume_holder tk w st key p Hh) as (_ & H).
    destruct (resume tk w st) as [w1 st1]. simpl in *.
    destruct H as [(Hh1 & Hrem & Hl & _) | ((result & ->) & Hl & _)].
    + destruct (IH w1 st1 Hh1 ltac:(lia)) as (w' & result & Hrun & Hl').
      exists w', result. by rewrite Hrun, Hl', Hl.
    + exists w1, result. by rewrite run_returned.
Qed.

(** With no refresh in flight for its key, a call returns within four
    resumptions and leaves the lock map as it found it. *)
Lemma refresh_returns tks w b provider :
  refreshLocks w !! lockKey b (provider_of provider) = None →
  (4 ≤ length tks)%nat →
  ∃ w' result,
    refreshBrandToken tks w b provider = (w', Returned result)
    ∧ refreshLocks w' = refreshLocks w.
Proof.
  intros Hl Hlen. unfold refreshBrandToken.
  destruct (stored b provider) as [creds |] eqn:Hs.
  - destruct (Js.truthy (appId_of creds)) eqn:Hid.
    + destruct (Js.truthy (appSecret_of creds)) eqn:Hsec.
      * rewrite (call_own _ _ _ _ Hs (conj Hid Hsec) Hl).
        edestruct (run_holder_returns tks) as (w' & result & -> & Hl'); [done .. |].
        exists w', (Some result). split; [done |].
        rewrite Hl'. simpl. by apply delete_insert_id.
      * rewrite (call_incomplete _ _ _ _ Hs); [| right; by apply unresolved_appSecret].
        rewrite run_returned. by eexists _, _.
    + rewrite (call_incomplete _ _ _ _ Hs); [| left; by apply unresolved_appId].
      rewrite run_returned. by eexists _, _.
  - rewrite (call_null _ _ _ Hs), run_returned. by eexists _, _.
Qed.

(** ** Delivery *)

Lemma find_update_post id data ps p :
  (∀ q, post_id (data q) = post_id q) →
  find_post id ps = Some p →
  find_post id (update_post id data ps) = Some (data p).
Proof.
  intros Hid. unfold find_post, update_post.
  induction ps as [| q ps IH]; [done |]. simpl.
  destruct (post_id q =? id) eqn:E.
  - intros [= ->]. simpl. by rewrite Hid, E.
  - intros H. simpl. rewrite E. by apply IH.
Qed.

Lemma refresh_into_returns tks w b provider configured current :
  refreshLocks w !! lockKey b provider = None →
  (4 ≤ length tks)%nat →
  ∃ w' creds,
    refresh_into tks w b provider configured current = (w', Some creds)
    ∧ refreshLocks w' = refreshLocks w.
Proof.
  intros Hl Hlen. unfold refresh_into.
  destruct configured; [| by eexists _, _].
  destruct (refresh_returns tks w b (Some provider) Hl Hlen) as (w' & result & -> & Hl').
  destruct result; by eexists _, _.
Qed.

(** C8. For an existing post whose status is neither [approved] nor
    [scheduled], [sendPostToN8N] leaves the whole state of the application
    as before: no call to the webhook, no refresh (no token exchange, no
    store write, no lock), no post changed.  It returns normally; the one
    other way it can end is the error of its own read of the post, when the
    store rejects that read. *)
Theorem send_other_status_is_noop e a postId post :
  find_post postId (posts a) = Some post →
  status post ≠ "approved" →
  status post ≠ "scheduled" →
  sendPostToN8N e a postId
  = (a, match post_read e with
        | Succeeds => Done
        | Fails message => Threw message
        end).
Proof.
  intros Hfind Ha Hs. unfold sendPostToN8N. rewrite Hfind.
  destruct (post_read e); [| done].
  cbn [findUnique]. apply String.eqb_neq in Ha, Hs. by rewrite Ha, Hs.
Qed.

(** A delivery whose reads succeed, for a post that is to be sent on a
    brand that exists, with no refresh in flight and the refreshes given
    their resumptions, gets as far as the webhook: the state it leaves, by
    the outcomes of the webhook and of the status updates. *)
Lemma send_reaches_webhook e a postId post brand :
  post_read e = Succeeds →
  brand_read e = Succeeds →
  find_post postId (posts a) = Some post →
  status post = "approved" ∨ status post = "scheduled" →
  find_brand (post_brandId post) (brands a) = Some brand →
  refreshLocks (world a) = ∅ →
  (4 ≤ length (instagram_ticks e))%nat →
  (4 ≤ length (facebook_ticks e))%nat →
  ∃ w call,
    hook_post call = postId
    ∧ refreshLocks w = ∅
    ∧ sendPostToN8N e a postId
      = match webhook e with
        | Succeeds =>
            match update_sent e with
            | Succeeds =>
                (App (update_post postId mark_sent (posts a)) (brands a) w
                     (webhook_calls a ++ [call]), Done)
            | Fails message =>
                fail_post e a w (webhook_calls a ++ [call]) postId message
            end
        | Fails message => fail_post e a w (webhook_calls a ++ [call]) postId message
        end.
Proof.
  intros Hpost Hbr Hfind Hstatus Hbrand Hlocks Hig Hfb.
  unfold sendPostToN8N. rewrite Hpost, Hbr, Hfind. cbn [findUnique].
  assert (negb (String.eqb (status post) "approved")
          && negb (String.eqb (status post) "scheduled") = false) as ->.
  { by destruct Hstatus as [-> | ->]. }
  rewrite Hbrand.
  edestruct (refresh_into_returns (instagram_ticks e) (world a) brand "instagram")
    as (w1 & ig & -> & Hl1); [by rewrite Hlocks | done |].
  edestruct (refresh_into_returns (facebook_ticks e) w1 brand "facebook")
    as (w2 & fb & -> & Hl2); [by rewrite Hl1, Hlocks | done |].
  eexists w2, (HookCall postId _ _ _). split; [reflexivity |].
  split; [by rewrite Hl2, Hl1 | reflexivity].
Qed.


Lemma send_other_status_is_noop_witness :
  sendPostToN8N Scenario.smooth Scenario.panel 4 = (Scenario.panel, Done).
Proof.
  apply (send_other_status_is_noop Scenario.smooth Scenario.panel 4 Scenario.draft);
    [reflexivity | discriminate | discriminate].
Defined.



(** ** The dispatch loop *)

Lemma due_spec now p :
  due now p = true ↔ status p = "scheduled" ∧ ∃ t, scheduleAt p = Some t ∧ t ≤ now.
Proof.
  unfold due. rewrite andb_true_iff, String.eqb_eq.
  destruct (scheduleAt p) as [t |].
  - rewrite Z.leb_le. split.
    + intros [Hs Hle]. split; [done |]. by exists t.
    + intros (Hs & t' & [= <-] & Hle). done.
  - split.
    + intros [_ Hf]. done.
    + intros (_ & t & Ht & _). done.
Qed.




(** ** Calls in flight together *)

Lemma lookup_snoc_cases {A} (l : list A) (x y : A) i :
  (l ++ [x]) !! i = Some y → l !! i = Some y ∨ (i = length l ∧ y = x).
Proof.
  intros H. destruct (decide (i < length l)%nat) as [Hlt | Hge].
  - left. by rewrite lookup_app_l in H.
  - right. rewrite lookup_app_r in H by lia.
    destruct (i - length l)%nat as [| n] eqn:E; simpl in H; [| done].
    split; [lia | congruence].
Qed.

Lemma lookup_insert_cases {A} (l : list A) (x y : A) i j :
  <[i := x]> l !! j = Some y →
  (j = i ∧ y = x) ∨ (j ≠ i ∧ l !! j = Some y).
Proof.
  intros H. destruct (decide (j = i)) as [-> | Hne].
  - left. split; [done |].
    assert (i < length l)%nat as Hlt.
    { apply lookup_lt_Some in H. by rewrite length_insert in H. }
    rewrite list_lookup_insert_eq in H by done. congruence.
  - right. by rewrite list_lookup_insert_ne in H.
Qed.

(** What the synchronous part of a call does to the lock map. *)
Lemma call_cases w b provider :
  let key := lockKey b (provider_of provider) in
  let w' := (call w b provider).1 in
  let st := (call w b provider).2 in
  (w' = w ∧ holder st = None
   ∧ (is_Some (refreshLocks w !! key) ∨ ∃ result, st = Returned result))
  ∨ (holder st = Some (key, promises w)
     ∧ refreshLocks w !! key = None
     ∧ refreshLocks w' = <[key := promises w]> (refreshLocks w)
     ∧ resolved w' = resolved w
     ∧ promises w' = S (promises w)).
Proof.
  unfold call, provider_of. simpl.
  destruct (brand_field _ _) as [creds |]; [| left; eauto].
  destruct (negb _ || negb _); [left; eauto |].
  destruct (refreshLocks w !! _) as [p |] eqn:Hl; [left; eauto |].
  right. done.
Qed.

Lemma marked_start w : refreshLocks w = ∅ → marked (System w []).
Proof.
  intros H. repeat split; simpl.
  - intros key p. by rewrite H, lookup_empty.
  - intros i st key p Hi. by rewrite lookup_nil in Hi.
  - intros i j st st' key p p' Hi. by rewrite lookup_nil in Hi.
Qed.

Lemma marked_call s b provider : marked s → marked (step s (Call b provider)).
Proof.
  intros (L1 & L2 & U). simpl.
  pose proof (call_cases (shared s) b provider) as H.
  destruct (call (shared s) b provider) as [w st]. simpl in H.
  destruct H as [(-> & Hh & _) | (Hh & Hfree & Hl & _ & _)]; repeat split; simpl.
  - intros key p Hkey. destruct (L1 key p Hkey) as (i & st0 & Hi & Hst0).
    exists i, st0. split; [| done]. rewrite lookup_app_l; [done |].
    by eapply lookup_lt_Some.
  - intros i st0 key p Hi Hst0.
    apply lookup_snoc_cases in Hi as [Hi | [_ ->]]; [by eapply L2 | congruence].
  - intros i j st0 st1 key p p' Hi Hj Hst0 Hst1.
    apply lookup_snoc_cases in Hi as [Hi | [_ ->]]; [| congruence].
    apply lookup_snoc_cases in Hj as [Hj | [_ ->]]; [by eapply U | congruence].
  - intros key p. rewrite Hl. intros Hkey.
    destruct (decide (lockKey b (provider_of provider) = key)) as [<- | Hne].
    + rewrite lookup_insert_eq in Hkey. injection Hkey as <-.
      exists (length (tasks s)), st. split; [| done].
      by rewrite lookup_app_r, Nat.sub_diag.
    + rewrite lookup_insert_ne in Hkey by done.
      destruct (L1 key p Hkey) as (i & st0 & Hi & Hst0).
      exists i, st0. split; [| done]. rewrite lookup_app_l; [done |].
      by eapply lookup_lt_Some.
  - intros i st0 key p Hi Hst0. rewrite Hl.
    apply lookup_snoc_cases in Hi as [Hi | [_ ->]].
    + pose proof (L2 i st0 key p Hi Hst0) as Hkey.
      rewrite lookup_insert_ne; [done |]. intros <-. congruence.
    + rewrite Hh in Hst0. injection Hst0 as <- <-. by rewrite lookup_insert_eq.
  - intros i j st0 st1 key p p' Hi Hj Hst0 Hst1.
    apply lookup_snoc_cases in Hi as [Hi | [-> ->]];
      apply lookup_snoc_cases in Hj as [Hj | [-> ->]]; [by eapply U | | | done].
    + rewrite Hh in Hst1. injection Hst1 as <- <-.
      pose proof (L2 i st0 _ p Hi Hst0). congruence.
    + rewrite Hh in Hst0. injection Hst0 as <- <-.
      pose proof (L2 j st1 _ p' Hj Hst1). congruence.
Qed.

Lemma marked_resume s i tk : marked s → marked (step s (Resume i tk)).
Proof.
  intros (L1 & L2 & U). simpl.
  destruct (tasks s !! i) as [st |] eqn:Hi; [| done].
  destruct (holder st) as [[key p] |] eqn:Hst.
  - pose proof (resume_holder tk (shared s) st key p Hst) as (_ & H).
    destruct (resume tk (shared s) st) as [w st']. simpl in H.
    destruct H as [(Hh & _ & Hl & _) | ((result & ->) & Hl & _)];
      repeat split; simpl; rewrite ?Hl.
    + intros key' p' Hkey. destruct (L1 key' p' Hkey) as (j & st0 & Hj & Hst0).
      destruct (decide (j = i)) as [-> | Hne].
      * exists i, st'. rewrite list_lookup_insert_eq by (by eapply lookup_lt_Some).
        split; [done |]. congruence.
      * exists j, st0. by rewrite list_lookup_insert_ne.
    + intros j st0 key' p' Hj Hst0.
      apply lookup_insert_cases in Hj as [[-> ->] | [Hne Hj]]; [| by eapply L2].
      rewrite Hh in Hst0. injection Hst0 as <- <-. by eapply L2.
    + intros j k st0 st1 key' p' p'' Hj Hk Hst0 Hst1.
      apply lookup_insert_cases in Hj as [[-> ->] | [Hnj Hj]];
        apply lookup_insert_cases in Hk as [[-> ->] | [Hnk Hk]]; [done | | | by eapply U].
      * rewrite Hh in Hst0. injection Hst0 as <- <-. by eapply U.
      * rewrite Hh in Hst1. injection Hst1 as <- <-. by eapply U.
    + intros key' p' Hkey.
      apply lookup_delete_Some in Hkey as [Hne Hkey].
      destruct (L1 key' p' Hkey) as (j & st0 & Hj & Hst0).
      exists j, st0. split; [| done].
      rewrite list_lookup_insert_ne; [done |]. intros <-. congruence.
    + intros j st0 key' p' Hj Hst0.
      apply lookup_insert_cases in Hj as [[-> ->] | [Hne Hj]]; [done |].
      rewrite lookup_delete_ne; [by eapply L2 |].
      intros <-. apply Hne. by eapply U.
    + intros j k st0 st1 key' p' p'' Hj Hk Hst0 Hst1.
      apply lookup_insert_cases in Hj as [[-> ->] | [Hnj Hj]]; [done |].
      apply lookup_insert_cases in Hk as [[-> ->] | [Hnk Hk]]; [done | by eapply U].
  - pose proof (resume_waiter tk (shared s) st Hst) as [Hw Hh].
    destruct (resume tk (shared s) st) as [w st']. simpl in Hw, Hh. subst w.
    repeat split; simpl.
    + intros key p Hkey. destruct (L1 key p Hkey) as (j & st0 & Hj & Hst0).
      exists j, st0. split; [| done].
      rewrite list_lookup_insert_ne; [done |]. intros <-. congruence.
    + intros j st0 key p Hj Hst0.
      apply lookup_insert_cases in Hj as [[-> ->] | [Hne Hj]]; [congruence | by eapply L2].
    + intros j k st0 st1 key p p' Hj Hk Hst0 Hst1.
      apply lookup_insert_cases in Hj as [[-> ->] | [Hnj Hj]]; [congruence |].
      apply lookup_insert_cases in Hk as [[-> ->] | [Hnk Hk]]; [congruence | by eapply U].
Qed.

Lemma marked_exec ls s : marked s → marked (exec ls s).
Proof.
  revert s. induction ls as [| l ls IH]; intros s H; [done |].
  simpl. apply IH. destruct l; [by apply marked_call | by apply marked_resume].
Qed.

(** Resuming one call several times in a row is [run] on that call. *)
Lemma exec_resume_task tks s i st :
  tasks s !! i = Some st →
  exec (map (Resume i) tks) s
  = System (run tks (shared s) st).1 (<[i := (run tks (shared s) st).2]> (tasks s)).
Proof.
  revert s st. induction tks as [| tk tks IH]; intros s st Hi.
  - simpl. rewrite list_insert_id by done. by destruct s.
  - simpl. rewrite Hi.
    destruct (resume tk (shared s) st) as [w st'] eqn:Hr.
    rewrite (IH _ st'); simpl.
    + by rewrite list_insert_insert_eq.
    + apply list_lookup_insert_eq. by eapply lookup_lt_Some.
Qed.

(** C5. In every state the process reaches from a state with no refresh in
    flight: (1) the resumption in which a call that holds the marker of a
    key returns leaves no entry for the key in the lock map; (2) such a call
    does return, and with the entry removed, within the resumptions it has
    left, whatever the environment answers (token absent, exchange answered,
    exchange or storage failing); (3) when no call in flight holds the marker
    of a key, the lock map has no entry for it, and a call made then does not
    take the wait path. *)
Theorem refresh_releases_marker w0 ls :
  refreshLocks w0 = ∅ →
  let s := exec ls (System w0 []) in
  (∀ i tk st key result,
     tasks s !! i = Some st → holds key st →
     tasks (step s (Resume i tk)) !! i = Some (Returned result) →
     refreshLocks (shared (step s (Resume i tk))) !! key = None)
  ∧ (∀ i st key tks,
       tasks s !! i = Some st → holds key st →
       (remaining st ≤ length tks)%nat →
       ∃ result,
         tasks (exec (map (Resume i) tks) s) !! i = Some (Returned (Some result))
         ∧ refreshLocks (shared (exec (map (Resume i) tks) s)) !! key = None)
  ∧ (∀ key,
       (∀ i st, tasks s !! i = Some st → ¬ holds key st) →
       refreshLocks (shared s) !! key = None)
  ∧ (∀ b provider,
       (∀ i st, tasks s !! i = Some st → ¬ holds (lockKey b (provider_of provider)) st) →
       ∀ creds p, (call (shared s) b provider).2 ≠ AwaitLock creds p).
Proof.
  intros Hidle s.
  assert (marked s) as (L1 & L2 & U) by (by apply marked_exec, marked_start).
  assert (∀ key, (∀ i st, tasks s !! i = Some st → ¬ holds key st) →
                 refreshLocks (shared s) !! key = None) as Hfree.
  { intros key Hnone. destruct (refreshLocks (shared s) !! key) as [p |] eqn:Hkey; [| done].
    destruct (L1 key p Hkey) as (i & st & Hi & Hst).
    exfalso. apply (Hnone i st Hi). by exists p. }
  repeat split.
  - intros i tk st key result Hi [p Hst]. simpl. rewrite Hi.
    pose proof (resume_holder tk (shared s) st key p Hst) as (_ & H).
    destruct (resume tk (shared s) st) as [w st']. simpl in *.
    rewrite list_lookup_insert_eq by (by eapply lookup_lt_Some).
    intros [= ->].
    destruct H as [(Hh & _) | (_ & Hl & _)]; [done |].
    rewrite Hl. apply lookup_delete_eq.
  - intros i st key tks Hi [p Hst] Hlen.
    rewrite (exec_resume_task tks s i st Hi).
    destruct (run_holder_returns tks (shared s) st key p Hst Hlen)
      as (w' & result & -> & Hl).
    exists result. simpl. split.
    + apply list_lookup_insert_eq. by eapply lookup_lt_Some.
    + rewrite Hl. apply lookup_delete_eq.
  - exact Hfree.
  - intros b provider Hnone creds p Hcall.
    pose proof (Hfree _ Hnone) as Hkey.
    pose proof (call_cases (shared s) b provider) as H.
    rewrite Hcall in H. simpl in H.
    destruct H as [(_ & _ & [[q Hq] | [result Hr]]) | (Hh & _)]; congruence.
Qed.

(** The instance: one call for brand B has taken the marker; once it has
    returned, a second call takes the marker again instead of waiting. *)
Lemma refresh_releases_marker_witness :
  refreshLocks (shared (exec (Call Scenario.B None
                                :: map (Resume 0) (replicate 4 Scenario.unreachable))
                             (System Scenario.w []))) !! "7_instagram" = None
  ∧ ∀ creds p,
      (call (shared (exec (Call Scenario.B None
                             :: map (Resume 0) (replicate 4 Scenario.unreachable))
                          (System Scenario.w []))) Scenario.B None).2
      ≠ AwaitLock creds p.
Proof.
  pose proof (refresh_releases_marker Scenario.w [Call Scenario.B None] eq_refl)
    as (_ & H2 & _).
  destruct (H2 0%nat _ "7_instagram" (replicate 4 Scenario.unreachable) eq_refl
              (ex_intro _ 0%nat eq_refl) ltac:(simpl; lia)) as (result & _ & Hfree).
  split; [exact Hfree |].
  pose proof (refresh_releases_marker Scenario.w
                (Call Scenario.B None :: map (Resume 0) (replicate 4 Scenario.unreachable))
                eq_refl) as (_ & _ & _ & H4).
  apply (H4 Scenario.B None).
  intros i st Hi [p Hp].
  destruct i as [| i]; [| by destruct i].
  vm_compute in Hi. injection Hi as <-. discriminate Hp.
Defined.

Lemma has_returned_step s l : has_returned s → has_returned (step s l).
Proof.
  intros (i & result & Hi). destruct l as [b provider | j tk]; simpl.
  - destruct (call (shared s) b provider) as [w st].
    exists i, result. simpl. rewrite lookup_app_l; [done |]. by eapply lookup_lt_Some.
  - destruct (tasks s !! j) as [st |] eqn:Hj; [| by exists i, result].
    destruct (resume tk (shared s) st) as [w st'] eqn:Hr.
    exists i, result. simpl. destruct (decide (i = j)) as [-> | Hne].
    + rewrite Hi in Hj. injection Hj as <-. simpl in Hr. injection Hr as <- <-.
      by rewrite list_insert_id.
    + by rewrite list_lookup_insert_ne.
Qed.

(** The token endpoint is called by the call that holds the marker, once,
    when it goes from its first [await] to the second. *)
Lemma resume_exchanges tk w st :
  let w' := (resume tk w st).1 in
  let st' := (resume tk w st).2 in
  match holder st' with
  | Some _ =>
      asked st' = true
      ∧ length (exchanges w')
        = if asked st then length (exchanges w) else S (length (exchanges w))
  | None => exchanges w' = exchanges w
  end.
Proof.
  destruct st; simpl; repeat case_match; simpl in *; simplify_eq;
    rewrite ?length_app; simpl; try done; (split; [done | lia]).
Qed.

Lemma coordinated_start key creds w0 : coordinated key creds w0 (System w0 []).
Proof. split; simpl; [lia | done]. Qed.

Lemma coordinated_resume key creds w0 s i tk :
  coordinated key creds w0 s → coordinated key creds w0 (step s (Resume i tk)).
Proof.
  destruct s as [w ts]. intros [Hlen H]. unfold coordinated. simpl in *.
  destruct (ts !! i) as [st |] eqn:Hi; [| by split].
  destruct ts as [| leader ws]; [by rewrite lookup_nil in Hi |].
  destruct H as [(Hh & Hl & Hnr & Hws & Hask) | ((r & ->) & Hres & Hws)].
  - destruct i as [| j]; simpl in Hi.
    + injection Hi as <-.
      pose proof (resume_holder tk w leader key _ Hh) as (_ & H).
      pose proof (resume_exchanges tk w leader) as Hex.
      destruct (resume tk w leader) as [w' st']. simpl in *.
      destruct H as [(Hh' & _ & Hl' & Hr') | ((r & ->) & _ & Hr')].
      * simpl. rewrite Hh' in Hex. destruct Hex as [Hasked Hex]. split.
        { rewrite Hex. destruct (asked leader); [done |]. rewrite Hask; done. }
        left. rewrite Hl', Hr'. repeat split; try done. congruence.
      * simpl in *. rewrite Hex. split; [done |].
        right. split; [by exists r |]. rewrite Hr'.
        split; [apply elem_of_union_l, elem_of_singleton_2; reflexivity |].
        eapply Forall_impl; [exact Hws |]. intros st ->. by left.
    + pose proof (proj1 (Forall_lookup _ _) Hws j st Hi) as ->. simpl.
      rewrite decide_False by done. simpl. split; [done |].
      left. rewrite list_insert_id by done. done.
  - destruct i as [| j]; simpl in Hi.
    + injection Hi as <-. simpl. split; [done |]. right. split; [by exists r | done].
    + pose proof (proj1 (Forall_lookup _ _) Hws j st Hi) as Hst.
      assert (holder st = None) as Hnone.
      { destruct Hst as [-> | [-> | [r' ->]]]; done. }
      pose proof (resume_waiter tk w st Hnone) as [Hw _].
      assert (follower creds (promises w0) (resume tk w st).2) as Hst'.
      { destruct Hst as [-> | [-> | [r' ->]]]; simpl.
        - rewrite decide_True by done. right. by left.
        - right. right. by eexists.
        - right. right. by eexists. }
      destruct (resume tk w st) as [w' st']. simpl in *. subst w'.
      split; [done |]. right. split; [by exists r |]. split; [done |].
      by apply Forall_insert.
Qed.

Lemma coordinated_call b provider creds w0 s :
  stored b provider = Some creds →
  complete creds →
  quiet w0 →
  coordinated (lockKey b (provider_of provider)) creds w0 s →
  ¬ has_returned s →
  coordinated (lockKey b (provider_of provider)) creds w0 (step s (Call b provider)).
Proof.
  destruct s as [w ts]. intros Hs Hc [Hq0 Hq1] [Hlen H] Hnr. unfold coordinated. simpl in *.
  destruct ts as [| leader ws].
  - subst w. rewrite (call_own _ _ _ _ Hs Hc) by (by rewrite Hq0).
    split; [simpl; lia |]. simpl. left.
    rewrite lookup_insert_eq. repeat split; try done.
    intros Hin. apply Hq1 in Hin. lia.
  - destruct H as [(Hh & Hl & Hres & Hws & Hask) | ((r & ->) & _)].
    + rewrite (call_wait _ _ _ _ _ Hs Hc Hl). split; [done |].
      left. repeat split; try done. apply Forall_app. split; [done |].
      by apply Forall_singleton.
    + exfalso. apply Hnr. by exists 0%nat, (Some r).
Qed.

Lemma has_returned_dec s : has_returned s ∨ ¬ has_returned s.
Proof.
  destruct (decide (Exists (λ st, returned st = true) (tasks s))) as [H | H].
  - left. apply Exists_exists in H as (st & Hin & Hst).
    apply list_elem_of_lookup in Hin as [i Hi].
    destruct st; try done. by exists i, result.
  - right. intros (i & result & Hi). apply H, Exists_exists.
    exists (Returned result). split; [| done]. apply list_elem_of_lookup. by exists i.
Qed.

Lemma not_has_returned s :
  Forall (λ st, returned st = false) (tasks s) → ¬ has_returned s.
Proof.
  intros H (i & result & Hi).
  by pose proof (proj1 (Forall_lookup _ _) H i _ Hi).
Qed.

(** Calls made while the first is in flight, then resumptions only. *)
Lemma two_phase b provider w0 (X : system → Prop) (ok : label → Prop) pre post :
  X (System w0 []) →
  (∀ s i tk, X s → ok (Resume i tk) → X (step s (Resume i tk))) →
  (∀ s, X s → ¬ has_returned s → X (step s (Call b provider))) →
  Forall (calls_only b provider) pre →
  Forall ok (pre ++ post) →
  Forall (λ l, is_call l = false) post →
  ¬ has_returned (exec pre (System w0 [])) →
  X (exec post (exec pre (System w0 []))).
Proof.
  intros Hstart Hresume Hcall Hpre Hok Hpost Hnr.
  apply Forall_app in Hok as [Hok1 Hok2].
  assert (∀ s, has_returned s ∨ X s → has_returned (exec pre s) ∨ X (exec pre s)) as H1.
  { clear Hnr. induction pre as [| l pre IH]; intros s Hs; [done |].
    apply Forall_cons in Hpre as [Hl Hpre]. apply Forall_cons in Hok1 as [Hokl Hok1].
    simpl. apply IH; [done .. |].
    destruct Hs as [Hs | Hs]; [left; by apply has_returned_step |].
    destruct l as [b' provider' | i tk].
    - destruct Hl as [-> ->].
      destruct (has_returned_dec s) as [Hr | Hr]; [left; by apply has_returned_step |].
      right. by apply Hcall.
    - right. by apply Hresume. }
  destruct (H1 (System w0 []) (or_intror Hstart)) as [Hr | Hx]; [done |].
  clear H1 Hnr Hpre Hok1. revert Hx. generalize (exec pre (System w0 [])).
  induction post as [| l post IH]; intros s Hx; [done |].
  apply Forall_cons in Hpost as [Hl Hpost]. apply Forall_cons in Hok2 as [Hokl Hok2].
  simpl. apply IH; [done .. |].
  destruct l as [b' provider' | i tk]; [done | by apply Hresume].
Qed.

Lemma get_stamp c t :
  t ≠ "" → Js.get (stamp c (Some t)) "access_token" = Js.VStr t.
Proof.
  intros H. apply String.eqb_neq in H. unfold stamp, Js.get, Js.set. simpl.
  rewrite H. simpl. by rewrite lookup_insert_eq.
Qed.

Lemma stamp_falsy c t : Js.truthy_str t = false → stamp c t = c.
Proof. unfold stamp. destruct t; [by intros -> | done]. Qed.

Lemma truthy_str_Some t : Js.truthy_str (Some t) = true ↔ t ≠ "".
Proof. simpl. rewrite negb_true_iff. apply String.eqb_neq. Qed.

Lemma expected_release creds key p w :
  expected creds (release key p w) = expected creds w.
Proof. reflexivity. Qed.

Lemma expected_falsy creds w :
  Js.truthy_str (current_token w) = false → expected creds w = Js.get creds "access_token".
Proof. intros H. unfold expected. by rewrite stamp_falsy. Qed.

(** One resumption with working storage and an endpoint that gives [T]
    keeps what the call knows in line with the store. *)
Lemma resume_agrees T creds tk w st :
  T ≠ "" →
  agreeing T tk →
  Store.singleton (tokens w) →
  agrees creds w st →
  agrees creds (resume tk w st).1 (resume tk w st).2
  ∧ Store.singleton (tokens (resume tk w st).1).
Proof.
  intros HT [Hst Hhttp] Hsing Hag.
  destruct st as [c p | c | k p c a s | k p c | k p c token ex | k p c | r];
    cbn [resume agrees] in *.
  - case_decide; done.
  - subst c. rewrite Hst. done.
  - subst c. rewrite Hst. fold (current_token w).
    destruct (current_token w) as [g |] eqn:Hg.
    + destruct (Js.truthy_str (Some g)) eqn:Htr; cbn [fst snd agrees tokens].
      * split; [| done]. split; [done |]. by rewrite <- Hg in Htr.
      * split; [| done]. rewrite expected_release, expected_falsy; [done |].
        by rewrite Hg.
    + cbn [fst snd agrees]. split; [| done].
      rewrite expected_release, expected_falsy; [done |]. by rewrite Hg.
  - destruct Hag as [-> Htr].
    destruct (http tk) as [data | message]; [| done].
    rewrite Hhttp. apply truthy_str_Some in HT as HT'. rewrite HT'. done.
  - destruct Hag as [-> Htok]. rewrite Hst.
    cbn [Store.setGlobalInstagramFacebookToken].
    pose proof (get_after_upsert token _ Hsing) as Hcur.
    pose proof (singleton_upsert token _ Hsing) as Hsing'.
    assert (∀ c', Js.get c' "access_token" = Js.VStr token →
                  ∀ w', current_token w' = Some token →
                        Js.get c' "access_token" = expected creds w') as Hexp'.
    { intros c' Hc' w' Hw'. unfold expected. by rewrite Hw', get_stamp. }
    assert (Js.get (Js.set creds "access_token" (Js.VStr token)) "access_token"
            = Js.VStr token) as Hget.
    { unfold Js.get, Js.set. by rewrite lookup_insert_eq. }
    destruct ex as [seconds |]; [| split; [by apply Hexp' | done]].
    destruct (Js.truthy_num (Some seconds)); [| split; [by apply Hexp' | done]].
    destruct (Date.toISOString _) as [iso |]; cbn [fst snd agrees].
    + split; [| done]. apply Hexp'; [| done].
      unfold Js.get, Js.set in *. rewrite lookup_insert_ne by done. exact Hget.
    + split; [| done]. unfold current_token. cbn [tokens].
      rewrite Hcur. by apply truthy_str_Some.
  - rewrite Hst. fold (current_token w). split; [| done].
    cbn [fst snd agrees]. rewrite expected_release. unfold expected.
    destruct (current_token w) as [t |]; [| done].
    apply truthy_str_Some in Hag. by rewrite !get_stamp.
  - done.
Qed.

Lemma agreed_start creds w0 : Store.singleton (tokens w0) → agreed creds (System w0 []).
Proof. intros H. by split. Qed.

Lemma agreed_resume T key creds w0 s i tk :
  T ≠ "" →
  agreeing T tk →
  coordinated key creds w0 s →
  agreed creds s →
  agreed creds (step s (Resume i tk)).
Proof.
  destruct s as [w ts]. intros HT Htk [_ Hco] [Hsing Hall].
  unfold agreed. simpl in *.
  destruct (ts !! i) as [st |] eqn:Hi; [| done].
  pose proof (resume_agrees T creds tk w st HT Htk Hsing
                (proj1 (Forall_lookup _ _) Hall i st Hi)) as [Hag' Hsing'].
  destruct (holder st) as [[k p] |] eqn:Hh.
  - destruct ts as [| leader ws]; [by rewrite lookup_nil in Hi |].
    destruct (resume tk w st) as [w' st']. simpl in *.
    destruct Hco as [(_ & _ & _ & Hws & _) | ((r & ->) & _ & Hws)].
    + destruct i as [| j]; simpl in Hi.
      * injection Hi as <-. split; [done |]. simpl.
        apply Forall_cons. split; [done |].
        eapply Forall_impl; [exact Hws |]. by intros st0 ->.
      * by pose proof (proj1 (Forall_lookup _ _) Hws j st Hi) as ->.
    + destruct i as [| j]; simpl in Hi; [by injection Hi as <- |].
      by pose proof (proj1 (Forall_lookup _ _) Hws j st Hi) as [-> | [-> | [r' ->]]].
  - pose proof (resume_waiter tk w st Hh) as [Hw _].
    destruct (resume tk w st) as [w' st']. simpl in *. subst w'.
    split; [done |]. by apply Forall_insert.
Qed.

Lemma call_tokens w b provider :
  tokens (call w b provider).1 = tokens w
  ∧ exchanges (call w b provider).1 = exchanges w.
Proof. unfold call. repeat case_match; done. Qed.

Lemma agrees_tokens creds w w' st :
  tokens w' = tokens w → agrees creds w st → agrees creds w' st.
Proof.
  intros H. unfold agrees, expected, current_token. by rewrite H.
Qed.

Lemma agreed_call b provider creds s :
  stored b provider = Some creds →
  complete creds →
  agreed creds s →
  agreed creds (step s (Call b provider)).
Proof.
  destruct s as [w ts]. intros Hs Hc [Hsing Hall]. unfold agreed. simpl in *.
  pose proof (call_tokens w b provider) as [Htok _].
  assert (agrees creds w (call w b provider).2) as Hnew.
  { destruct (refreshLocks w !! lockKey b (provider_of provider)) as [p |] eqn:Hl.
    - by rewrite (call_wait _ _ _ _ _ Hs Hc Hl).
    - by rewrite (call_own _ _ _ _ Hs Hc Hl). }
  destruct (call w b provider) as [w' st]. simpl in *.
  rewrite Htok. split; [done |].
  apply Forall_app. split.
  - eapply Forall_impl; [exact Hall |]. intros st0. by apply agrees_tokens.
  - apply Forall_singleton. by apply (agrees_tokens _ w).
Qed.

Lemma fed_resume T key creds w0 s i tk :
  T ≠ "" →
  answering T tk →
  Js.truthy_str (current_token w0) = true →
  coordinated key creds w0 s →
  agreed creds s →
  fed T w0 s →
  fed T w0 (step s (Resume i tk)).
Proof.
  destruct s as [w ts]. intros HT [Hst (data & Hhttp & Hdata)] Hg [_ Hco] [Hsing _] Hfed.
  unfold fed in *. simpl in *.
  destruct (ts !! i) as [st |] eqn:Hi; [| done].
  destruct ts as [| leader ws]; [by rewrite lookup_nil in Hi |].
  destruct i as [| j]; simpl in Hi.
  - injection Hi as <-.
    destruct Hco as [(Hh & _) | ((r & ->) & _)]; [| done].
    destruct leader as [c p | c | k p c a s | k p c | k p c token ex | k p c | r];
      try done; cbn [resume].
    + rewrite Hst. fold (current_token w). rewrite Hfed.
      destruct (current_token w0) as [g |]; [| done]. by rewrite Hg.
    + rewrite Hhttp, Hdata. apply truthy_str_Some in HT as ->. done.
    + subst token. rewrite Hst. cbn [Store.setGlobalInstagramFacebookToken].
      pose proof (get_after_upsert T _ Hsing) as Hcur.
      destruct ex as [seconds |]; [| exact Hcur].
      destruct (Js.truthy_num (Some seconds)); [| exact Hcur].
      destruct (Date.toISOString _); exact Hcur.
  - assert (holder st = None) as Hh.
    { destruct Hco as [(_ & _ & _ & Hws & _) | (_ & _ & Hws)].
      - by pose proof (proj1 (Forall_lookup _ _) Hws j st Hi) as ->.
      - by pose proof (proj1 (Forall_lookup _ _) Hws j st Hi) as [-> | [-> | [r' ->]]]. }
    pose proof (resume_waiter tk w st Hh) as [Hw _].
    destruct (resume tk w st) as [w' st']. simpl in *. by subst w'.
Qed.

Lemma fed_call T b provider key creds w0 s :
  stored b provider = Some creds →
  complete creds →
  coordinated key creds w0 s →
  fed T w0 s →
  fed T w0 (step s (Call b provider)).
Proof.
  destruct s as [w ts]. intros Hs Hc [_ Hco] Hfed. unfold fed in *. simpl in *.
  pose proof (call_tokens w b provider) as [Htok _].
  destruct ts as [| leader ws].
  - subst w.
    destruct (refreshLocks w0 !! lockKey b (provider_of provider)) as [p |] eqn:Hl.
    + by rewrite (call_wait _ _ _ _ _ Hs Hc Hl).
    + by rewrite (call_own _ _ _ _ Hs Hc Hl).
  - destruct (call w b provider) as [w' st]. simpl in *.
    unfold current_token in *. by rewrite Htok.
Qed.

Lemma answering_agreeing T tk : answering T tk → agreeing T tk.
Proof. intros [Hst (data & Hhttp & Hdata)]. split; [done |]. by rewrite Hhttp. Qed.

Lemma sum_remaining_insert (ts : list state) i st st' :
  ts !! i = Some st →
  (sum_list (remaining <$> <[i := st']> ts) + remaining st
   = sum_list (remaining <$> ts) + remaining st')%nat.
Proof.
  revert i. induction ts as [| t ts IH]; intros i Hi; [by rewrite lookup_nil in Hi |].
  destruct i as [| i]; simpl in *.
  - injection Hi as ->. lia.
  - specialize (IH i Hi). unfold fmap in *. lia.
Qed.

Lemma sum_remaining_pos (ts : list state) :
  (0 < sum_list (remaining <$> ts))%nat →
  ∃ i st, ts !! i = Some st ∧ (0 < remaining st)%nat.
Proof.
  induction ts as [| t ts IH]; simpl; [lia |]. intros H.
  destruct (decide (0 < remaining t)%nat) as [Ht | Ht].
  - by exists 0%nat, t.
  - destruct IH as (i & st & Hi & Hst); [unfold fmap in *; lia |]. by exists (S i), st.
Qed.

Lemma pending_zero s : pending s = 0%nat → Forall (λ st, returned st = true) (tasks s).
Proof.
  unfold pending. induction (tasks s) as [| t ts IH]; simpl; [done |].
  intros H. apply Forall_cons. split; [| apply IH; unfold fmap in *; lia].
  destruct t; simpl in *; (done || lia).
Qed.

(** Whatever the environment answers, some call can be resumed with effect
    as long as there is a suspended one. *)
Lemma coordinated_progress key creds w0 s tk :
  coordinated key creds w0 s →
  ∃ i, (pending (step s (Resume i tk)) ≤ pending s - 1)%nat.
Proof.
  destruct s as [w ts]. intros [_ Hco]. unfold pending. simpl in *.
  destruct ts as [| leader ws]; [by exists 0%nat |].
  destruct Hco as [(Hh & _) | ((r & ->) & Hres & Hws)].
  - exists 0%nat. simpl.
    pose proof (resume_holder tk w leader key _ Hh) as (_ & H).
    destruct (resume tk w leader) as [w' st']. simpl in *.
    destruct H as [(_ & Hlt & _) | ((r & ->) & _)]; [lia |].
    destruct leader; simpl in *; (done || lia).
  - destruct (decide (0 < sum_list (remaining <$> ws))%nat) as [Hpos | Hzero].
    + destruct (sum_remaining_pos ws Hpos) as (j & st & Hj & Hst).
      exists (S j). simpl. rewrite Hj.
      assert (remaining (resume tk w st).2 < remaining st)%nat as Hlt.
      { pose proof (proj1 (Forall_lookup _ _) Hws j st Hj) as [-> | [-> | [r' ->]]];
          simpl in *; [| lia | lia].
        rewrite decide_True by done. simpl. lia. }
      destruct (resume tk w st) as [w' st']. simpl in *.
      pose proof (sum_remaining_insert ws j st st' Hj). unfold fmap in *. lia.
    + exists 0%nat. simpl. unfold fmap in *. lia.
Qed.

Lemma coordinated_returns key creds w0 tks s :
  coordinated key creds w0 s →
  (pending s ≤ length tks)%nat →
  ∃ order,
    length order = length tks
    ∧ Forall (λ st, returned st = true) (tasks (exec (zip_with Resume order tks) s)).
Proof.
  revert s. induction tks as [| tk tks IH]; intros s Hco Hlen.
  - exists []. split; [done |]. apply pending_zero. by apply Nat.le_0_r in Hlen.
  - destruct (coordinated_progress key creds w0 s tk Hco) as [i Hi].
    destruct (IH (step s (Resume i tk))) as (order & Hlo & Hall).
    + by apply coordinated_resume.
    + change (length (tk :: tks)) with (S (length tks)) in Hlen. lia.
    + exists (i :: order). split; [simpl; by rewrite Hlo | done].
Qed.

(** C1, as the code has it.  Calls [refreshBrandToken(brand, provider)] for
    one brand with complete credentials are made, from a state with no
    refresh in flight, in any interleaving with resumptions, such that at
    some instant all of them are in flight ([pre]); from then on calls are
    only resumed, in any order and with any answers of the environment
    ([post]).  Then (1) the token endpoint is called at most once; (2) every
    call that has returned has returned a credentials object; (3) given
    enough resumptions, with any answers, all calls return; (4) when storage
    works and the endpoint, if it answers, answers with the non-empty token
    [T], all returned objects carry the same [access_token], the one of the
    credentials stamped with the global token; (5) when moreover the store
    holds a token at the start and the endpoint does answer, that
    [access_token] is [T]. *)
Theorem concurrent_refreshes_share_one_exchange b provider creds w0 pre post :
  stored b provider = Some creds →
  complete creds →
  quiet w0 →
  Forall (calls_only b provider) pre →
  Forall (λ l, is_call l = false) post →
  Forall (λ st, returned st = false) (tasks (exec pre (System w0 []))) →
  let s := exec post (exec pre (System w0 [])) in
  (length (exchanges (shared s)) ≤ S (length (exchanges w0)))%nat
  ∧ (∀ i result, tasks s !! i = Some (Returned result) → ∃ r, result = Some r)
  ∧ (∀ tks, (pending s ≤ length tks)%nat →
       ∃ order,
         length order = length tks
         ∧ Forall (λ st, returned st = true)
                  (tasks (exec (zip_with Resume order tks) s)))
  ∧ (∀ T, T ≠ "" → Store.singleton (tokens w0) →
       Forall (answers (agreeing T)) (pre ++ post) →
       ∀ i r, tasks s !! i = Some (Returned (Some r)) →
              Js.get r "access_token" = expected creds (shared s))
  ∧ (∀ T, T ≠ "" → Store.singleton (tokens w0) →
       Js.truthy_str (current_token w0) = true →
       Forall (answers (answering T)) (pre ++ post) →
       ∀ i r, tasks s !! i = Some (Returned (Some r)) →
              Js.get r "access_token" = Js.VStr T).
Proof.
  intros Hs Hc Hq Hpre Hpost Hfl s.
  pose proof (not_has_returned _ Hfl) as Hnr.
  set (key := lockKey b (provider_of provider)).
  assert (coordinated key creds w0 s) as Hco.
  { apply (two_phase b provider w0 (coordinated key creds w0) (λ _, True));
      try done.
    - apply coordinated_start.
    - intros s0 i tk H _. by apply coordinated_resume.
    - intros s0 H Hn. by apply coordinated_call.
    - by apply Forall_true. }
  assert (∀ i result, tasks s !! i = Some (Returned result) →
                      (∃ r, result = Some r)
                      ∧ ∃ r0 ws, tasks s = Returned (Some r0) :: ws) as Hret.
  { intros i result Hi. destruct Hco as [_ Hco].
    destruct (tasks s) as [| leader ws]; [by rewrite lookup_nil in Hi |].
    destruct Hco as [(Hh & _ & _ & Hws & _) | ((r0 & ->) & _ & Hws)].
    - destruct i as [| j]; simpl in Hi.
      + injection Hi as ->. done.
      + by pose proof (proj1 (Forall_lookup _ _) Hws j _ Hi).
    - split; [| by eexists _, _].
      destruct i as [| j]; simpl in Hi.
      + injection Hi as <-. by eexists.
      + pose proof (proj1 (Forall_lookup _ _) Hws j _ Hi) as [? | [? | [r ?]]];
          simplify_eq. by eexists. }
  split; [apply Hco |].
  split; [intros i result Hi; by apply (Hret i result) |].
  split; [intros tks Hlen; by apply (coordinated_returns key creds w0) |].
  split.
  - intros T HT Hsing Hok i r Hi.
    assert (coordinated key creds w0 s ∧ agreed creds s) as [_ [_ Hag]].
    { apply (two_phase b provider w0
               (λ s, coordinated key creds w0 s ∧ agreed creds s)
               (answers (agreeing T))); try done.
      - split; [apply coordinated_start | by apply agreed_start].
      - intros s0 j tk [H1 H2] Htk.
        split; [by apply coordinated_resume | by eapply agreed_resume].
      - intros s0 [H1 H2] Hn.
        split; [by apply coordinated_call | by apply agreed_call]. }
    exact (proj1 (Forall_lookup _ _) Hag i _ Hi).
  - intros T HT Hsing Hg Hok i r Hi.
    assert (coordinated key creds w0 s ∧ agreed creds s ∧ fed T w0 s)
      as (_ & [_ Hag] & Hfed).
    { apply (two_phase b provider w0
               (λ s, coordinated key creds w0 s ∧ agreed creds s ∧ fed T w0 s)
               (answers (answering T))); try done.
      - split; [apply coordinated_start |]. split; [by apply agreed_start | done].
      - intros s0 j tk (H1 & H2 & H3) Htk.
        split; [by apply coordinated_resume |].
        split; [eapply agreed_resume; eauto using answering_agreeing |].
        by eapply fed_resume.
      - intros s0 (H1 & H2 & H3) Hn.
        split; [by apply coordinated_call |].
        split; [by apply agreed_call | by eapply fed_call]. }
    pose proof (proj1 (Forall_lookup _ _) Hag i _ Hi) as Hr. simpl in Hr.
    destruct (Hret i _ Hi) as (_ & r0 & ws & Hts).
    unfold fed in Hfed. rewrite Hts in Hfed.
    rewrite Hr. unfold expected. rewrite Hfed. by apply get_stamp.
Qed.

Lemma concurrent_refreshes_share_one_exchange_witness :
  (length (exchanges (shared (exec Scenario.interleaved
                                (exec Scenario.three_calls (System Scenario.w [])))))
   ≤ 1)%nat
  ∧ Forall (λ st, ∃ r, st = Returned (Some r)
                       ∧ Js.get r "access_token" = Js.VStr "global-new")
           (tasks (exec Scenario.interleaved
                     (exec Scenario.three_calls (System Scenario.w [])))).
Proof.
  assert (Forall (answers (answering "global-new"))
            (Scenario.three_calls ++ Scenario.interleaved)) as Hok.
  { repeat constructor; by eexists. }
  destruct (concurrent_refreshes_share_one_exchange Scenario.B None Scenario.creds
              Scenario.w Scenario.three_calls Scenario.interleaved
              eq_refl (conj eq_refl eq_refl)
              (conj eq_refl (λ p Hp, False_ind _ (not_elem_of_empty p Hp))))
    as (H1 & _ & _ & _ & H5).
  - repeat constructor.
  - repeat constructor.
  - repeat constructor.
  - split; [exact H1 |].
    specialize (H5 "global-new" ltac:(discriminate)
                  (or_intror (ex_intro _ "global-old" (ex_intro _ 2 eq_refl)))
                  eq_refl Hok).
    apply Forall_lookup. intros i st Hi.
    destruct i as [| [| [| i]]]; vm_compute in Hi; [| | | done];
      injection Hi as <-; eexists; (split; [reflexivity |]).
    + by apply (H5 0%nat).
    + by apply (H5 1%nat).
    + by apply (H5 2%nat).
Defined.

(** C1 as stated fails when the one exchange is answered without a token:
    of two calls made at the same instant, with one call to the token
    endpoint between them, the first returns the credentials unchanged
    ([access_token: "old"]) and the second returns them stamped with the
    global token ([access_token: "global-old"]). *)
Lemma concurrent_refreshes_tokenless_answer_disagree :
  ∃ r0 r1 call,
    tasks (exec Scenario.two_calls_tokenless (System Scenario.w []))
    = [Returned (Some r0); Returned (Some r1)]
    ∧ exchanges (shared (exec Scenario.two_calls_tokenless (System Scenario.w [])))
      = [call]
    ∧ Js.get r0 "access_token" = Js.VStr "old"
    ∧ Js.get r1 "access_token" = Js.VStr "global-old"
    ∧ Js.get r0 "access_token" ≠ Js.get r1 "access_token".
Proof.
  eexists _, _, _. split; [vm_compute; reflexivity |].
  split; [vm_compute; reflexivity |].
  split; [vm_compute; reflexivity |].
  split; [vm_compute; reflexivity |].
  vm_compute. discriminate.
Qed.

(** * Further properties of the code *)

(** ** The other exits of [refreshBrandToken] *)

(** X1. With no usable global token (no row, an empty token, or a failing
    read) the call returns the credentials unchanged: no request to the
    token endpoint, no write to the store, the marker released. *)
Theorem refresh_without_global_token w b provider creds t1 rest :
  stored b provider = Some creds →
  complete creds →
  refreshLocks w !! lockKey b (provider_of provider) = None →
  Js.truthy_str (Store.getGlobalInstagramFacebookToken (storage t1) (tokens w)) = false →
  refreshBrandToken (t1 :: rest) w b provider
  = (after_refresh w (tokens w) (exchanges w), Returned (Some creds)).
Proof.
  intros Hs Hc Hl Hg. unfold refreshBrandToken.
  rewrite (call_own _ _ _ _ Hs Hc Hl). cbn [run resume].
  destruct (Store.getGlobalInstagramFacebookToken (storage t1) _) as [g |];
    cbn [tokens] in *; [rewrite Hg |];
    rewrite release_fresh by done; apply run_returned.
Qed.

Lemma refresh_without_global_token_witness :
  refreshBrandToken [Scenario.unreachable] Cases.w_empty Scenario.B None
  = (after_refresh Cases.w_empty Store.fresh [], Returned (Some Scenario.creds))
  ∧ refreshBrandToken [Cases.storage_down] Scenario.w Scenario.B None
    = (after_refresh Scenario.w (tokens Scenario.w) [], Returned (Some Scenario.creds)).
Proof.
  split.
  - exact (refresh_without_global_token Cases.w_empty Scenario.B None Scenario.creds
             Scenario.unreachable [] eq_refl (conj eq_refl eq_refl) eq_refl eq_refl).
  - exact (refresh_without_global_token Scenario.w Scenario.B None Scenario.creds
             Cases.storage_down [] eq_refl (conj eq_refl eq_refl) eq_refl eq_refl).
Defined.

(** X2. When the token endpoint answers without a usable [access_token],
    the call returns the credentials unchanged and leaves the store as it
    was; the one request stays in the log and the marker is released. *)
Theorem refresh_tokenless_answer w b provider creds g t1 t2 rest data :
  stored b provider = Some creds →
  complete creds →
  refreshLocks w !! lockKey b (provider_of provider) = None →
  Store.getGlobalInstagramFacebookToken (storage t1) (tokens w) = Some g →
  g ≠ "" →
  http t2 = Response data →
  Js.truthy_str (access_token data) = false →
  refreshBrandToken (t1 :: t2 :: rest) w b provider
  = (after_refresh w (tokens w)
       (exchanges w ++ [ExchangeCall (appId_of creds) (appSecret_of creds) g]),
     Returned (Some creds)).
Proof.
  intros Hs Hc Hl Hg Hne Hhttp Htok.
  rewrite (refresh_until_exchange _ _ _ _ _ _ _ Hs Hc Hl Hg Hne).
  cbn [run resume]. rewrite Hhttp.
  destruct (access_token data) as [token |]; [rewrite Htok |];
    rewrite release_fresh by done; apply run_returned.
Qed.

Lemma refresh_tokenless_answer_witness :
  refreshBrandToken [Scenario.tokenless; Scenario.tokenless] Scenario.w Scenario.B None
  = (after_refresh Scenario.w (tokens Scenario.w)
       [ExchangeCall (Js.VStr "1") (Js.VStr "s") "global-old"],
     Returned (Some Scenario.creds)).
Proof.
  exact (refresh_tokenless_answer Scenario.w Scenario.B None Scenario.creds "global-old"
           Scenario.tokenless Scenario.tokenless [] (ExchangeData None None)
           eq_refl (conj eq_refl eq_refl) eq_refl eq_refl ltac:(discriminate)
           eq_refl eq_refl).
Defined.

(** X3. When the store rejects the write of the exchanged token, the call
    does not throw and does not set the new token: the store keeps its
    content, and the call returns the credentials stamped with the global
    token read again.  So [access_token] of the result is the token that
    read gives when it gives one (the old global token when the read
    works), the result is the stored credentials when it gives none, and
    every other field is as stored. *)
Theorem refresh_persist_failure w b provider creds g t1 t2 t3 t4 rest data token message :
  stored b provider = Some creds →
  complete creds →
  refreshLocks w !! lockKey b (provider_of provider) = None →
  Store.getGlobalInstagramFacebookToken (storage t1) (tokens w) = Some g →
  g ≠ "" →
  http t2 = Response data →
  access_token data = Some token →
  token ≠ "" →
  storage t3 = Fails message →
  let curToken := Store.getGlobalInstagramFacebookToken (storage t4) (tokens w) in
  let result := stamp creds curToken in
  refreshBrandToken (t1 :: t2 :: t3 :: t4 :: rest) w b provider
  = (after_refresh w (tokens w)
       (exchanges w ++ [ExchangeCall (appId_of creds) (appSecret_of creds) g]),
     Returned (Some result))
  ∧ (∀ t, curToken = Some t → t ≠ "" → Js.get result "access_token" = Js.VStr t)
  ∧ (storage t4 = Succeeds → Js.get result "access_token" = Js.VStr g)
  ∧ (Js.truthy_str curToken = false → result = creds)
  ∧ (∀ k, k ≠ "access_token" → result !! k = creds !! k).
Proof.
  intros Hs Hc Hl Hg Hne Hhttp Htok Htne Hst curToken result.
  split; [| split; [| split; [| split]]].
  - rewrite (refresh_until_exchange _ _ _ _ _ _ _ Hs Hc Hl Hg Hne).
    apply truthy_str_Some in Htne.
    cbn [run resume]. rewrite Hhttp, Htok, Htne. cbn [run resume]. rewrite Hst.
    cbn [Store.setGlobalInstagramFacebookToken run resume].
    rewrite release_fresh by done. apply run_returned.
  - intros t Ht Hnt. unfold result. rewrite Ht.
    apply String.eqb_neq in Hnt. unfold stamp. cbn [Js.truthy_str]. rewrite Hnt.
    assigned.
  - intros H4. unfold result, curToken. rewrite H4.
    destruct (storage t1); [| done]. rewrite Hg.
    apply String.eqb_neq in Hne. unfold stamp. cbn [Js.truthy_str]. rewrite Hne.
    assigned.
  - unfold result, stamp. destruct curToken as [t |]; [by intros -> | done].
  - intros k Hk. unfold result. untouched.
Qed.

Lemma refresh_persist_failure_witness :
  ∃ result,
    refreshBrandToken
      [Scenario.unreachable; Cases.storage_down; Cases.storage_down; Scenario.unreachable]
      Scenario.w Scenario.B None
    = (after_refresh Scenario.w (tokens Scenario.w)
         [ExchangeCall (Js.VStr "1") (Js.VStr "s") "global-old"],
       Returned (Some result))
    ∧ Js.get Scenario.creds "access_token" = Js.VStr "old"
    ∧ Js.get result "access_token" = Js.VStr "global-old".
Proof.
  destruct (refresh_persist_failure Scenario.w Scenario.B None Scenario.creds
              "global-old"
              Scenario.unreachable Cases.storage_down Cases.storage_down
              Scenario.unreachable
              [] (ExchangeData (Some "global-new") (Some 3600)) "global-new"
              "Can't reach database server"
              eq_refl (conj eq_refl eq_refl) eq_refl eq_refl ltac:(discriminate)
              eq_refl eq_refl ltac:(discriminate) eq_refl)
    as (Hrun & _ & Hold & _).
  eexists. split; [exact Hrun |]. split; [reflexivity | exact (Hold eq_refl)].
Defined.

(** X4. When [expires_in] leads past the last valid date, [toISOString]
    throws inside the [try]: the token is already persisted, the call still
    returns, and [expires_at] of the credentials is left as it was.  The
    [access_token] of the result is the global token read again in the
    [catch] when that read gives a token, and the exchanged token otherwise
    (it was assigned before the throw); with the one-row store and a read
    that works both are the exchanged token.  Every other field is as
    stored. *)
Theorem refresh_expiry_out_of_range
    w b provider creds g t1 t2 t3 t4 rest data token seconds :
  stored b provider = Some creds →
  complete creds →
  refreshLocks w !! lockKey b (provider_of provider) = None →
  Store.getGlobalInstagramFacebookToken (storage t1) (tokens w) = Some g →
  g ≠ "" →
  http t2 = Response data →
  access_token data = Some token →
  token ≠ "" →
  storage t3 = Succeeds →
  expires_in data = Some seconds →
  seconds ≠ 0 →
  Date.max_time < Z.abs (now t3 + seconds * 1000) →
  let curToken :=
    Store.getGlobalInstagramFacebookToken (storage t4)
      (Store.upsert 1 token (tokens w)) in
  ∃ result,
    refreshBrandToken (t1 :: t2 :: t3 :: t4 :: rest) w b provider
    = (after_refresh w (Store.upsert 1 token (tokens w))
         (exchanges w ++ [ExchangeCall (appId_of creds) (appSecret_of creds) g]),
       Returned (Some result))
    ∧ result = stamp (Js.set creds "access_token" (Js.VStr token)) curToken
    ∧ result !! "expires_at" = creds !! "expires_at"
    ∧ (∀ t, curToken = Some t → t ≠ "" → Js.get result "access_token" = Js.VStr t)
    ∧ (Js.truthy_str curToken = false → Js.get result "access_token" = Js.VStr token)
    ∧ (Store.singleton (tokens w) → storage t4 = Succeeds →
       Js.get result "access_token" = Js.VStr token)
    ∧ (∀ k, k ≠ "access_token" → result !! k = creds !! k).
Proof.
  intros Hs Hc Hl Hg Hne Hhttp Htok Htne Hst Hexp Hnz Hrange curToken.
  eexists. split; [| split; [reflexivity |]].
  - rewrite (refresh_until_exchange _ _ _ _ _ _ _ Hs Hc Hl Hg Hne).
    apply truthy_str_Some in Htne.
    cbn [run resume]. rewrite Hhttp, Htok, Htne. cbn [run resume].
    rewrite Hst, Hexp.
    cbn [Store.setGlobalInstagramFacebookToken Js.truthy_num].
    apply Z.eqb_neq in Hnz. rewrite Hnz. cbn [negb].
    unfold Date.toISOString. apply Z.leb_gt in Hrange. rewrite Hrange.
    cbn [run resume refreshLocks resolved promises tokens exchanges].
    rewrite release_fresh by done. apply run_returned.
  - split; [| split; [| split; [| split]]].
    + untouched.
    + intros t Ht Hnt. rewrite Ht.
      apply String.eqb_neq in Hnt. unfold stamp. cbn [Js.truthy_str]. rewrite Hnt.
      assigned.
    + intros Hf. unfold stamp. destruct curToken as [t |]; [rewrite Hf |]; assigned.
    + intros Hsing H4. unfold curToken. rewrite H4, get_after_upsert by done.
      apply String.eqb_neq in Htne. unfold stamp. cbn [Js.truthy_str]. rewrite Htne.
      assigned.
    + intros k Hk. untouched.
Qed.

Lemma refresh_expiry_out_of_range_witness :
  ∃ result,
    refreshBrandToken (replicate 4 (Scenario.answer Cases.far_future))
      Scenario.w Scenario.B None
    = (after_refresh Scenario.w (Store.Table [Store.Row 1 "global-new"] 2)
         [ExchangeCall (Js.VStr "1") (Js.VStr "s") "global-old"],
       Returned (Some result))
    ∧ Js.get Scenario.creds "access_token" = Js.VStr "old"
    ∧ Js.get result "access_token" = Js.VStr "global-new"
    ∧ result !! "expires_at" = None.
Proof.
  destruct (refresh_expiry_out_of_range Scenario.w Scenario.B None Scenario.creds
              "global-old"
              (Scenario.answer Cases.far_future) (Scenario.answer Cases.far_future)
              (Scenario.answer Cases.far_future) (Scenario.answer Cases.far_future)
              [] Cases.far_future "global-new" 8640000000000
              eq_refl (conj eq_refl eq_refl) eq_refl eq_refl ltac:(discriminate)
              eq_refl eq_refl ltac:(discriminate) eq_refl eq_refl ltac:(discriminate)
              eq_refl)
    as (result & Hrun & _ & Hexp & _ & _ & Htoken & _).
  exists result. split; [exact Hrun |]. split; [reflexivity |].
  split; [| exact Hexp].
  apply Htoken; [right; by exists "global-old", 2 | reflexivity].
Defined.

(** ** Calls that hold no marker *)

Lemma run_waiter tks w st :
  holder st = None → (run tks w st).1 = w ∧ holder (run tks w st).2 = None.
Proof.
  revert w st. induction tks as [| tk tks IH]; intros w st Hh; [done |].
  cbn [run]. pose proof (resume_waiter tk w st Hh) as [Hw Hh'].
  destruct (resume tk w st) as [w' st']. cbn [fst snd] in *. subst w'.
  by apply IH.
Qed.

Lemma run_blocked tks w creds p :
  p ∉ resolved w → run tks w (AwaitLock creds p) = (w, AwaitLock creds p).
Proof.
  intros Hp. induction tks as [| tk tks IH]; [done |].
  cbn [run resume]. by rewrite decide_False.
Qed.

(** X5. A call made while a refresh for its key is in flight takes the wait
    path, and on that path it is read-only: however often it is resumed, in
    whatever state the other tasks have left by then and whatever the
    environment answers, the shared state (lock map, token store, log of the
    token endpoint) stays as it is.  It stays suspended while the promise it
    found is unresolved.  Resumed in a later state in which that promise is
    resolved (the holder has returned and removed its entry), it returns
    after two resumptions the credentials stamped with the global token it
    reads then: [access_token] of the result is that token when the read
    gives one. *)
Theorem refresh_wait_path_is_read_only w b provider creds p tks :
  stored b provider = Some creds →
  complete creds →
  refreshLocks w !! lockKey b (provider_of provider) = Some p →
  call w b provider = (w, AwaitLock creds p)
  ∧ (refreshBrandToken tks w b provider).1 = w
  ∧ (p ∉ resolved w → (refreshBrandToken tks w b provider).2 = AwaitLock creds p)
  ∧ ∀ w',
      (run tks w' (AwaitLock creds p)).1 = w'
      ∧ (p ∉ resolved w' → (run tks w' (AwaitLock creds p)).2 = AwaitLock creds p)
      ∧ (p ∈ resolved w' →
         ∀ t1 t2 rest, tks = t1 :: t2 :: rest →
           let globalTokenAfter :=
             Store.getGlobalInstagramFacebookToken (storage t2) (tokens w') in
           let result := stamp creds globalTokenAfter in
           (run tks w' (AwaitLock creds p)).2 = Returned (Some result)
           ∧ (∀ t, globalTokenAfter = Some t → t ≠ "" →
                   Js.get result "access_token" = Js.VStr t)
           ∧ (Js.truthy_str globalTokenAfter = false → result = creds)).
Proof.
  intros Hs Hc Hl.
  pose proof (call_wait _ _ _ _ _ Hs Hc Hl) as Hcall.
  split; [exact Hcall |]. unfold refreshBrandToken. rewrite Hcall.
  split; [by apply run_waiter |]. split; [intros Hp; by rewrite run_blocked |].
  intros w'. split; [by apply run_waiter |]. split; [intros Hp; by rewrite run_blocked |].
  intros Hp t1 t2 rest ->. cbv zeta. split; [| split].
  - cbn [run resume]. rewrite decide_True by done. cbn [run resume].
    by rewrite run_returned.
  - intros t Ht Hnt. rewrite Ht.
    apply String.eqb_neq in Hnt. unfold stamp. cbn [Js.truthy_str]. rewrite Hnt.
    assigned.
  - unfold stamp. destruct (Store.getGlobalInstagramFacebookToken _ _) as [t |];
      [by intros -> | done].
Qed.

Lemma refresh_wait_path_is_read_only_witness :
  call Cases.held Scenario.B None = (Cases.held, AwaitLock Scenario.creds 0)
  ∧ refreshBrandToken (replicate 2 Scenario.unreachable) Cases.held Scenario.B None
    = (Cases.held, AwaitLock Scenario.creds 0)
  ∧ 0%nat ∈ resolved Cases.released
  ∧ refreshLocks Cases.released = ∅
  ∧ ∃ result,
      run (replicate 2 Scenario.unreachable) Cases.released (AwaitLock Scenario.creds 0)
      = (Cases.released, Returned (Some result))
      ∧ Js.get result "access_token" = Js.VStr "global-new".
Proof.
  assert (0%nat ∈ resolved Cases.released) as Hres.
  { change (0%nat ∈ ({[0%nat]} ∪ ∅ : gset nat)).
    apply elem_of_union_l, elem_of_singleton. reflexivity. }
  pose proof (refresh_wait_path_is_read_only Cases.held Scenario.B None Scenario.creds
                0%nat (replicate 2 Scenario.unreachable)
                eq_refl (conj eq_refl eq_refl) eq_refl) as (Hcall & H1 & H2 & Hlater).
  specialize (H2 ltac:(change (0%nat ∉ (∅ : gset nat)); apply not_elem_of_empty)).
  destruct (Hlater Cases.released) as (Hw & _ & Hret).
  destruct (Hret Hres Scenario.unreachable Scenario.unreachable [] eq_refl)
    as (Hst & Hget & _).
  split; [exact Hcall |]. split.
  { destruct (refreshBrandToken _ Cases.held _ _) as [w' st']. cbn [fst snd] in *.
    by rewrite H1, H2. }
  split; [exact Hres |]. split; [reflexivity |].
  eexists. split.
  { destruct (run _ Cases.released _) as [w' st']. cbn [fst snd] in *.
    rewrite Hw, Hst. reflexivity. }
  exact (Hget "global-new" eq_refl ltac:(discriminate)).
Defined.

(** ** The fields a refresh leaves alone *)

Lemma same_fields_refl c : same_fields c c.
Proof. by intros k. Qed.

Lemma same_fields_set c r k v :
  k = "access_token" ∨ k = "expires_at" →
  same_fields c r → same_fields c (Js.set r k v).
Proof.
  intros Hk H k' H1 H2. unfold Js.set.
  rewrite lookup_insert_ne by (destruct Hk; congruence). by apply H.
Qed.

Lemma same_fields_stamp c r token : same_fields c r → same_fields c (stamp r token).
Proof.
  intros H. unfold stamp. destruct token as [t |]; [| done].
  destruct (Js.truthy_str (Some t)); [| done]. apply same_fields_set; auto.
Qed.

Lemma resume_carries c tk w st : carries c st → carries c (resume tk w st).2.
Proof.
  destruct st as [cr p | cr | k p cr a s | k p cr | k p cr token ex | k p cr | r];
    cbn [resume carries]; intros H.
  - by case_decide.
  - by apply same_fields_stamp.
  - destruct (Store.getGlobalInstagramFacebookToken _ _) as [g |]; [| done].
    by destruct (Js.truthy_str (Some g)).
  - destruct (http tk) as [data | m]; [| done].
    destruct (access_token data) as [token |]; [| done].
    by destruct (Js.truthy_str (Some token)).
  - destruct (Store.setGlobalInstagramFacebookToken _ _ _) as [table [m |]]; [done |].
    assert (same_fields c (Js.set cr "access_token" (Js.VStr token))) as H'
      by (apply same_fields_set; auto).
    destruct ex as [seconds |]; [| done].
    destruct (Js.truthy_num (Some seconds)); [| done].
    destruct (Date.toISOString _); [| done].
    cbn [snd carries]. apply same_fields_set; auto.
  - by apply same_fields_stamp.
  - done.
Qed.

Lemma run_carries c tks w st : carries c st → carries c (run tks w st).2.
Proof.
  revert w st. induction tks as [| tk tks IH]; intros w st H; [done |].
  cbn [run]. pose proof (resume_carries c tk w st H).
  destruct (resume tk w st) as [w' st']. by apply IH.
Qed.

(** X6. Whatever path a call takes and whatever the environment answers,
    the object it returns has every field of the stored credentials with its
    stored value, except [access_token] and [expires_at]: a refresh never
    drops or changes the app id, the app secret or any other field. *)
Theorem refresh_keeps_other_fields tks w b provider creds w' result :
  stored b provider = Some creds →
  refreshBrandToken tks w b provider = (w', Returned (Some result)) →
  ∀ k, k ≠ "access_token" → k ≠ "expires_at" → result !! k = creds !! k.
Proof.
  intros Hs Hrun.
  assert (carries creds (call w b provider).2) as Hc.
  { unfold stored, provider_of in Hs. unfold call. rewrite Hs.
    repeat case_match; cbn [snd carries]; apply same_fields_refl. }
  unfold refreshBrandToken in Hrun.
  destruct (call w b provider) as [w1 st1].
  apply (run_carries creds tks w1 st1) in Hc. rewrite Hrun in Hc. exact Hc.
Qed.

Lemma refresh_keeps_other_fields_witness :
  ∃ w' result,
    refreshBrandToken
      (replicate 3 (Scenario.answer (ExchangeData (Some "global-new") (Some 3600))))
      Scenario.w Scenario.B None = (w', Returned (Some result))
    ∧ result !! "client_id" = Scenario.creds !! "client_id"
    ∧ result !! "client_secret" = Scenario.creds !! "client_secret".
Proof.
  eexists _, _. split; [vm_compute; reflexivity |].
  split;
    eapply (refresh_keeps_other_fields
              (replicate 3 (Scenario.answer (ExchangeData (Some "global-new") (Some 3600))))
              Scenario.w Scenario.B None Scenario.creds);
    [reflexivity | vm_compute; reflexivity | discriminate | discriminate
    | reflexivity | vm_compute; reflexivity | discriminate | discriminate].
Defined.

(** ** Any calls, any brands, any schedule *)

(** X7. In every state the process reaches from a state with no refresh in
    flight, whatever brands and providers are refreshed and however the
    calls interleave: no two calls in flight hold the marker of the same
    key; the lock map has an entry for a key exactly when a call in flight
    holds its marker; and a call made for a brand with complete credentials
    while the marker of its key is held takes the wait path, leaving the
    shared state as it is. *)
Theorem one_refresh_in_flight_per_key w0 ls :
  refreshLocks w0 = ∅ →
  (∀ i j st st' key,
     tasks (exec ls (System w0 [])) !! i = Some st →
     tasks (exec ls (System w0 [])) !! j = Some st' →
     holds key st → holds key st' → i = j)
  ∧ (∀ key,
       is_Some (refreshLocks (shared (exec ls (System w0 []))) !! key)
       ↔ ∃ i st, tasks (exec ls (System w0 [])) !! i = Some st ∧ holds key st)
  ∧ (∀ b provider creds,
       stored b provider = Some creds →
       complete creds →
       (∃ i st, tasks (exec ls (System w0 [])) !! i = Some st
                ∧ holds (lockKey b (provider_of provider)) st) →
       ∃ p, call (shared (exec ls (System w0 []))) b provider
            = (shared (exec ls (System w0 [])), AwaitLock creds p)).
Proof.
  intros Hidle.
  assert (marked (exec ls (System w0 []))) as (L1 & L2 & U)
    by (by apply marked_exec, marked_start).
  split; [| split].
  - intros i j st st' key Hi Hj [p Hp] [p' Hp']. by eapply U.
  - intros key. split.
    + intros [p Hp]. destruct (L1 key p Hp) as (i & st & Hi & Hst).
      exists i, st. split; [done |]. by exists p.
    + intros (i & st & Hi & [p Hp]). exists p. by eapply L2.
  - intros b provider creds Hs Hc (i & st & Hi & [p Hp]).
    exists p. apply call_wait; [done .. |]. by eapply L2.
Qed.

Lemma one_refresh_in_flight_per_key_witness :
  ∃ p, call (shared (exec [Call Scenario.B (Some "tiktok"); Call Scenario.B None]
                       (System Scenario.w []))) Scenario.B None
       = (shared (exec [Call Scenario.B (Some "tiktok"); Call Scenario.B None]
                    (System Scenario.w [])),
          AwaitLock Scenario.creds p).
Proof.
  pose proof (one_refresh_in_flight_per_key Scenario.w
                [Call Scenario.B (Some "tiktok"); Call Scenario.B None] eq_refl)
    as (_ & _ & H).
  apply (H Scenario.B None Scenario.creds eq_refl (conj eq_refl eq_refl)).
  exists 1%nat. eexists. split; [reflexivity |]. by exists 1%nat.
Defined.

Lemma askers_insert (ts : list state) i st st' :
  ts !! i = Some st →
  (askers (<[i := st']> ts) + (if asked st then 1 else 0)
   = askers ts + (if asked st' then 1 else 0))%nat.
Proof.
  unfold askers. revert i.
  induction ts as [| t ts IH]; intros i Hi; [by rewrite lookup_nil in Hi |].
  destruct i as [| i]; simpl in *.
  - injection Hi as ->. lia.
  - specialize (IH i Hi). unfold fmap in *. lia.
Qed.

Lemma askers_le (ts : list state) : (askers ts ≤ length ts)%nat.
Proof.
  unfold askers. induction ts as [| t ts IH]; simpl; [lia |].
  unfold fmap in *. destruct (asked t); lia.
Qed.

Lemma askers_snoc (ts : list state) st :
  askers (ts ++ [st]) = (askers ts + (if asked st then 1 else 0))%nat.
Proof.
  unfold askers. induction ts as [| t ts IH]; simpl; [lia |].
  unfold fmap in *. lia.
Qed.

(** The request to the token endpoint is made in the one resumption that
    takes a call past its first [await]. *)
Lemma resume_asks tk w st :
  (length (exchanges (resume tk w st).1) + (if asked st then 1 else 0)
   ≤ length (exchanges w) + (if asked (resume tk w st).2 then 1 else 0))%nat.
Proof.
  destruct st; cbn [resume]; repeat case_match; simplify_eq;
    cbn [fst snd asked exchanges release]; rewrite ?length_app; simpl; lia.
Qed.

Lemma exec_askers ls s :
  (length (exchanges (shared (exec ls s))) + askers (tasks s)
   ≤ length (exchanges (shared s)) + askers (tasks (exec ls s)))%nat.
Proof.
  revert s. induction ls as [| l ls IH]; intros s; [simpl; lia |].
  cbn [exec foldl]. specialize (IH (step s l)). unfold exec in IH.
  enough (length (exchanges (shared (step s l))) + askers (tasks s)
          ≤ length (exchanges (shared s)) + askers (tasks (step s l)))%nat by lia.
  clear IH. destruct l as [b provider | i tk]; cbn [step].
  - pose proof (call_tokens (shared s) b provider) as [_ Hex].
    destruct (call (shared s) b provider) as [w st]. cbn [fst shared tasks] in *.
    rewrite Hex, askers_snoc. lia.
  - destruct (tasks s !! i) as [st |] eqn:Hi; [| lia].
    pose proof (resume_asks tk (shared s) st) as H.
    destruct (resume tk (shared s) st) as [w st']. cbn [fst snd shared tasks] in *.
    pose proof (askers_insert (tasks s) i st st' Hi). lia.
Qed.

Lemma exec_tasks_length ls s :
  length (tasks (exec ls s)) = (length (tasks s) + length (List.filter is_call ls))%nat.
Proof.
  revert s. induction ls as [| l ls IH]; intros s; [simpl; lia |].
  cbn [exec foldl]. specialize (IH (step s l)). unfold exec in IH. rewrite IH.
  destruct l as [b provider | i tk]; cbn [step List.filter is_call].
  - destruct (call (shared s) b provider) as [w st]. cbn [tasks].
    rewrite length_app. simpl. lia.
  - destruct (tasks s !! i) as [st |]; [| lia].
    destruct (resume tk (shared s) st) as [w st']. cbn [tasks].
    rewrite length_insert. lia.
Qed.

(** X9. Whatever the brands, the providers and the schedule, the token
    endpoint is called at most once for each call of [refreshBrandToken]:
    resuming a call again and again never repeats its request. *)
Theorem at_most_one_exchange_per_call w0 ls :
  (length (exchanges (shared (exec ls (System w0 []))))
   ≤ length (exchanges w0) + length (List.filter is_call ls))%nat.
Proof.
  pose proof (exec_askers ls (System w0 [])) as H.
  pose proof (askers_le (tasks (exec ls (System w0 [])))) as H'.
  pose proof (exec_tasks_length ls (System w0 [])) as Hlen.
  cbn [shared tasks] in *. unfold askers in H at 1. simpl in H, Hlen. lia.
Qed.

(** ** Lock keys *)

Lemma chars_app s t : chars (s +:+ t) = chars s ++ chars t.
Proof. induction s as [| c s IH]; [done |]. simpl. by rewrite IH. Qed.

Lemma chars_inj s t : chars s = chars t → s = t.
Proof.
  revert t. induction s as [| c s IH]; intros [| d t]; simpl; try done.
  intros [= -> H]. by rewrite (IH t H).
Qed.

Lemma pretty_N_char_plain x : pretty_N_char x ≠ underscore.
Proof. unfold pretty_N_char. by repeat case_match. Qed.

Lemma pretty_N_go_plain x s : plain s → plain (pretty_N_go x s).
Proof.
  revert s. induction (N.lt_wf_0 x) as [x _ IH]; intros s Hs.
  assert (x = 0 ∨ 0 < x)%N as [-> | Hpos] by lia.
  - by rewrite pretty_N_go_0.
  - rewrite pretty_N_go_step by done. apply IH; [by apply N.div_lt |].
    unfold plain in *. simpl. intros Hin.
    apply elem_of_cons in Hin as [Hc | Hin]; [| done].
    by apply (pretty_N_char_plain (x `mod` 10)%N).
Qed.

Lemma pretty_N_plain (x : N) : plain (pretty x).
Proof.
  unfold pretty, pretty_N. case_decide.
  - unfold plain. simpl. intros Hin.
    apply elem_of_cons in Hin as [Hc | Hin]; [done | by apply elem_of_nil in Hin].
  - apply pretty_N_go_plain. unfold plain. simpl. apply not_elem_of_nil.
Qed.

Lemma pretty_Z_plain (x : Z) : plain (pretty x).
Proof.
  unfold pretty, pretty_Z. destruct x as [| p | p].
  - unfold plain. simpl. intros Hin.
    apply elem_of_cons in Hin as [Hc | Hin]; [done | by apply elem_of_nil in Hin].
  - apply (pretty_N_plain (Npos p)).
  - unfold plain. simpl. intros Hin.
    apply elem_of_cons in Hin as [Hc | Hin]; [done |].
    by apply (pretty_N_plain (Npos p)).
Qed.

(** Two strings cut at their first underscore. *)
Lemma first_underscore s s' t t' :
  plain s → plain s' →
  chars s ++ underscore :: t = chars s' ++ underscore :: t' →
  s = s' ∧ t = t'.
Proof.
  unfold plain. revert s'.
  induction s as [| c s IH]; intros [| c' s'] Hs Hs' H; simpl in *.
  - by injection H as ->.
  - injection H as <- _. exfalso. apply Hs'. apply list_elem_of_here.
  - injection H as -> _. exfalso. apply Hs. apply list_elem_of_here.
  - injection H as -> H.
    destruct (IH s') as [-> ->]; [| | done | done].
    + intros Hin. apply Hs. by apply list_elem_of_further.
    + intros Hin. apply Hs'. by apply list_elem_of_further.
Qed.

(** X8. The lock key determines the brand id and the provider: calls for
    different brands, or for different providers of one brand, never share a
    lock key, also when a provider string contains underscores or digits. *)
Theorem lock_key_separates_brands_and_providers b1 b2 p1 p2 :
  brand_id b1 ≠ brand_id b2 ∨ p1 ≠ p2 → lockKey b1 p1 ≠ lockKey b2 p2.
Proof.
  intros Hne Heq. unfold lockKey in Heq.
  apply (f_equal chars) in Heq. rewrite !chars_app in Heq.
  change (chars "_") with [underscore] in Heq. simpl in Heq.
  apply first_underscore in Heq as [Hid Hp]; [| apply pretty_Z_plain ..].
  apply (inj pretty) in Hid. apply chars_inj in Hp.
  destruct Hne as [Hne | Hne]; by apply Hne.
Qed.

Lemma lock_key_separates_brands_and_providers_witness :
  lockKey (Brand 1 None None) "2_instagram" ≠ lockKey (Brand 12 None None) "instagram"
  ∧ lockKey (Brand 1 None None) "1_x" ≠ lockKey (Brand 11 None None) "x".
Proof.
  split; apply lock_key_separates_brands_and_providers; left; simpl; lia.
Defined.

(** ** Reading the token store after writing it *)

(** X11. On the table as the migration creates it, a read that works
    returns, after any sequence of [setGlobalInstagramFacebookToken] calls,
    the token of the last call whose write went through, and [null] when
    none did; a read that fails returns [null]. *)
Theorem global_token_read_your_writes calls message :
  Store.getGlobalInstagramFacebookToken Succeeds (Store.set_all calls Store.fresh)
  = Store.last_written calls
  ∧ Store.getGlobalInstagramFacebookToken (Fails message)
      (Store.set_all calls Store.fresh) = None.
Proof.
  split; [| done].
  pose proof (set_all_fresh calls) as H.
  destruct (Store.last_written calls) as [token |].
  - by destruct H as [n ->].
  - by rewrite H.
Qed.

Lemma upsert_keeps_first id token t r rest :
  Store.rows t = r :: rest →
  Store.row_id r ≠ id →
  ∃ rest', Store.rows (Store.upsert id token t) = r :: rest'.
Proof.
  intros Hrows Hne. unfold Store.upsert. rewrite Hrows.
  destruct (existsb _ _); cbn [Store.rows].
  - cbn [map]. apply Z.eqb_neq in Hne. rewrite Hne. by eexists.
  - by eexists.
Qed.

(** X12. The getter reads the first row, the setter writes the row with
    id 1.  When the first row of the table is not the row with id 1, no
    sequence of [setGlobalInstagramFacebookToken] calls changes what
    [getGlobalInstagramFacebookToken] returns: the token it reads stays the
    stale one. *)
Theorem global_token_stale_when_first_row_is_not_1 t r rest calls :
  Store.rows t = r :: rest →
  Store.row_id r ≠ 1 →
  Store.getGlobalInstagramFacebookToken Succeeds (Store.set_all calls t)
  = Some (Store.row_token r).
Proof.
  intros Hrows Hne.
  enough (∃ rest', Store.rows (Store.set_all calls t) = r :: rest') as [rest' H].
  { unfold Store.getGlobalInstagramFacebookToken, Store.findFirst. by rewrite H. }
  induction calls as [| [o token] calls IH] using rev_ind; [by exists rest |].
  rewrite set_all_snoc. destruct IH as [rest' IH].
  destruct o as [| m]; cbn [fst snd Store.setGlobalInstagramFacebookToken].
  - by eapply upsert_keeps_first.
  - by exists rest'.
Qed.

Lemma global_token_stale_when_first_row_is_not_1_witness :
  Store.getGlobalInstagramFacebookToken Succeeds
    (Store.set_all [(Succeeds, "fresh-1"); (Succeeds, "fresh-2")] Cases.orphaned)
  = Some "stale".
Proof.
  apply (global_token_stale_when_first_row_is_not_1 Cases.orphaned
           (Store.Row 2 "stale") []); [reflexivity | simpl; lia].
Defined.

(** ** What a delivery changes *)

Lemma update_post_lookup id data ps i q :
  ps !! i = Some q →
  update_post id data ps !! i = Some (if post_id q =? id then data q else q).
Proof. intros H. unfold update_post. by rewrite list_lookup_fmap, H. Qed.

(** The posts after a delivery: as before, or with the delivered post
    marked. *)
Lemma send_posts_cases e a postId :
  brands (sendPostToN8N e a postId).1 = brands a
  ∧ (posts (sendPostToN8N e a postId).1 = posts a
     ∨ posts (sendPostToN8N e a postId).1 = update_post postId mark_sent (posts a)
     ∨ ∃ message,
         posts (sendPostToN8N e a postId).1
         = update_post postId (mark_failed message) (posts a)).
Proof.
  unfold sendPostToN8N, fail_post.
  repeat case_match; cbn [fst posts brands]; split; eauto.
Qed.



(** X14. When the webhook accepted the post (the delivery has read the post
    and its brand and made its refreshes) but the store rejects the
    update to [sent], the post is recorded as [failed], with the message of
    the storage error, and that error is thrown; when the store rejects
    that second update too, the post keeps its status, so a scheduled post
    stays due although the webhook has been called. *)
Theorem send_status_update_rejected e a postId post brand message :
  post_read e = Succeeds →
  brand_read e = Succeeds →
  find_post postId (posts a) = Some post →
  status post = "approved" ∨ status post = "scheduled" →
  find_brand (post_brandId post) (brands a) = Some brand →
  refreshLocks (world a) = ∅ →
  (4 ≤ length (instagram_ticks e))%nat →
  (4 ≤ length (facebook_ticks e))%nat →
  webhook e = Succeeds →
  update_sent e = Fails message →
  ∃ call,
    hook_post call = postId
    ∧ webhook_calls (sendPostToN8N e a postId).1 = webhook_calls a ++ [call]
    ∧ (update_failed e = Succeeds →
       (sendPostToN8N e a postId).2 = Threw message
       ∧ find_post postId (posts (sendPostToN8N e a postId).1)
         = Some (Post (post_id post) (post_brandId post) "failed"
                      (scheduleAt post) (Some message)))
    ∧ (∀ message', update_failed e = Fails message' →
       (sendPostToN8N e a postId).2 = Threw message'
       ∧ posts (sendPostToN8N e a postId).1 = posts a).
Proof.
  intros Hpost Hbr Hfind Hstatus Hbrand Hlocks Hig Hfb Hhook Hupd.
  destruct (send_reaches_webhook e a postId post brand Hpost Hbr Hfind Hstatus Hbrand
              Hlocks Hig Hfb) as (w & call & Hcall & _ & ->).
  rewrite Hhook, Hupd. unfold fail_post. exists call. split; [done |].
  destruct (update_failed e) as [| m']; cbn [fst snd webhook_calls posts].
  - split; [done |]. split.
    + intros _. split; [done |]. by apply (find_update_post _ (mark_failed message)).
    + by intros m'.
  - split; [done |]. split; [done |]. by intros m'' [= <-].
Qed.

(** X16. Once a delivery has called the webhook (it has read the post and
    its brand and made its refreshes) and the store has accepted a status
    update, no dispatch tick, at whatever time, selects the post again: it
    is [sent] or [failed], not [scheduled]. *)
Theorem send_is_not_repeated e a postId post brand now :
  post_read e = Succeeds →
  brand_read e = Succeeds →
  find_post postId (posts a) = Some post →
  status post = "approved" ∨ status post = "scheduled" →
  find_brand (post_brandId post) (brands a) = Some brand →
  refreshLocks (world a) = ∅ →
  (4 ≤ length (instagram_ticks e))%nat →
  (4 ≤ length (facebook_ticks e))%nat →
  (webhook e = Succeeds ∧ update_sent e = Succeeds) ∨ update_failed e = Succeeds →
  ∀ q, q ∈ findMany_due now (posts (sendPostToN8N e a postId).1) → post_id q ≠ postId.
Proof.
  intros Hpost Hbr Hfind Hstatus Hbrand Hlocks Hig Hfb Hupd q Hq Hid.
  destruct (send_reaches_webhook e a postId post brand Hpost Hbr Hfind Hstatus Hbrand
              Hlocks Hig Hfb) as (w & call & _ & _ & Hsend).
  assert (∃ data, (∀ p, status (data p) ≠ "scheduled")
                  ∧ posts (sendPostToN8N e a postId).1
                    = update_post postId data (posts a)) as (data & Hdata & Hposts).
  { rewrite Hsend. unfold fail_post.
    destruct (webhook e) as [| m]; [destruct (update_sent e) as [| m] |].
    - by exists mark_sent.
    - destruct Hupd as [[_ ?] | ->]; [done |]. by exists (mark_failed m).
    - destruct Hupd as [[? _] | ->]; [done |]. by exists (mark_failed m). }
  unfold findMany_due in Hq. rewrite Hposts in Hq.
  apply list_elem_of_In, filter_In in Hq as [Hin Hdue].
  apply list_elem_of_In in Hin. unfold update_post in Hin.
  apply list_elem_of_fmap in Hin as (p & -> & _).
  apply due_spec in Hdue as [Hst _].
  destruct (post_id p =? postId) eqn:E.
  - by apply (Hdata p).
  - apply Z.eqb_neq in E. done.
Qed.

Lemma send_status_update_rejected_witness :
  (sendPostToN8N Cases.sent_not_recorded Scenario.panel 1).2
  = Threw "Connection pool timeout"
  ∧ find_post 1 (posts (sendPostToN8N Cases.sent_not_recorded Scenario.panel 1).1)
    = Some (Post 1 7 "failed" (Some 1000) (Some "Connection pool timeout")).
Proof.
  destruct (send_status_update_rejected Cases.sent_not_recorded Scenario.panel 1
              Scenario.past Scenario.B "Connection pool timeout"
              eq_refl eq_refl eq_refl (or_intror eq_refl) eq_refl eq_refl
              ltac:(simpl; lia) ltac:(simpl; lia) eq_refl eq_refl)
    as (call & _ & _ & H & _).
  exact (H eq_refl).
Defined.

Lemma send_is_not_repeated_witness :
  Forall (λ q, post_id q ≠ 1)
         (findMany_due 5000 (posts (sendPostToN8N Scenario.smooth Scenario.panel 1).1)).
Proof.
  apply Forall_forall.
  exact (send_is_not_repeated Scenario.smooth Scenario.panel 1 Scenario.past Scenario.B
           5000 eq_refl eq_refl eq_refl (or_intror eq_refl) eq_refl eq_refl
           ltac:(simpl; lia) ltac:(simpl; lia) (or_introl (conj eq_refl eq_refl))).
Defined.

(** ** What a delivery sends *)

Lemma run_cons tk tks w st :
  run (tk :: tks) w st = run tks (resume tk w st).1 (resume tk w st).2.
Proof. cbn [run]. by destruct (resume tk w st). Qed.

(** A call past the exchange, with the token of the answer to persist: when
    the store accepts the write the call returns the token as
    [access_token], whatever [expires_in] is. *)
Lemma run_persist tks w key p creds token expires t3 t4 :
  storage t3 = Succeeds →
  Store.singleton (tokens w) →
  ∃ result,
    run (t3 :: t4 :: tks) w (AwaitPersist key p creds token expires)
    = (release key p
         (World (refreshLocks w) (resolved w) (promises w)
                (Store.upsert 1 token (tokens w)) (exchanges w)),
       Returned (Some result))
    ∧ Js.get result "access_token" = Js.VStr token.
Proof.
  intros Hst Hsing. cbn [run resume]. rewrite Hst.
  cbn [Store.setGlobalInstagramFacebookToken].
  assert (Js.get (Js.set creds "access_token" (Js.VStr token)) "access_token"
          = Js.VStr token) as Hget.
  { unfold Js.get, Js.set. by rewrite lookup_insert_eq. }
  destruct expires as [seconds |];
    [destruct (Js.truthy_num (Some seconds));
     [destruct (Date.toISOString _) as [iso |] |] |];
    cbn [run resume tokens].
  - eexists. rewrite run_returned. split; [done |].
    unfold Js.get, Js.set in *. by rewrite lookup_insert_ne.
  - eexists. rewrite run_returned. split; [done |].
    destruct (storage t4) as [| m]; [| done].
    rewrite (get_after_upsert token _ Hsing). unfold stamp.
    destruct (Js.truthy_str (Some token)); [| done].
    unfold Js.get, Js.set. by rewrite lookup_insert_eq.
  - eexists. rewrite run_returned. by split.
  - eexists. rewrite run_returned. by split.
Qed.

(** X15. A delivery puts a freshly exchanged token into what it sends.
    The brand has complete Instagram credentials and no Facebook
    credentials, no refresh is in flight, and the store holds its one row
    with a token [g].  The reads of the post, of the brand and of the global
    token all succeed, the exchange is answered with a token [T], and the
    store accepts the write of [T].  Then the Instagram blob of the one
    webhook call carries [T] as [access_token], its
    [instagramFacebook_token] field is [T], its Facebook blob is the empty
    object; the token endpoint was called once, with [g], and the store
    holds [T] afterwards, whatever the webhook then answers. *)
Theorem send_carries_refreshed_token
    e a postId post brand creds g data T t1 t2 t3 t4 rest :
  post_read e = Succeeds →
  brand_read e = Succeeds →
  find_post postId (posts a) = Some post →
  status post = "approved" ∨ status post = "scheduled" →
  find_brand (post_brandId post) (brands a) = Some brand →
  instagramCredentials brand = Some creds →
  complete creds →
  facebookCredentials brand = None →
  refreshLocks (world a) = ∅ →
  Store.singleton (tokens (world a)) →
  current_token (world a) = Some g →
  g ≠ "" →
  instagram_ticks e = t1 :: t2 :: t3 :: t4 :: rest →
  storage t1 = Succeeds →
  http t2 = Response data →
  access_token data = Some T →
  T ≠ "" →
  storage t3 = Succeeds →
  token_read e = Succeeds →
  ∃ call,
    webhook_calls (sendPostToN8N e a postId).1 = webhook_calls a ++ [call]
    ∧ hook_post call = postId
    ∧ Js.get (hook_instagram call) "access_token" = Js.VStr T
    ∧ hook_facebook call = ∅
    ∧ hook_token call = Some T
    ∧ exchanges (world (sendPostToN8N e a postId).1)
      = exchanges (world a) ++ [ExchangeCall (appId_of creds) (appSecret_of creds) g]
    ∧ current_token (world (sendPostToN8N e a postId).1) = Some T.
Proof.
  intros Hpost Hbr Hfind Hstatus Hbrand Hig Hc Hfb Hlocks Hsing Hg Hgne Hticks
         Hst1 Hhttp Htok HT Hst3 Hread.
  unfold sendPostToN8N. rewrite Hpost, Hbr, Hfind. cbn [findUnique].
  assert (negb (String.eqb (status post) "approved")
          && negb (String.eqb (status post) "scheduled") = false) as ->.
  { by destruct Hstatus as [-> | ->]. }
  rewrite Hbrand, Hig, Hfb, Hticks. cbn [refresh_into default].
  assert (stored brand (Some "instagram") = Some creds) as Hs by exact Hig.
  unfold current_token in Hg.
  rewrite (refresh_until_exchange (world a) brand (Some "instagram") creds g t1
             (t2 :: t3 :: t4 :: rest) Hs Hc);
    [| by rewrite Hlocks | by rewrite Hst1 | done].
  apply truthy_str_Some in HT as HT'.
  rewrite run_cons. cbn [resume]. rewrite Hhttp, Htok, HT'. cbn [fst snd].
  edestruct (run_persist rest) as (result & -> & Hres); [exact Hst3 | exact Hsing |].
  cbn [tokens release]. rewrite Hread.
  rewrite (get_after_upsert T _ Hsing). rewrite HT'.
  eexists (HookCall postId result ∅ (Some T)).
  unfold fail_post.
  destruct (webhook e); [destruct (update_sent e) |]; try destruct (update_failed e);
    cbn [fst webhook_calls world exchanges tokens hook_post hook_instagram
         hook_facebook hook_token];
    repeat split; try done; unfold current_token; cbn [tokens];
    by apply get_after_upsert.
Qed.

Lemma send_carries_refreshed_token_witness :
  ∃ call,
    webhook_calls (sendPostToN8N Scenario.smooth Scenario.panel 1).1 = [call]
    ∧ Js.get (hook_instagram call) "access_token" = Js.VStr "global-new"
    ∧ hook_token call = Some "global-new".
Proof.
  destruct (send_carries_refreshed_token Scenario.smooth Scenario.panel 1
              Scenario.past Scenario.B Scenario.creds "global-old"
              (ExchangeData (Some "global-new") (Some 3600)) "global-new"
              _ _ _ _ [] eq_refl eq_refl eq_refl (or_intror eq_refl) eq_refl eq_refl
              (conj eq_refl eq_refl) eq_refl eq_refl
              (or_intror (ex_intro _ "global-old" (ex_intro _ 2 eq_refl)))
              eq_refl ltac:(discriminate) eq_refl eq_refl eq_refl eq_refl
              ltac:(discriminate) eq_refl eq_refl)
    as (call & H1 & _ & H3 & _ & H5 & _).
  exists call. by repeat split.
Defined.

(** ** What a dispatch tick changes *)

Lemma update_post_ids id data ps :
  (∀ q, post_id (data q) = post_id q) →
  map post_id (update_post id data ps) = map post_id ps.
Proof.
  intros Hid. unfold update_post. rewrite map_map. apply map_ext.
  intros q. by destruct (post_id q =? id).
Qed.

Lemma send_frame e a postId :
  brands (sendPostToN8N e a postId).1 = brands a
  ∧ map post_id (posts (sendPostToN8N e a postId).1) = map post_id (posts a)
  ∧ ∀ i q, posts a !! i = Some q → post_id q ≠ postId →
           posts (sendPostToN8N e a postId).1 !! i = Some q.
Proof.
  destruct (send_posts_cases e a postId) as [Hb [H | [H | [m H]]]]; rewrite Hb, H.
  - done.
  - split; [done |]. split; [by apply update_post_ids |].
    intros i q Hi Hne. rewrite (update_post_lookup _ _ _ _ _ Hi).
    apply Z.eqb_neq in Hne. by rewrite Hne.
  - split; [done |]. split; [by apply update_post_ids |].
    intros i q Hi Hne. rewrite (update_post_lookup _ _ _ _ _ Hi).
    apply Z.eqb_neq in Hne. by rewrite Hne.
Qed.

Lemma deliver_all_frame envs a ps :
  brands (deliver_all envs a ps).1 = brands a
  ∧ map post_id (posts (deliver_all envs a ps).1) = map post_id (posts a)
  ∧ ∀ i q, posts a !! i = Some q → post_id q ∉ map post_id ps →
           posts (deliver_all envs a ps).1 !! i = Some q.
Proof.
  revert a. induction ps as [| p ps IH]; intros a; [done |].
  cbn [deliver_all].
  pose proof (send_frame (envs (post_id p)) a (post_id p)) as (Hb & Hids & Hfr).
  destruct (sendPostToN8N (envs (post_id p)) a (post_id p)) as [a1 o].
  cbn [fst] in *.
  assert (∀ i q, posts a !! i = Some q → post_id q ∉ map post_id (p :: ps) →
                 posts a1 !! i = Some q ∧ post_id q ∉ map post_id ps) as Hstep.
  { intros i q Hi Hnin. cbn [map] in Hnin. apply not_elem_of_cons in Hnin as [Hne Hnin].
    split; [by apply Hfr | done]. }
  destruct o.
  - destruct (IH a1) as (Hb' & Hids' & Hfr').
    destruct (deliver_all envs a1 ps) as [a2 log]. cbn [fst] in *.
    split; [congruence |]. split; [congruence |].
    intros i q Hi Hnin. destruct (Hstep i q Hi Hnin). by apply Hfr'.
  - destruct (IH a1) as (Hb' & Hids' & Hfr').
    destruct (deliver_all envs a1 ps) as [a2 log]. cbn [fst] in *.
    split; [congruence |]. split; [congruence |].
    intros i q Hi Hnin. destruct (Hstep i q Hi Hnin). by apply Hfr'.
  - cbn [fst]. split; [done |]. split; [done |].
    intros i q Hi Hnin. by destruct (Hstep i q Hi Hnin).
Qed.

Lemma same_id_same_post (ps : list post) p q :
  NoDup (map post_id ps) → p ∈ ps → q ∈ ps → post_id p = post_id q → p = q.
Proof.
  intros Hnd Hp Hq Hid.
  apply list_elem_of_lookup in Hp as [i Hi]. apply list_elem_of_lookup in Hq as [j Hj].
  assert (i = j) as ->; [| congruence].
  eapply NoDup_lookup; [exact Hnd | |].
  - by rewrite list_lookup_fmap, Hi.
  - rewrite list_lookup_fmap, Hj. simpl. by rewrite Hid.
Qed.

(** X17. With post ids unique, a dispatch tick leaves every post it did not
    select exactly as it was, and leaves the brands, the number of posts and
    their ids as they were, whatever the deliveries of the tick do. *)
Theorem dispatch_changes_only_selected query envs now a i q :
  NoDup (map post_id (posts a)) →
  posts a !! i = Some q →
  due now q = false →
  posts (dispatch_tick query envs now a).1 !! i = Some q
  ∧ brands (dispatch_tick query envs now a).1 = brands a
  ∧ map post_id (posts (dispatch_tick query envs now a).1) = map post_id (posts a).
Proof.
  intros Hnd Hi Hdue. unfold dispatch_tick.
  destruct query as [| m]; [| done].
  destruct (deliver_all_frame envs a (findMany_due now (posts a))) as (Hb & Hids & Hfr).
  split; [| done]. apply Hfr; [done |].
  intros Hin. apply list_elem_of_fmap in Hin as (p & Hid & Hp).
  unfold findMany_due in Hp. apply list_elem_of_In, filter_In in Hp as [Hp Hpdue].
  apply list_elem_of_In in Hp.
  assert (p = q) as ->; [| congruence].
  eapply same_id_same_post; [done .. | | done].
  apply list_elem_of_lookup. by exists i.
Qed.

Lemma dispatch_changes_only_selected_witness :
  posts (dispatch_tick Succeeds (λ _, Scenario.smooth) 2000 Scenario.panel).1 !! 2%nat
  = Some Scenario.future
  ∧ posts (dispatch_tick Succeeds (λ _, Scenario.smooth) 2000 Scenario.panel).1 !! 3%nat
    = Some Scenario.draft.
Proof.
  split.
  - apply (dispatch_changes_only_selected Succeeds (λ _, Scenario.smooth) 2000
             Scenario.panel 2%nat Scenario.future); [| reflexivity | reflexivity].
    apply (bool_decide_unpack _). vm_compute. exact I.
  - apply (dispatch_changes_only_selected Succeeds (λ _, Scenario.smooth) 2000
             Scenario.panel 3%nat Scenario.draft); [| reflexivity | reflexivity].
    apply (bool_decide_unpack _). vm_compute. exact I.
Defined.

Lemma find_post_unique (ps : list post) p :
  NoDup (map post_id ps) → p ∈ ps → find_post (post_id p) ps = Some p.
Proof.
  intros Hnd Hp. unfold find_post.
  destruct (List.find _ ps) as [q |] eqn:Hq.
  - apply find_some in Hq as [Hin Hid]. apply list_elem_of_In in Hin.
    apply Z.eqb_eq in Hid. f_equal. by eapply same_id_same_post.
  - apply list_elem_of_In in Hp.
    pose proof (find_none _ _ Hq p Hp) as H. simpl in H.
    by rewrite Z.eqb_refl in H.
Qed.

Lemma find_update_post_ne id id' data ps :
  (∀ q, post_id (data q) = post_id q) →
  id' ≠ id →
  find_post id' (update_post id data ps) = find_post id' ps.
Proof.
  intros Hid Hne. unfold find_post, update_post.
  induction ps as [| q ps IH]; [done |]. cbn [map List.find].
  destruct (post_id q =? id) eqn:E.
  - rewrite Hid. apply Z.eqb_eq in E.
    assert ((post_id q =? id') = false) as -> by (apply Z.eqb_neq; congruence).
    exact IH.
  - destruct (post_id q =? id'); [done | exact IH].
Qed.

(** A delivery that settles: what is left of the application state. *)
Lemma send_settles e a postId post brand :
  find_post postId (posts a) = Some post →
  status post = "approved" ∨ status post = "scheduled" →
  find_brand (post_brandId post) (brands a) = Some brand →
  refreshLocks (world a) = ∅ →
  settles e →
  ∃ data call,
    (∀ q, post_id (data q) = post_id q
          ∧ status (data q) ≠ "scheduled"
          ∧ (status (data q) = "sent" ∨ status (data q) = "failed"))
    ∧ hook_post call = postId
    ∧ posts (sendPostToN8N e a postId).1 = update_post postId data (posts a)
    ∧ brands (sendPostToN8N e a postId).1 = brands a
    ∧ refreshLocks (world (sendPostToN8N e a postId).1) = ∅
    ∧ webhook_calls (sendPostToN8N e a postId).1 = webhook_calls a ++ [call]
    ∧ (sendPostToN8N e a postId).2 ≠ Pending.
Proof.
  intros Hfind Hstatus Hbrand Hlocks (Hpost & Hbr & Hig & Hfb & Hupd).
  destruct (send_reaches_webhook e a postId post brand Hpost Hbr Hfind Hstatus
              Hbrand Hlocks Hig Hfb) as (w & call & Hcall & Hw & ->).
  unfold fail_post.
  destruct (webhook e) as [| m]; [destruct (update_sent e) as [| m] |].
  - exists mark_sent, call. repeat split; try done. by left.
  - destruct Hupd as [[_ ?] | ->]; [done |].
    exists (mark_failed m), call. repeat split; try done. by right.
  - destruct Hupd as [[? _] | ->]; [done |].
    exists (mark_failed m), call. repeat split; try done. by right.
Qed.

Lemma deliver_all_once envs a ps :
  refreshLocks (world a) = ∅ →
  NoDup (map post_id ps) →
  (∀ p, p ∈ ps →
        find_post (post_id p) (posts a) = Some p
        ∧ status p = "scheduled"
        ∧ is_Some (find_brand (post_brandId p) (brands a))) →
  (∀ id, settles (envs id)) →
  map fst (deliver_all envs a ps).2 = map post_id ps
  ∧ Forall (λ x, x.2 ≠ Pending) (deliver_all envs a ps).2
  ∧ (∃ calls,
       webhook_calls (deliver_all envs a ps).1 = webhook_calls a ++ calls
       ∧ map hook_post calls = map post_id ps)
  ∧ (∀ i q q',
       posts a !! i = Some q → posts (deliver_all envs a ps).1 !! i = Some q' →
       post_id q ∈ map post_id ps → status q' ≠ "scheduled").
Proof.
  revert a. induction ps as [| p ps IH]; intros a Hlocks Hnd Hps Henv.
  - cbn [deliver_all fst snd map]. split; [done |]. split; [done |].
    split; [exists []; by rewrite app_nil_r |].
    intros i q q' _ _ Hin. by apply elem_of_nil in Hin.
  - cbn [map] in Hnd. apply NoDup_cons in Hnd as [Hp Hnd].
    destruct (Hps p) as (Hfind & Hst & [brand Hbrand]); [apply list_elem_of_here |].
    destruct (send_settles (envs (post_id p)) a (post_id p) p brand
                Hfind (or_intror Hst) Hbrand Hlocks (Henv _))
      as (data & call & Hdata & Hcall & Hposts & Hbrands & Hlocks1 & Hcalls & Hnp).
    pose proof (deliver_all_frame envs (sendPostToN8N (envs (post_id p)) a (post_id p)).1 ps)
      as (_ & _ & Hfr).
    cbn [deliver_all].
    destruct (sendPostToN8N (envs (post_id p)) a (post_id p)) as [a1 o].
    cbn [fst snd] in *.
    destruct (IH a1) as (Hlog & Hall & (calls & Hcalls' & Hhooks) & Hdone);
      [done | done | | done |].
    { intros p' Hp'. destruct (Hps p') as (Hf' & Hs' & Hb');
        [by apply list_elem_of_further |].
      rewrite Hposts, Hbrands. split; [| done].
      rewrite find_update_post_ne; [done | intros q; apply Hdata |].
      intros Heq. apply Hp. rewrite <- Heq. by apply list_elem_of_fmap_2. }
    assert (∀ i q q', posts a !! i = Some q →
              posts (deliver_all envs a1 ps).1 !! i = Some q' →
              post_id q ∈ map post_id (p :: ps) → status q' ≠ "scheduled") as Hfinal.
    { intros i q q' Hi Hi' Hin.
      pose proof (update_post_lookup (post_id p) data _ _ _ Hi) as Hi1.
      rewrite <- Hposts in Hi1.
      destruct (decide (post_id q ∈ map post_id ps)) as [Hq | Hq].
      - eapply (Hdone i _ q'); [exact Hi1 | exact Hi' |].
        destruct (post_id q =? post_id p); [| done].
        by rewrite (proj1 (Hdata q)).
      - cbn [map] in Hin. apply elem_of_cons in Hin as [Heq | Hin]; [| done].
        apply Z.eqb_eq in Heq as Heq'. rewrite Heq' in Hi1.
        pose proof (Hfr i _ Hi1) as Hi2.
        rewrite (proj1 (Hdata q)) in Hi2. specialize (Hi2 Hq).
        rewrite Hi2 in Hi'. injection Hi' as <-. apply Hdata. }
    destruct (deliver_all envs a1 ps) as [a2 log]. cbn [fst snd] in *.
    assert (∃ calls0, webhook_calls a2 = webhook_calls a ++ calls0
                      ∧ map hook_post calls0 = post_id p :: map post_id ps) as Hc.
    { exists (call :: calls). rewrite Hcalls', Hcalls, <- app_assoc.
      split; [done |]. cbn [map]. by rewrite Hcall, Hhooks. }
    destruct o; [| | done]; cbn [fst snd map];
      (split; [by rewrite Hlog |]); (split; [by apply Forall_cons |]);
      (split; [exact Hc | exact Hfinal]).
Qed.

Lemma filter_nil {A} (f : A → bool) (l : list A) :
  (∀ x, x ∈ l → f x = false) → List.filter f l = [].
Proof.
  induction l as [| x l IH]; intros H; [done |]. cbn [List.filter].
  rewrite (H x) by apply list_elem_of_here.
  apply IH. intros y Hy. apply H. by apply list_elem_of_further.
Qed.

Lemma dispatch_tick_once envs now a :
  NoDup (map post_id (posts a)) →
  posts_have_brands a →
  refreshLocks (world a) = ∅ →
  (∀ id, settles (envs id)) →
  map fst (dispatch_tick Succeeds envs now a).2 = map post_id (findMany_due now (posts a))
  ∧ Forall (λ x, x.2 ≠ Pending) (dispatch_tick Succeeds envs now a).2
  ∧ (∃ calls,
       webhook_calls (dispatch_tick Succeeds envs now a).1 = webhook_calls a ++ calls
       ∧ map hook_post calls = map post_id (findMany_due now (posts a)))
  ∧ findMany_due now (posts (dispatch_tick Succeeds envs now a).1) = [].
Proof.
  intros Hnd Hfk Hlocks Henv. cbn [dispatch_tick].
  set (ps := findMany_due now (posts a)).
  assert (∀ p, p ∈ ps → p ∈ posts a ∧ due now p = true) as Hps.
  { intros p Hp. unfold ps, findMany_due in Hp.
    apply list_elem_of_In, filter_In in Hp as [Hp Hd].
    by apply list_elem_of_In in Hp. }
  assert (NoDup (map post_id ps)) as Hnd'.
  { unfold ps, findMany_due. clear -Hnd.
    induction (posts a) as [| q l IH]; [constructor |].
    cbn [map] in Hnd. apply NoDup_cons in Hnd as [Hq Hnd].
    cbn [List.filter]. destruct (due now q); [| by apply IH].
    cbn [map]. apply NoDup_cons. split; [| by apply IH].
    intros Hin. apply Hq. apply list_elem_of_fmap in Hin as (p & -> & Hp).
    apply list_elem_of_fmap_2. apply list_elem_of_In, filter_In in Hp as [Hp _].
    by apply list_elem_of_In. }
  destruct (deliver_all_once envs a ps Hlocks Hnd') as (Hlog & Hall & Hcalls & Hdone);
    [| done |].
  { intros p Hp. destruct (Hps p Hp) as [Hin Hd].
    split; [by apply find_post_unique |].
    split; [by apply due_spec in Hd as [? _] | by apply Hfk]. }
  pose proof (deliver_all_frame envs a ps) as (_ & Hids & Hfr).
  split; [done |]. split; [done |]. split; [done |].
  apply filter_nil. intros q' Hq'.
  apply list_elem_of_lookup in Hq' as [i Hi'].
  assert (∃ q, posts a !! i = Some q) as [q Hi].
  { apply lookup_lt_is_Some. apply lookup_lt_Some in Hi'.
    apply (f_equal length) in Hids. rewrite !length_map in Hids. lia. }
  destruct (due now q') eqn:Hd; [exfalso | done].
  destruct (decide (post_id q ∈ map post_id ps)) as [Hsel | Hnsel].
  - apply due_spec in Hd as [Hst _]. by apply (Hdone i q q' Hi Hi' Hsel).
  - rewrite (Hfr i q Hi Hnsel) in Hi'. injection Hi' as <-.
    apply Hnsel. apply list_elem_of_fmap_2. unfold ps, findMany_due.
    apply list_elem_of_In, filter_In. split; [| done].
    apply list_elem_of_In, list_elem_of_lookup. by exists i.
Qed.

(** X18. With unique post ids, every post on an existing brand, no refresh
    in flight, a query that works, and an environment in which every
    delivery settles (its reads of the post and of the brand succeed, its
    refreshes get their resumptions, and the store accepts the update to
    [sent], or the update to [failed]): one dispatch tick calls the webhook
    exactly once for each post it selected, in the order of the selection,
    ends every delivery (none stays suspended), and leaves no post due: a
    second tick at the same time would select nothing. *)
Theorem dispatch_delivers_each_due_post_once envs now a :
  NoDup (map post_id (posts a)) →
  posts_have_brands a →
  refreshLocks (world a) = ∅ →
  (∀ id, settles (envs id)) →
  map fst (dispatch_tick Succeeds envs now a).2 = map post_id (findMany_due now (posts a))
  ∧ Forall (λ x, x.2 ≠ Pending) (dispatch_tick Succeeds envs now a).2
  ∧ (∃ calls,
       webhook_calls (dispatch_tick Succeeds envs now a).1 = webhook_calls a ++ calls
       ∧ map hook_post calls = map post_id (findMany_due now (posts a)))
  ∧ findMany_due now (posts (dispatch_tick Succeeds envs now a).1) = [].
Proof. apply dispatch_tick_once. Qed.

Lemma dispatch_delivers_each_due_post_once_witness :
  map fst (dispatch_tick Succeeds (λ _, Scenario.smooth) 2000 Scenario.panel).2
  = map post_id (findMany_due 2000 (posts Scenario.panel))
  ∧ findMany_due 2000
      (posts (dispatch_tick Succeeds (λ _, Scenario.smooth) 2000 Scenario.panel).1) = [].
Proof.
  assert (posts_have_brands Scenario.panel) as Hfk.
  { intros p Hp. cbn in Hp.
    repeat (apply elem_of_cons in Hp as [-> | Hp]; [by eexists |]).
    by apply elem_of_nil in Hp. }
  assert (∀ id : Z, settles ((λ _, Scenario.smooth) id)) as Henv.
  { intros _. split; [reflexivity |]. split; [reflexivity |].
    split; [vm_compute; lia |]. split; [vm_compute; lia |].
    left. by split. }
  assert (NoDup (map post_id (posts Scenario.panel))) as Hnd.
  { apply (bool_decide_unpack _). vm_compute. exact I. }
  destruct (dispatch_delivers_each_due_post_once (λ _, Scenario.smooth) 2000
              Scenario.panel Hnd Hfk eq_refl Henv) as (H1 & _ & _ & H2).
  by split.
Defined.

(** ** Approval *)

Import Routes.

Lemma set_status_id s q : post_id (set_status s q) = post_id q.
Proof. done. Qed.





(** X20. Approving a post that has no schedule, or one that is not in the
    future, delivers it at once, whatever its status was (a post already
    sent is sent again).  When the read and the update of the approval
    succeed, the brand is in place, no refresh is in flight and the delivery
    settles (its own reads of the post and of the brand succeed, its
    refreshes get their resumptions, the store accepts the update to [sent]
    or the one to [failed]): the webhook is called exactly once for the
    post, the post ends as [sent] or [failed], and the reply is the redirect
    to the brand page in either case. *)
Theorem approve_delivers_at_once e now a postId post brand :
  find_post postId (posts a) = Some post →
  (∀ t, scheduleAt post = Some t → t ≤ now) →
  find_brand (post_brandId post) (brands a) = Some brand →
  refreshLocks (world a) = ∅ →
  settles e →
  let r := approve Succeeds Succeeds e now (Some postId) a in
  r.1.2 = Redirect ("/brands/" +:+ pretty (post_brandId post))
  ∧ (∃ o, r.2 = Some o ∧ o ≠ Pending)
  ∧ (∃ call, hook_post call = postId ∧ webhook_calls r.1.1 = webhook_calls a ++ [call])
  ∧ (∃ p, find_post postId (posts r.1.1) = Some p
          ∧ (status p = "sent" ∨ status p = "failed")).
Proof.
  intros Hfind Hsched Hbrand Hlocks Hsettles r.
  assert (approve_status now post = "approved") as Hst.
  { unfold approve_status. destruct (scheduleAt post) as [t |] eqn:Ht; [| done].
    specialize (Hsched t eq_refl).
    by rewrite (proj2 (Z.ltb_ge now t) Hsched). }
  set (a1 := with_posts (update_post postId (set_status "approved") (posts a)) a).
  assert (find_post postId (posts a1) = Some (set_status "approved" post)) as Hfind1
    by (by apply find_update_post).
  destruct (send_settles e a1 postId (set_status "approved" post) brand Hfind1
              (or_introl eq_refl) Hbrand Hlocks Hsettles)
    as (data & call & Hdata & Hcall & Hposts & _ & _ & Hcalls & Hnp).
  assert (r = ((sendPostToN8N e a1 postId).1,
               Redirect ("/brands/" +:+ pretty (post_brandId post)),
               Some (sendPostToN8N e a1 postId).2)) as ->.
  { unfold r, approve. rewrite Hfind, Hst. cbn [String.eqb Ascii.eqb Bool.eqb].
    fold a1. by destruct (sendPostToN8N e a1 postId). }
  cbn [fst snd]. split; [done |].
  split; [by eexists |].
  split; [by exists call |].
  exists (data (set_status "approved" post)). split; [| apply Hdata].
  rewrite Hposts. apply find_update_post; [intros q; apply Hdata | done].
Qed.

Lemma approve_delivers_at_once_witness :
  ∃ p, find_post 8 (posts (approve Succeeds Succeeds Scenario.smooth 2000 (Some 8)
                             Cases.archive).1.1) = Some p
       ∧ (status p = "sent" ∨ status p = "failed").
Proof.
  assert (settles Scenario.smooth) as Hs.
  { split; [reflexivity |]. split; [reflexivity |].
    split; [vm_compute; lia |]. split; [vm_compute; lia |]. left. by split. }
  destruct (approve_delivers_at_once Scenario.smooth 2000 Cases.archive 8 Cases.delivered
              Scenario.B eq_refl ltac:(discriminate) eq_refl eq_refl Hs)
    as (_ & _ & _ & H).
  exact H.
Defined.

(** ** Rows that the schema accepts *)

Lemma create_post_spec o row a a' :
  create_post o row a = Some a' →
  a' = with_posts (posts a ++ [row]) a
  ∧ (post_id row ∉ map post_id (posts a))
  ∧ is_Some (find_brand (post_brandId row) (brands a)).
Proof.
  unfold create_post. destruct o; [| done].
  destruct (existsb _ (posts a)) eqn:Hex; [done |].
  destruct (find_brand _ (brands a)) eqn:Hb; [| done].
  intros [= <-]. split; [done |]. split; [| done].
  intros Hin. apply list_elem_of_fmap in Hin as (p & Hid & Hp).
  assert (existsb (λ p, post_id p =? post_id row) (posts a) = true) as Hex'; [| congruence].
  apply existsb_exists. exists p. split; [by apply list_elem_of_In |].
  by apply Z.eqb_eq.
Qed.

Lemma well_formed_create o row a a' :
  create_post o row a = Some a' → well_formed a → well_formed a'.
Proof.
  intros Hc [Hnd Hfk]. apply create_post_spec in Hc as (-> & Hfresh & Hb).
  split; cbn [with_posts posts brands].
  - rewrite map_app. apply NoDup_app. split; [done |].
    split; [| cbn; apply NoDup_singleton].
    intros x Hx Hx'. cbn in Hx'. apply list_elem_of_singleton in Hx'. by subst.
  - intros q Hq. cbn [with_posts posts brands] in *.
    apply elem_of_app in Hq as [Hq | Hq]; [by apply Hfk |].
    apply list_elem_of_singleton in Hq. by subst.
Qed.

Lemma find_brand_filter id id' bs :
  id' ≠ id →
  find_brand id' (List.filter (λ b, negb (brand_id b =? id)) bs) = find_brand id' bs.
Proof.
  intros Hne. unfold find_brand. induction bs as [| b bs IH]; [done |].
  cbn [List.filter List.find]. destruct (brand_id b =? id) eqn:E; cbn [negb].
  - apply Z.eqb_eq in E.
    assert ((brand_id b =? id') = false) as -> by (apply Z.eqb_neq; congruence).
    exact IH.
  - cbn [List.find]. by rewrite IH.
Qed.

Lemma find_brand_filter_self id bs :
  find_brand id (List.filter (λ b, negb (brand_id b =? id)) bs) = None.
Proof.
  unfold find_brand. induction bs as [| b bs IH]; [done |].
  cbn [List.filter]. destruct (brand_id b =? id) eqn:E; cbn [negb]; [done |].
  cbn [List.find]. by rewrite E.
Qed.

(** ** Creation of posts *)

Lemma findMany_due_app now ps qs :
  findMany_due now (ps ++ qs) = findMany_due now ps ++ findMany_due now qs.
Proof. unfold findMany_due. apply List.filter_app. Qed.

(** X22. A post created through the post form with a date that has passed
    is [scheduled] at once, and a dispatch tick delivers it though nobody
    approved it.  Precisely: post ids are unique and every post is on an
    existing brand; the form names an existing brand and a non-empty date
    that parses to a time not after [now]; the insert succeeds with a fresh
    id.  Then the reply is the redirect to the brand page and the new row is
    [scheduled].  If moreover no refresh is in flight, the query of the tick
    works and every delivery settles (its reads of the post and of the brand
    succeed, its refreshes get their resumptions, the store accepts the
    update to [sent] or the one to [failed]), the tick at [now] calls the
    webhook for the new post. *)
Theorem new_post_with_elapsed_date_is_delivered
    date_of id referrer b text t envs now a :
  well_formed a →
  refreshLocks (world a) = ∅ →
  (∀ i, settles (envs i)) →
  text ≠ "" →
  date_of text = Some t →
  t ≤ now →
  id ∉ map post_id (posts a) →
  is_Some (find_brand b (brands a)) →
  let r := posts_new date_of Succeeds id referrer (Some b) (Some text) a in
  r.2 = Redirect ("/brands/" +:+ pretty b)
  ∧ posts r.1 = posts a ++ [Post id b "scheduled" (Some t) None]
  ∧ ∃ call, hook_post call = id
            ∧ call ∈ webhook_calls (dispatch_tick Succeeds envs now r.1).1.
Proof.
  intros Hwf Hlocks Henv Htext Hdate Hle Hfresh [brand Hb] r.
  assert (r = (with_posts (posts a ++ [Post id b "scheduled" (Some t) None]) a,
               Redirect ("/brands/" +:+ pretty b))) as ->.
  { unfold r, posts_new, date_field.
    assert (Js.truthy_str (Some text) = true) as ->.
    { cbn. apply negb_true_iff, String.eqb_neq. done. }
    rewrite Hdate. cbn [mjoin option_join]. unfold create_post. cbn [post_id post_brandId].
    assert (existsb (λ p, post_id p =? id) (posts a) = false) as ->.
    { apply not_true_iff_false. intros Hex. apply existsb_exists in Hex as (p & Hp & Hid).
      apply Hfresh. apply Z.eqb_eq in Hid. subst id.
      apply list_elem_of_fmap_2. by apply list_elem_of_In. }
    by rewrite Hb. }
  cbn [fst snd]. split; [done |]. split; [done |].
  set (a1 := with_posts _ a).
  assert (well_formed a1) as [Hnd1 Hfk1].
  { apply (well_formed_create Succeeds (Post id b "scheduled" (Some t) None) a); [| done].
    unfold create_post. cbn [post_id post_brandId].
    destruct (existsb _ (posts a)) eqn:Hex.
    - apply existsb_exists in Hex as (p & Hp & Hid). exfalso.
      apply Hfresh. apply Z.eqb_eq in Hid. subst id.
      apply list_elem_of_fmap_2. by apply list_elem_of_In.
    - by rewrite Hb. }
  destruct (dispatch_tick_once envs now a1 Hnd1 Hfk1 Hlocks Henv)
    as (_ & _ & (calls & Hcalls & Hhooks) & _).
  assert (id ∈ map hook_post calls) as Hin.
  { rewrite Hhooks. unfold a1. cbn [with_posts posts].
    rewrite findMany_due_app, map_app. apply elem_of_app. right.
    assert (due now (Post id b "scheduled" (Some t) None) = true) as Hdue.
    { apply due_spec. split; [done |]. by exists t. }
    unfold findMany_due. cbn [List.filter]. rewrite Hdue.
    apply list_elem_of_here. }
  apply list_elem_of_fmap in Hin as (call & Hid & Hcall).
  exists call. split; [done |]. rewrite Hcalls. apply elem_of_app. by right.
Qed.

Lemma new_post_with_elapsed_date_is_delivered_witness :
  ∃ call,
    hook_post call = 9
    ∧ call ∈ webhook_calls
        (dispatch_tick Succeeds (λ _, Scenario.smooth) 2000
           (posts_new (λ _, Some 1000) Succeeds 9 None (Some 7) (Some "2024-01-01")
              Scenario.panel).1).1.
Proof.
  assert (well_formed Scenario.panel) as Hwf.
  { split.
    - apply (bool_decide_unpack _). vm_compute. exact I.
    - intros p Hp. cbn in Hp.
      repeat (apply elem_of_cons in Hp as [-> | Hp]; [by eexists |]).
      by apply elem_of_nil in Hp. }
  assert (∀ i : Z, settles ((λ _, Scenario.smooth) i)) as Henv.
  { intros _. split; [reflexivity |]. split; [reflexivity |].
    split; [vm_compute; lia |]. split; [vm_compute; lia |].
    left. by split. }
  assert (9 ∉ map post_id (posts Scenario.panel)) as Hfresh.
  { apply (bool_decide_unpack _). vm_compute. exact I. }
  destruct (new_post_with_elapsed_date_is_delivered (λ _, Some 1000) 9 None 7
              "2024-01-01" 1000 (λ _, Scenario.smooth) 2000 Scenario.panel
              Hwf eq_refl Henv ltac:(discriminate) eq_refl ltac:(lia) Hfresh
              (mk_is_Some _ _ eq_refl)) as (_ & _ & H).
  exact H.
Defined.

(** X23. A post created through the generation form is never due at the
    moment of its creation: it is [scheduled] only when its date lies
    strictly in the future, and [draft] otherwise.  So the request adds
    nothing to what the dispatch query selects at that moment, and a post
    generated with a date that has passed is selected at no time. *)
Theorem generated_post_is_not_due
    date_of create id now multipart brandId s1 s2 a a' id' :
  posts_generate date_of create id now multipart brandId s1 s2 a = (a', Json_success id') →
  ∃ row,
    posts a' = posts a ++ [row]
    ∧ post_id row = id'
    ∧ (status row = "scheduled" ∨ status row = "draft")
    ∧ (status row = "scheduled" ↔ ∃ t, scheduleAt row = Some t ∧ now < t)
    ∧ findMany_due now (posts a') = findMany_due now (posts a)
    ∧ (status row = "draft" →
       ∀ now', findMany_due now' (posts a') = findMany_due now' (posts a)).
Proof.
  unfold posts_generate. destruct multipart; [| done].
  generalize (if Js.truthy_str s1 then date_field date_of s1 else date_field date_of s2).
  intros scheduleAt H.
  destruct brandId as [b |]; [| by destruct scheduleAt].
  assert (∃ row, create_post create row a = Some a' ∧ post_id row = id'
                 ∧ (status row = "scheduled" ∨ status row = "draft")
                 ∧ (status row = "scheduled" ↔ ∃ t, Delivery.scheduleAt row = Some t ∧ now < t))
    as (row & Hc & Hid & Hst & Hiff).
  { destruct scheduleAt as [[t |] |]; [| done |].
    - destruct (create_post _ _ a) as [a1 |] eqn:Hc; [| done].
      injection H as <- <-. eexists. split; [exact Hc |]. split; [done |].
      cbn [status Delivery.scheduleAt mjoin option_join].
      destruct (now <? t) eqn:E.
      + apply Z.ltb_lt in E. split; [by left |]. split; [by exists t | done].
      + apply Z.ltb_ge in E. split; [by right |].
        split; [done |]. intros (t' & [= <-] & Hlt). lia.
    - destruct (create_post _ _ a) as [a1 |] eqn:Hc; [| done].
      injection H as <- <-. eexists. split; [exact Hc |]. split; [done |].
      cbn [status Delivery.scheduleAt mjoin option_join].
      split; [by right |]. split; [done |]. by intros (t' & ? & _). }
  apply create_post_spec in Hc as (-> & _ & _).
  exists row. cbn [with_posts posts]. split; [done |]. split; [done |].
  split; [done |]. split; [done |].
  assert (∀ now', due now' row = false → 
            findMany_due now' (posts a ++ [row]) = findMany_due now' (posts a)) as Hno.
  { intros now' Hd. rewrite findMany_due_app. unfold findMany_due at 2.
    cbn [List.filter]. rewrite Hd. apply app_nil_r. }
  split.
  - apply Hno. apply not_true_iff_false. intros Hd.
    apply due_spec in Hd as (Hs & t & Ht & Hle).
    apply Hiff in Hs as (t' & Ht' & Hlt). rewrite Ht in Ht'. injection Ht' as <-. lia.
  - intros Hdraft now'. apply Hno. apply not_true_iff_false. intros Hd.
    apply due_spec in Hd as (Hs & _). congruence.
Qed.

Lemma generated_post_is_not_due_witness :
  ∃ row,
    posts (posts_generate (λ _, Some 1000) Succeeds 9 2000 true (Some 7)
             (Some "2024-01-01") None Scenario.panel).1
    = posts Scenario.panel ++ [row]
    ∧ post_id row = 9
    ∧ findMany_due 2000
        (posts (posts_generate (λ _, Some 1000) Succeeds 9 2000 true (Some 7)
                  (Some "2024-01-01") None Scenario.panel).1)
      = findMany_due 2000 (posts Scenario.panel).
Proof.
  destruct (generated_post_is_not_due (λ _, Some 1000) Succeeds 9 2000 true (Some 7)
              (Some "2024-01-01") None Scenario.panel _ 9 eq_refl)
    as (row & Hposts & Hid & _ & _ & Hdue & _).
  exists row. split; [exact Hposts |]. split; [exact Hid | exact Hdue].
Defined.

(** ** Deletion of a brand *)

(** X24. Deleting a brand, once the document step and the deletion of its
    posts went through: the posts of the brand are gone and all other posts
    and brands are as they were, whether or not the brand itself could then
    be deleted.  The reply is the redirect to the start page exactly when
    the brand existed and its deletion succeeded, and then the brand is no
    longer found; otherwise the brand table is unchanged although the posts
    are gone (the three deletions are not one transaction). *)
Theorem brand_deletion_is_stepwise delete_brand id a :
  let r := brands_delete Succeeds Succeeds delete_brand (Some id) a in
  (∀ p, p ∈ posts r.1 ↔ p ∈ posts a ∧ post_brandId p ≠ id)
  ∧ (∀ id', id' ≠ id → find_brand id' (brands r.1) = find_brand id' (brands a))
  ∧ (r.2 = Redirect "/" ↔ delete_brand = Succeeds ∧ is_Some (find_brand id (brands a)))
  ∧ (r.2 = Redirect "/" → find_brand id (brands r.1) = None)
  ∧ (r.2 ≠ Redirect "/" → brands r.1 = brands a).
Proof.
  intros r.
  set (a1 := with_posts (List.filter (λ p, negb (post_brandId p =? id)) (posts a)) a).
  assert (∀ p, p ∈ posts a1 ↔ p ∈ posts a ∧ post_brandId p ≠ id) as Hleft.
  { intros p. cbn [a1 with_posts posts].
    rewrite !list_elem_of_In, filter_In, negb_true_iff, Z.eqb_neq. done. }
  assert (existsb (λ p, post_brandId p =? id) (posts a1) = false) as Hnone.
  { apply not_true_iff_false. intros Hex. apply existsb_exists in Hex as (p & Hp & Hid).
    apply list_elem_of_In, Hleft in Hp as [_ Hne]. by apply Z.eqb_eq in Hid. }
  assert (r = match delete_brand_row delete_brand id a1 with
              | Some a2 => (a2, Redirect "/")
              | None => (a1, Redirect ("/brands/" +:+ pretty id))
              end) as -> by done.
  unfold delete_brand_row. rewrite Hnone. change (brands a1) with (brands a).
  destruct delete_brand as [| m]; [destruct (find_brand id (brands a)) as [b |] eqn:Hb |];
    cbn [fst snd posts brands].
  - split; [exact Hleft |]. split; [intros id' Hne; by apply find_brand_filter |].
    split; [by split; [split; [| eexists] |] |].
    split; [intros _; apply find_brand_filter_self | done].
  - split; [exact Hleft |]. split; [done |].
    split; [split; [done | intros [_ [? ?]]; done] |]. by split.
  - split; [exact Hleft |]. split; [done |].
    split; [split; [done | intros [? _]; done] |]. by split.
Qed.

(** ** Creation of a brand *)

Lemma take_token_spec o given t :
  let creds := (take_token o given t).1 in
  Js.truthy (Js.get creds "access_token") = false
  ∧ ∀ k, k ≠ "access_token" → creds !! k = given !! k.
Proof.
  unfold take_token. destruct (Js.truthy (Js.get given "access_token")) eqn:E; cbn [fst].
  - split; [by unfold Js.get; rewrite lookup_delete_eq |].
    intros k Hk. by rewrite lookup_delete_ne.
  - done.
Qed.

Lemma credentials_step_spec o field t creds t' :
  credentials_step o field t = Some (creds, t') →
  match creds with
  | None => field = Absent
  | Some creds =>
      ∃ given, field = Parsed given
               ∧ Js.truthy (Js.get creds "access_token") = false
               ∧ ∀ k, k ≠ "access_token" → creds !! k = given !! k
  end.
Proof.
  destruct field as [| | given]; cbn [credentials_step]; [by intros [= <- <-] | done |].
  pose proof (take_token_spec o given t) as H.
  destruct (take_token o given t) as [c t1]. intros [= <- <-].
  exists given. by split.
Qed.

(** X25. A brand that the brand form creates never stores a usable
    [access_token]: its Instagram and its Facebook credentials are the
    objects of the form without a truthy [access_token], every other field
    kept; a credentials column is empty exactly when the form gave none.
    The posts are untouched. *)
Theorem created_brand_stores_no_token e id f a a' :
  brands_new e id f a = (a', Redirect "/") →
  ∃ b,
    brands a' = brands a ++ [b] ∧ brand_id b = id ∧ posts a' = posts a
    ∧ match instagramCredentials b with
      | None => instagram_credentials f = Absent
      | Some creds =>
          ∃ given, instagram_credentials f = Parsed given
                   ∧ Js.truthy (Js.get creds "access_token") = false
                   ∧ ∀ k, k ≠ "access_token" → creds !! k = given !! k
      end
    ∧ match facebookCredentials b with
      | None => facebook_credentials f = Absent
      | Some creds =>
          ∃ given, facebook_credentials f = Parsed given
                   ∧ Js.truthy (Js.get creds "access_token") = false
                   ∧ ∀ k, k ≠ "access_token" → creds !! k = given !! k
      end.
Proof.
  unfold brands_new.
  destruct (credentials_step _ (instagram_credentials f) _) as [[ig t1] |] eqn:Hig; [| done].
  destruct (credentials_step _ (facebook_credentials f) _) as [[fb t2] |] eqn:Hfb; [| done].
  destruct (wordpress_credentials f && linkedin_credentials f); [| done].
  destruct (brand_create e); [| done].
  destruct (existsb _ (brands a)); [done |].
  intros [= <-]. eexists. cbn [brands posts brand_id instagramCredentials facebookCredentials].
  split; [done |]. split; [done |]. split; [done |].
  split; [exact (credentials_step_spec _ _ _ _ _ Hig)
         | exact (credentials_step_spec _ _ _ _ _ Hfb)].
Qed.

Lemma created_brand_stores_no_token_witness :
  ∃ b,
    brands (brands_new Cases.all_written 8 Cases.form_with_token Scenario.panel).1
    = brands Scenario.panel ++ [b]
    ∧ brand_id b = 8.
Proof.
  destruct (created_brand_stores_no_token Cases.all_written 8 Cases.form_with_token
              Scenario.panel
              (brands_new Cases.all_written 8 Cases.form_with_token Scenario.panel).1
              eq_refl) as (b & Hb & Hid & _).
  exists b. split; [exact Hb | exact Hid].
Defined.

Lemma take_token_read o field t given :
  Store.singleton t →
  o = Succeeds →
  field = Parsed given →
  Store.singleton (take_token o given t).2
  ∧ Store.getGlobalInstagramFacebookToken Succeeds (take_token o given t).2
    = match embedded_token field with
      | Some s => Some s
      | None => Store.getGlobalInstagramFacebookToken Succeeds t
      end.
Proof.
  intros Hs -> ->. unfold take_token, embedded_token.
  destruct (Js.get given "access_token") as [| | b | n | s] eqn:E; cbn [Js.truthy];
    try done.
  - by destruct b.
  - by destruct (negb (n =? 0)).
  - destruct (String.eqb s "") eqn:Es; cbn [negb fst snd]; [done |].
    cbn [Store.setGlobalInstagramFacebookToken fst].
    split; [by apply singleton_upsert | by apply get_after_upsert].
Qed.

Lemma credentials_step_read o field t creds t' :
  Store.singleton t →
  o = Succeeds →
  credentials_step o field t = Some (creds, t') →
  Store.singleton t'
  ∧ Store.getGlobalInstagramFacebookToken Succeeds t'
    = match embedded_token field with
      | Some s => Some s
      | None => Store.getGlobalInstagramFacebookToken Succeeds t
      end.
Proof.
  intros Hs Ho. destruct field as [| | given]; cbn [credentials_step];
    [by intros [= <- <-] | done |].
  pose proof (take_token_read o (Parsed given) t given Hs Ho eq_refl) as H.
  destruct (take_token o given t) as [c t1]. by intros [= <- <-].
Qed.

Lemma take_field_read o field t :
  Store.singleton t →
  o = Succeeds →
  Store.singleton (take_field o field t)
  ∧ Store.getGlobalInstagramFacebookToken Succeeds (take_field o field t)
    = match field_token field with
      | Some s => Some s
      | None => Store.getGlobalInstagramFacebookToken Succeeds t
      end.
Proof.
  intros Hs ->. unfold take_field, field_token.
  destruct field as [text |]; [| done].
  destruct (String.eqb (Text.trim text) "") eqn:E; cbn [negb].
  - by rewrite andb_false_r.
  - rewrite andb_true_r. destruct (Js.truthy_str (Some text)) eqn:Et.
    + cbn [Store.setGlobalInstagramFacebookToken fst].
      split; [by apply singleton_upsert | by apply get_after_upsert].
    + exfalso. cbn in Et. apply negb_false_iff, String.eqb_eq in Et. by subst.
Qed.

Lemma credentials_step_parses o field t :
  field ≠ Malformed → credentials_step o field t ≠ None.
Proof.
  destruct field as [| | given]; cbn [credentials_step]; [done | done |].
  by destruct (take_token o given t).
Qed.

Lemma brands_new_tokens e id f a ig t1 fb t2 :
  credentials_step (instagram_write e) (instagram_credentials f) (tokens (world a))
  = Some (ig, t1) →
  credentials_step (facebook_write e) (facebook_credentials f) t1 = Some (fb, t2) →
  tokens (world (brands_new e id f a).1)
  = take_field (field_write e) (instagramFacebook_global_token f) t2.
Proof.
  intros Hig Hfb. unfold brands_new. rewrite Hig, Hfb.
  destruct (wordpress_credentials f && linkedin_credentials f); [| done].
  destruct (brand_create e); [| done].
  by destruct (existsb _ (brands a)).
Qed.

(** X26. Which token the brand form leaves in the global store.  With the
    store holding at most its one row, both credentials fields parsing and
    every write succeeding, the token read back after the request is the
    one of the separate field if that is not blank, else the string token
    embedded in the Facebook credentials, else the one embedded in the
    Instagram credentials, else the token that was there before; and this
    whether or not the brand itself gets created. *)
Theorem brand_form_token_precedence e id f a :
  Store.singleton (tokens (world a)) →
  instagram_write e = Succeeds →
  facebook_write e = Succeeds →
  field_write e = Succeeds →
  instagram_credentials f ≠ Malformed →
  facebook_credentials f ≠ Malformed →
  Store.getGlobalInstagramFacebookToken Succeeds (tokens (world (brands_new e id f a).1))
  = match field_token (instagramFacebook_global_token f),
          embedded_token (facebook_credentials f),
          embedded_token (instagram_credentials f) with
    | Some s, _, _ | None, Some s, _ | None, None, Some s => Some s
    | None, None, None =>
        Store.getGlobalInstagramFacebookToken Succeeds (tokens (world a))
    end.
Proof.
  intros Hs Hig Hfb Hfield Hpi Hpf.
  destruct (credentials_step (instagram_write e) (instagram_credentials f)
              (tokens (world a))) as [[ig t1] |] eqn:H1;
    [| by apply credentials_step_parses in H1].
  destruct (credentials_step (facebook_write e) (facebook_credentials f) t1)
    as [[fb t2] |] eqn:H2; [| by apply credentials_step_parses in H2].
  rewrite (brands_new_tokens e id f a ig t1 fb t2 H1 H2).
  destruct (credentials_step_read _ _ _ _ _ Hs Hig H1) as [Hs1 Hr1].
  destruct (credentials_step_read _ _ _ _ _ Hs1 Hfb H2) as [Hs2 Hr2].
  destruct (take_field_read (field_write e) (instagramFacebook_global_token f) t2
              Hs2 Hfield) as [_ Hr3].
  rewrite Hr3, Hr2, Hr1.
  destruct (field_token _); [done |].
  destruct (embedded_token (facebook_credentials f)); [done |].
  by destruct (embedded_token (instagram_credentials f)).
Qed.

Lemma brand_form_token_precedence_witness :
  Store.getGlobalInstagramFacebookToken Succeeds
    (tokens (world (brands_new Cases.all_written 8 Cases.form_with_token
                      Scenario.panel).1))
  = Some "old".
Proof.
  assert (Store.singleton (tokens (world Scenario.panel))) as Hs.
  { right. by exists "global-old", 2. }
  exact (brand_form_token_precedence Cases.all_written 8 Cases.form_with_token
           Scenario.panel Hs eq_refl eq_refl eq_refl ltac:(discriminate)
           ltac:(discriminate)).
Defined.

(** X27. A brand form that fails after its Instagram step has still changed
    the global token.  When the Instagram credentials embed a string token,
    its write succeeds and the Facebook credentials do not parse, the reply
    is the redirect back to the form and no brand is created, yet the global
    store now holds the embedded token. *)
Theorem brand_form_failure_keeps_token e id f a given token :
  Store.singleton (tokens (world a)) →
  instagram_credentials f = Parsed given →
  Js.get given "access_token" = Js.VStr token →
  token ≠ "" →
  instagram_write e = Succeeds →
  facebook_credentials f = Malformed →
  let r := brands_new e id f a in
  r.2 = Redirect "/brands/new"
  ∧ brands r.1 = brands a
  ∧ posts r.1 = posts a
  ∧ Store.getGlobalInstagramFacebookToken Succeeds (tokens (world r.1)) = Some token.
Proof.
  intros Hs Hig Htok Hne Hw Hfb r. unfold r, brands_new.
  rewrite Hig, Hfb, Hw. cbn [credentials_step]. unfold take_token. rewrite Htok.
  cbn [Js.truthy]. apply String.eqb_neq in Hne. rewrite Hne.
  cbn [negb fst snd Store.setGlobalInstagramFacebookToken brands posts world tokens
       with_tokens].
  split; [done |]. split; [done |]. split; [done |]. by apply get_after_upsert.
Qed.

Lemma brand_form_failure_keeps_token_witness :
  brands (brands_new Cases.all_written 8 Cases.form_with_broken_facebook
            Scenario.panel).1 = brands Scenario.panel
  ∧ Store.getGlobalInstagramFacebookToken Succeeds
      (tokens (world (brands_new Cases.all_written 8 Cases.form_with_broken_facebook
                        Scenario.panel).1))
    = Some "old".
Proof.
  assert (Store.singleton (tokens (world Scenario.panel))) as Hs.
  { right. by exists "global-old", 2. }
  destruct (brand_form_failure_keeps_token Cases.all_written 8
              Cases.form_with_broken_facebook Scenario.panel Scenario.creds "old"
              Hs eq_refl eq_refl ltac:(discriminate) eq_refl eq_refl)
    as (_ & Hb & _ & Ht).
  split; [exact Hb | exact Ht].
Defined.

Lemma complete_without_token creds :
  appId_of (delete "access_token" creds) = appId_of creds
  ∧ appSecret_of (delete "access_token" creds) = appSecret_of creds.
Proof.
  unfold appId_of, appSecret_of, Js.get. by rewrite !lookup_delete_ne.
Qed.

(** X28. From the brand form to the first refresh.  A brand is created from
    Instagram credentials that name an application and embed a string
    token, with no Facebook credentials and no separate token field; the
    store holds at most its one row, no refresh is in flight and the write
    of the embedded token succeeds.  The stored credentials no longer hold
    the token.  When the first refresh of the new brand can read the global
    token, it sends exactly the token of the form to the token endpoint,
    with the application id and secret of the form; when that read fails,
    it sends nothing. *)
Theorem created_brand_refresh_exchanges_form_token e id f a a' given token t1 :
  brands_new e id f a = (a', Redirect "/") →
  Store.singleton (tokens (world a)) →
  refreshLocks (world a) = ∅ →
  instagram_credentials f = Parsed given →
  complete given →
  Js.get given "access_token" = Js.VStr token →
  token ≠ "" →
  instagram_write e = Succeeds →
  facebook_credentials f = Absent →
  field_token (instagramFacebook_global_token f) = None →
  ∃ b,
    brands a' = brands a ++ [b]
    ∧ instagramCredentials b = Some (delete "access_token" given)
    ∧ exchanges (refreshBrandToken [t1] (world a') b (Some "instagram")).1
      = exchanges (world a)
        ++ match storage t1 with
           | Succeeds => [ExchangeCall (appId_of given) (appSecret_of given) token]
           | Fails _ => []
           end.
Proof.
  intros Hnew Hs Hlocks Hig [Hid Hsecret] Htok Hne Hw Hfb Hfield.
  assert (take_field (field_write e) (instagramFacebook_global_token f)
            (Store.upsert 1 token (tokens (world a)))
          = Store.upsert 1 token (tokens (world a))) as Htf.
  { unfold take_field, field_token in *.
    destruct (instagramFacebook_global_token f) as [text |]; [| done].
    destruct (String.eqb (Text.trim text) ""); [| done].
    by rewrite andb_false_r. }
  unfold brands_new in Hnew. rewrite Hig, Hfb, Hw in Hnew.
  cbn [credentials_step] in Hnew. unfold take_token in Hnew. rewrite Htok in Hnew.
  cbn [Js.truthy] in Hnew. rewrite (proj2 (String.eqb_neq _ _) Hne) in Hnew.
  cbn [negb fst snd Store.setGlobalInstagramFacebookToken] in Hnew.
  rewrite Htf in Hnew.
  destruct (wordpress_credentials f && linkedin_credentials f); [| done].
  destruct (brand_create e); [| done].
  destruct (existsb _ (brands a)); [done |].
  injection Hnew as <-. eexists. cbn [brands world instagramCredentials].
  split; [done |]. split; [done |].
  destruct (complete_without_token given) as [Hid' Hsecret'].
  assert (complete (delete "access_token" given)) as Hc
    by (split; [by rewrite Hid' | by rewrite Hsecret']).
  destruct (storage t1) as [| m] eqn:Ht1.
  - rewrite (refresh_until_exchange _ _ (Some "instagram") (delete "access_token" given)
               token t1 []).
    + cbn [run fst exchanges with_tokens]. by rewrite Hid', Hsecret'.
    + done.
    + done.
    + cbn [with_tokens refreshLocks]. by rewrite Hlocks.
    + rewrite Ht1. cbn [with_tokens tokens]. by apply get_after_upsert.
    + done.
  - unfold refreshBrandToken.
    rewrite (call_own _ _ (Some "instagram") (delete "access_token" given));
      [| done | done | cbn [with_tokens refreshLocks]; by rewrite Hlocks].
    cbn [run resume]. rewrite Ht1.
    cbn [Store.getGlobalInstagramFacebookToken fst exchanges release with_tokens].
    by rewrite app_nil_r.
Qed.

Lemma created_brand_refresh_exchanges_form_token_witness :
  ∃ b,
    brands (brands_new Cases.all_written 8 Cases.form_with_token Scenario.panel).1
    = brands Scenario.panel ++ [b]
    ∧ exchanges
        (refreshBrandToken [Scenario.tokenless]
           (world (brands_new Cases.all_written 8 Cases.form_with_token
                     Scenario.panel).1) b (Some "instagram")).1
      = [ExchangeCall (Js.VStr "1") (Js.VStr "s") "old"].
Proof.
  assert (Store.singleton (tokens (world Scenario.panel))) as Hs.
  { right. by exists "global-old", 2. }
  destruct (created_brand_refresh_exchanges_form_token Cases.all_written 8
              Cases.form_with_token Scenario.panel
              (brands_new Cases.all_written 8 Cases.form_with_token Scenario.panel).1
              Scenario.creds "old" Scenario.tokenless
              eq_refl Hs eq_refl eq_refl (conj eq_refl eq_refl) eq_refl
              ltac:(discriminate) eq_refl eq_refl eq_refl)
    as (b & Hb & _ & Hx).
  exists b. split; [exact Hb | exact Hx].
Defined.

(** ** The language lists of the brand form *)

Lemma trimStart_first s c :
  Text.first (Text.trimStart s) = Some c → Text.is_space c = false.
Proof.
  induction s as [| d s IH]; [done |]. cbn [Text.trimStart].
  destruct (Text.is_space d) eqn:E; [exact IH |].
  cbn [Text.first]. by intros [= <-].
Qed.

Lemma trimEnd_first s c : Text.first (Text.trimEnd s) = Some c → Text.first s = Some c.
Proof.
  destruct s as [| d s]; [done |]. cbn [Text.trimEnd].
  destruct (Text.trimEnd s); [by destruct (Text.is_space d) | done].
Qed.

Lemma trimEnd_last s c :
  Text.last (Text.trimEnd s) = Some c → Text.is_space c = false.
Proof.
  induction s as [| d s IH]; [done |]. cbn [Text.trimEnd].
  destruct (Text.trimEnd s) as [| d' t] eqn:E.
  - destruct (Text.is_space d) eqn:Ed; [done |]. cbn [Text.last]. by intros [= <-].
  - exact IH.
Qed.

Lemma trimStart_occurs c s :
  Text.occurs c (Text.trimStart s) = true → Text.occurs c s = true.
Proof.
  induction s as [| d s IH]; [done |]. cbn [Text.trimStart].
  destruct (Text.is_space d); [| done].
  intros H. cbn [Text.occurs]. rewrite (IH H). apply orb_true_r.
Qed.

Lemma trimEnd_occurs c s :
  Text.occurs c (Text.trimEnd s) = true → Text.occurs c s = true.
Proof.
  induction s as [| d s IH]; [done |]. cbn [Text.trimEnd].
  destruct (Text.trimEnd s) as [| d' t] eqn:E.
  - destruct (Text.is_space d); [done |]. cbn [Text.occurs].
    rewrite orb_false_r. intros ->. done.
  - cbn [Text.occurs] in *. intros H. apply orb_true_iff in H as [-> | H]; [done |].
    rewrite (IH H). apply orb_true_r.
Qed.

Lemma split_pieces sep s : Forall (λ t, Text.occurs sep t = false) (Text.split sep s).
Proof.
  induction s as [| d s IH]; [by repeat constructor |]. cbn [Text.split].
  destruct (Ascii.eqb d sep) eqn:E; [by constructor |].
  destruct (Text.split sep s) as [| t ts]; [by repeat constructor; cbn; rewrite E |].
  apply Forall_cons in IH as [Ht Hts]. constructor; [| done].
  cbn [Text.occurs]. by rewrite E, Ht.
Qed.

Lemma parseLangs_elem value t :
  t ∈ Text.parseLangs value →
  t ≠ "" ∧ ∃ s piece, value = Some s ∧ piece ∈ Text.split Text.comma s ∧ t = Text.trim piece.
Proof.
  unfold Text.parseLangs. destruct value as [s |]; [| by intros ?%elem_of_nil].
  destruct (String.eqb s ""); [by intros ?%elem_of_nil |].
  intros H. apply list_elem_of_In, filter_In in H as [Hin Hne].
  apply list_elem_of_In, list_elem_of_fmap in Hin as (piece & -> & Hpiece).
  split; [by apply negb_true_iff, String.eqb_neq in Hne |].
  by exists s, piece.
Qed.

Lemma parseLangs_clean value t :
  t ∈ Text.parseLangs value →
  t ≠ ""
  ∧ Text.occurs Text.comma t = false
  ∧ (∀ c, Text.first t = Some c → Text.is_space c = false)
  ∧ (∀ c, Text.last t = Some c → Text.is_space c = false).
Proof.
  intros H. apply parseLangs_elem in H as (Hne & s & piece & -> & Hpiece & ->).
  split; [done |]. split; [| split].
  - apply not_true_iff_false. intros Hocc.
    apply trimEnd_occurs, trimStart_occurs in Hocc.
    pose proof (split_pieces Text.comma s) as Hall.
    rewrite Forall_forall in Hall. specialize (Hall piece Hpiece). congruence.
  - intros c Hc. apply trimEnd_first in Hc. by apply trimStart_first in Hc.
  - intros c Hc. by apply trimEnd_last in Hc.
Qed.

(** X29. Every entry of a language list that [parseLangs] returns is not
    empty, holds no comma, and neither starts nor ends with white space. *)
Theorem parseLangs_entries_are_clean value t :
  t ∈ Text.parseLangs value →
  t ≠ ""
  ∧ Text.occurs Text.comma t = false
  ∧ (∀ c, Text.first t = Some c → Text.is_space c = false)
  ∧ (∀ c, Text.last t = Some c → Text.is_space c = false).
Proof. apply parseLangs_clean. Qed.

Lemma parseLangs_entries_are_clean_witness :
  Text.occurs Text.comma "en" = false
  ∧ Text.parseLangs (Some " en, ,de ,") = ["en"; "de"].
Proof.
  split; [| reflexivity].
  exact (proj1 (proj2 (parseLangs_entries_are_clean (Some " en, ,de ,") "en"
                         (list_elem_of_here "en" ["de"])))).
Defined.

Lemma split_no_sep sep t : Text.occurs sep t = false → Text.split sep t = [t].
Proof.
  induction t as [| d t IH]; [done |]. cbn [Text.occurs Text.split].
  intros H. apply orb_false_iff in H as [-> H]. by rewrite (IH H).
Qed.

Lemma split_app_sep sep t rest :
  Text.occurs sep t = false →
  Text.split sep (t +:+ String sep rest) = t :: Text.split sep rest.
Proof.
  induction t as [| d t IH].
  - intros _. change ("" +:+ String sep rest) with (String sep rest).
    cbn [Text.split]. by rewrite Ascii.eqb_refl.
  - intros H. change (String d t +:+ String sep rest)
      with (String d (t +:+ String sep rest)).
    cbn [Text.occurs Text.split] in *.
    apply orb_false_iff in H as [-> H]. by rewrite (IH H).
Qed.

Lemma split_join sep ts :
  ts ≠ [] →
  Forall (λ t, Text.occurs sep t = false) ts →
  Text.split sep (Text.join sep ts) = ts.
Proof.
  induction ts as [| t ts IH]; [done |]. intros _ Hall.
  apply Forall_cons in Hall as [Ht Hts].
  destruct ts as [| t' ts]; [by apply split_no_sep |].
  change (Text.join sep (t :: t' :: ts))
    with (t +:+ String sep (Text.join sep (t' :: ts))).
  rewrite split_app_sep by done. by rewrite IH.
Qed.

Lemma trimStart_id t :
  (∀ c, Text.first t = Some c → Text.is_space c = false) → Text.trimStart t = t.
Proof.
  destruct t as [| d t]; [done |]. intros H. cbn [Text.trimStart].
  by rewrite (H d eq_refl).
Qed.

Lemma trimEnd_id t :
  (∀ c, Text.last t = Some c → Text.is_space c = false) → Text.trimEnd t = t.
Proof.
  induction t as [| d t IH]; [done |]. intros H. cbn [Text.trimEnd].
  destruct t as [| d' t].
  - cbn [Text.trimEnd]. by rewrite (H d eq_refl).
  - rewrite IH by (intros c Hc; by apply H). done.
Qed.

Lemma join_not_empty sep t ts : t ≠ "" → Text.join sep (t :: ts) ≠ "".
Proof.
  intros Ht. destruct ts as [| t' ts]; [done |].
  change (Text.join sep (t :: t' :: ts))
    with (t +:+ String sep (Text.join sep (t' :: ts))).
  by destruct t.
Qed.

Lemma parseLangs_join ts :
  (∀ t, t ∈ ts →
        t ≠ "" ∧ Text.occurs Text.comma t = false
        ∧ (∀ c, Text.first t = Some c → Text.is_space c = false)
        ∧ (∀ c, Text.last t = Some c → Text.is_space c = false)) →
  Text.parseLangs (Some (Text.join Text.comma ts)) = ts.
Proof.
  intros Hclean. destruct ts as [| t ts]; [done |].
  unfold Text.parseLangs.
  assert (String.eqb (Text.join Text.comma (t :: ts)) "" = false) as ->.
  { apply String.eqb_neq, join_not_empty, Hclean, list_elem_of_here. }
  rewrite split_join; [| done |].
  - generalize dependent (t :: ts). clear. intros l Hclean.
    induction l as [| t l IH]; [done |]. cbn [map List.filter].
    destruct (Hclean t) as (Hne & _ & Hf & Hl); [apply list_elem_of_here |].
    assert (Text.trim t = t) as ->.
    { unfold Text.trim. by rewrite (trimStart_id t Hf), (trimEnd_id t Hl). }
    rewrite (proj2 (String.eqb_neq _ _) Hne). cbn [negb].
    rewrite IH; [done |]. intros t' Ht'. by apply Hclean, list_elem_of_further.
  - apply Forall_forall. intros t' Ht'. by apply Hclean.
Qed.

(** X10. The language list survives a round trip through its textual
    form: joining the entries [parseLangs] returned with commas and parsing
    the result gives the same list again. *)
Theorem parseLangs_round_trip value :
  Text.parseLangs (Some (Text.join Text.comma (Text.parseLangs value)))
  = Text.parseLangs value.
Proof. apply parseLangs_join. intros t. apply parseLangs_clean. Qed.

(** ** Deliveries whose reads are rejected *)

(** X30. A delivery whose read of the post is rejected, or whose read of
    the brand is rejected (for a post that is [approved] or [scheduled]),
    throws the error of that read at once: the webhook is not called, no
    refresh is started, and the whole state of the application is as before,
    so a scheduled post stays due. *)
Theorem send_read_rejected e a postId message :
  post_read e = Fails message
  ∨ (post_read e = Succeeds
     ∧ brand_read e = Fails message
     ∧ ∃ post, find_post postId (posts a) = Some post
               ∧ (status post = "approved" ∨ status post = "scheduled")) →
  sendPostToN8N e a postId = (a, Threw message)
  ∧ ∀ now, findMany_due now (posts (sendPostToN8N e a postId).1)
           = findMany_due now (posts a).
Proof.
  intros H.
  assert (sendPostToN8N e a postId = (a, Threw message)) as ->; [| done].
  unfold sendPostToN8N.
  destruct H as [-> | (-> & -> & post & -> & Hstatus)]; [done |].
  cbn [findUnique]. by destruct Hstatus as [-> | ->].
Qed.

Lemma send_read_rejected_witness :
  sendPostToN8N Cases.post_unreadable Scenario.panel 1
  = (Scenario.panel, Threw "Can't reach database server")
  ∧ sendPostToN8N Cases.brand_unreadable Scenario.panel 1
    = (Scenario.panel, Threw "Can't reach database server")
  ∧ Scenario.past ∈ findMany_due 2000
      (posts (sendPostToN8N Cases.brand_unreadable Scenario.panel 1).1).
Proof.
  destruct (send_read_rejected Cases.post_unreadable Scenario.panel 1
              "Can't reach database server" (or_introl eq_refl)) as [H1 _].
  destruct (send_read_rejected Cases.brand_unreadable Scenario.panel 1
              "Can't reach database server"
              (or_intror (conj eq_refl (conj eq_refl
                 (ex_intro _ Scenario.past (conj eq_refl (or_intror eq_refl)))))))
    as [H2 H3].
  split; [exact H1 |]. split; [exact H2 |].
  rewrite (H3 2000). apply list_elem_of_here.
Defined.
